(** * Pyme: the bounding-box placement layer of [pyme/PymeImage.py]

    A shallow embedding of the [PymeImage] wrapper and of the parts of
    Python and Pillow it relies on:

    - Python numbers: [int] is [Z], [float] is IEEE-754 binary64, taken from
      the Standard Library's executable specification [spec_float]
      ([SFmul], [SFdiv], ... at precision 53 and [emax] 1024);
    - Pillow image objects live in a store indexed by references, because
      [Image.paste] mutates its receiver in place and [PymeImage] only holds
      a reference to the image it wraps;
    - exceptions are results; every method is a function from the store to
      a result and a new store. *)

From Stdlib Require Import ZArith Lia String QArith Lqa Qpower.
From Stdlib Require Import Floats.
From stdpp Require Import gmap.

Open Scope Z_scope.

(** ** Exceptions and results *)

(** The Python exception classes that can come out of the modelled code.
    [BadReference] is no Python exception: it is what the model answers
    when asked to follow a reference that the store does not hold. *)
Inductive exn :=
| ValueError (msg : string)
| TypeError
| IndexError
| ZeroDivisionError
| OverflowError
| MemoryError
| OSError
| BadReference.

Inductive result (A : Type) :=
| Ok (a : A)
| Raise (e : exn).
Arguments Ok {A} a.
Arguments Raise {A} e.

Definition is_ValueError (e : exn) : bool :=
  match e with ValueError _ => true | _ => false end.

Global Instance result_ret : MRet result := @Ok.
Global Instance result_bind : MBind result := fun A B k r =>
  match r with
  | Ok a => k a
  | Raise e => Raise e
  end.

(** ** Python numbers *)

Module PyNum.

(** A bounding-box component is [Union[int, float]]. *)
Inductive num :=
| Int (z : Z)
| Float (f : spec_float).

Definition is_float (x : num) : bool :=
  match x with Float _ => true | Int _ => false end.

Definition fmul := SFmul prec emax.
Definition fdiv := SFdiv prec emax.
Definition fadd := SFadd prec emax.
Definition fsub := SFsub prec emax.

(** [float(z)]: correctly rounded, [OverflowError] beyond the range. *)
Definition float_of_int (z : Z) : result spec_float :=
  match binary_normalize prec emax z 0 false with
  | S754_infinity _ => Raise OverflowError
  | f => Ok f
  end.

(** [a / b] on two [int]s: the correctly rounded quotient of the two
    integers themselves (CPython's [long_true_divide]). *)
Definition int_true_div (a b : Z) : result spec_float :=
  if b =? 0 then Raise ZeroDivisionError
  else if a =? 0 then Ok (S754_zero (b <? 0))
  else
    match fdiv (S754_finite (a <? 0) (Z.to_pos (Z.abs a)) 0)
               (S754_finite (b <? 0) (Z.to_pos (Z.abs b)) 0) with
    | S754_infinity _ => Raise OverflowError
    | f => Ok f
    end.

(** [int(f)]: truncation toward zero. *)
Definition int_of_float (f : spec_float) : result Z :=
  match f with
  | S754_nan => Raise (ValueError "cannot convert float NaN to integer")
  | S754_infinity _ => Raise OverflowError
  | S754_zero _ => Ok 0
  | S754_finite s m e => Ok (cond_Zopp s (Z.shiftl (Zpos m) e))
  end.

(** Floor and ceiling of a finite float, for the exact comparison of an
    [int] with a [float]. *)
Definition float_floor (s : bool) (m : positive) (e : Z) : Z :=
  Z.shiftl (cond_Zopp s (Zpos m)) e.
Definition float_ceil (s : bool) (m : positive) (e : Z) : Z :=
  - Z.shiftl (cond_Zopp (negb s) (Zpos m)) e.

(** [a < b] *)
Definition lt (a b : num) : bool :=
  match a, b with
  | Int x, Int y => x <? y
  | Float f, Float g => SFltb f g
  | Int x, Float g =>
      match g with
      | S754_nan => false
      | S754_infinity s => negb s
      | S754_zero _ => x <? 0
      | S754_finite s m e => x <? float_ceil s m e
      end
  | Float f, Int y =>
      match f with
      | S754_nan => false
      | S754_infinity s => s
      | S754_zero _ => 0 <? y
      | S754_finite s m e => float_floor s m e <? y
      end
  end.

(** [a > b] *)
Definition gt (a b : num) : bool := lt b a.

(** [a == b] *)
Definition eq (a b : num) : bool :=
  match a, b with
  | Int x, Int y => x =? y
  | Float f, Float g => SFeqb f g
  | Int x, Float g | Float g, Int x =>
      match g with
      | S754_zero _ => x =? 0
      | S754_finite s m e => (float_floor s m e =? x) && (float_ceil s m e =? x)
      | _ => false
      end
  end.

(** Truth value, as [any] tests it. *)
Definition truthy (a : num) : bool :=
  match a with
  | Int x => negb (x =? 0)
  | Float (S754_zero _) => false
  | Float _ => true
  end.

(** [abs(a)] *)
Definition abs (a : num) : num :=
  match a with
  | Int x => Int (Z.abs x)
  | Float f => Float (SFabs f)
  end.

Definition as_float (a : num) : result spec_float :=
  match a with
  | Int x => float_of_int x
  | Float f => Ok f
  end.

(** A binary operator: exact on two [int]s, in floating point as soon as
    one operand is a [float] (the [int] operand is converted first). *)
Definition arith (iop : Z -> Z -> Z) (fop : spec_float -> spec_float -> spec_float)
           (a b : num) : result num :=
  match a, b with
  | Int x, Int y => Ok (Int (iop x y))
  | _, _ =>
      f ← as_float a;
      g ← as_float b;
      Ok (Float (fop f g))
  end.

(** [a + b], [a - b], [a * b] *)
Definition add := arith Z.add fadd.
Definition sub := arith Z.sub fsub.
Definition mul := arith Z.mul fmul.

(** [a / b] *)
Definition truediv (a b : num) : result spec_float :=
  match a, b with
  | Int x, Int y => int_true_div x y
  | _, _ =>
      f ← as_float a;
      g ← as_float b;
      match g with
      | S754_zero _ => Raise ZeroDivisionError
      | _ => Ok (fdiv f g)
      end
  end.

(** [int(a)] *)
Definition to_int (a : num) : result Z :=
  match a with
  | Int x => Ok x
  | Float f => int_of_float f
  end.

End PyNum.
Export PyNum.

(** ** Pillow images *)

Module Pillow.

(** The three pixel formats the model covers: with an alpha band, with
    colour bands only, and with a single grey band. *)
Inductive Mode := RGBA | RGB | L.

(** A pixel holds four bands. An [RGB] pixel keeps its fourth band at 255
    and an [L] pixel repeats its grey level in the three colour bands, so
    that equal pixels are equal records. *)
Record pixel := Px { red : Z; green : Z; blue : Z; alpha : Z }.

(** An opaque pixel: full alpha, colour bands within a byte. *)
Definition opaque (p : pixel) : Prop :=
  alpha p = 255 /\ 0 <= red p <= 255 /\ 0 <= green p <= 255 /\ 0 <= blue p <= 255.

Definition white : pixel := Px 255 255 255 255.
Definition transparent : pixel := Px 0 0 0 0.

(** An image object. Only the pixels at [0 <= x < width], [0 <= y < height]
    mean anything. *)
Record Image := { mode : Mode; width : Z; height : Z; pix : Z -> Z -> pixel }.

Definition in_image (im : Image) (x y : Z) : bool :=
  (0 <=? x) && (x <? width im) && (0 <=? y) && (y <? height im).

(** [Image.convert]: ITU-R 601-2 luma for a conversion to [L], a full
    alpha band for a conversion to [RGBA]. *)
Definition luma (p : pixel) : Z :=
  Z.shiftr (red p * 19595 + green p * 38470 + blue p * 7471 + 32768) 16.

Definition convert_pixel (to from : Mode) (p : pixel) : pixel :=
  match to, from with
  | RGBA, RGBA => p
  | RGBA, _ | RGB, _ => Px (red p) (green p) (blue p) 255
  | L, L => p
  | L, _ => let l := luma p in Px l l l 255
  end.

(** The matte a mask image gives at one of its pixels: its alpha band for
    [RGBA], its grey level for [L]. An [RGB] image is no mask. *)
Definition mask_level (m : Mode) (p : pixel) : option Z :=
  match m with
  | RGBA => Some (alpha p)
  | L => Some (red p)
  | RGB => None
  end.

(** Pillow's integer blend of one band, [(a + 128 + ((a + 128) >> 8)) >> 8]
    for [a = out * (255 - mask) + in * mask]. *)
Definition blend (mask out in_ : Z) : Z :=
  let t := out * (255 - mask) + in_ * mask + 128 in
  Z.shiftr (Z.shiftr t 8 + t) 8.

Definition blend_pixel (dst : Mode) (mask : Z) (out in_ : pixel) : pixel :=
  match dst with
  | RGBA => Px (blend mask (red out) (red in_)) (blend mask (green out) (green in_))
               (blend mask (blue out) (blue in_)) (blend mask (alpha out) (alpha in_))
  | RGB => Px (blend mask (red out) (red in_)) (blend mask (green out) (green in_))
              (blend mask (blue out) (blue in_)) 255
  | L => let l := blend mask (red out) (red in_) in Px l l l 255
  end.

(** The pixels of [dst] after [src] was pasted with its upper left corner
    at [(ox, oy)]: inside the part of [src] that falls on [dst], the
    source pixel (converted to the mode of [dst]), blended through the
    mask when there is one; elsewhere the old pixel. [level] is the matte
    of the mask at a source position. *)
Definition pasted (dst src : Image) (ox oy : Z) (level : option (Z -> Z -> Z))
  : Z -> Z -> pixel :=
  fun x y =>
    if in_image dst x y && in_image src (x - ox) (y - oy) then
      let p := convert_pixel (mode dst) (mode src) (pix src (x - ox) (y - oy)) in
      match level with
      | None => p
      | Some lv => blend_pixel (mode dst) (lv (x - ox) (y - oy)) (pix dst x y) p
      end
    else pix dst x y.

(** The region of [dst] a paste at [(ox, oy)] writes is empty. *)
Definition region_empty (dst src : Image) (ox oy : Z) : bool :=
  let x0 := Z.max ox 0 in
  let x1 := Z.min (ox + width src) (width dst) in
  let y0 := Z.max oy 0 in
  let y1 := Z.min (oy + height src) (height dst) in
  (x1 <=? x0) || (y1 <=? y0).

(** The largest C [int]. Pillow hands sizes and coordinates to its C
    functions as [int]s. *)
Definition INT_MAX : Z := 2147483647.

(** Whether a Python [int] fits a C [int]: the C functions raise
    [OverflowError] for an argument that does not. *)
Definition fits_int (z : Z) : bool := (- INT_MAX - 1 <=? z) && (z <=? INT_MAX).

(** The widest image Pillow makes: for a wider one, a line of four bytes a
    pixel would overflow, and [MemoryError] is raised whatever memory there
    is. *)
Definition max_width : Z := INT_MAX / 4 - 1.

End Pillow.
Export Pillow.

(** ** The store *)

Definition ref := positive.

(** One call of [Image.paste]: the receiver, the pasted image, whether a
    mask was given, and the exception the call raised, if any. *)
Record paste_call := PasteCall {
  receiver : ref;
  source : ref;
  masked : bool;
  raised : option exn
}.

(** The store: the Pillow image objects, the [PymeImage] objects (each holds
    in [_image] a reference to an image object), and the [Image.paste]
    calls made so far, oldest first. With it goes what the machine has
    room for: [room w h] tells whether Pillow gets the memory to make one
    more image of [w] by [h] pixels. It is taken as given; where it is
    [false], making such an image raises [MemoryError]. *)
Record world := World {
  images : gmap ref Image;
  wrappers : gmap ref ref;
  pastes : list paste_call;
  room : Z -> Z -> bool
}.

(** A computation: from a store to a result and the store it leaves. An
    exception keeps the effects made before it was raised. *)
Definition M (A : Type) : Type := world -> result A * world.

Global Instance M_ret : MRet M := fun A a w => (Ok a, w).
Global Instance M_bind : MBind M := fun A B k m w =>
  match m w with
  | (Ok a, w') => k a w'
  | (Raise e, w') => (Raise e, w')
  end.

Definition raise {A} (e : exn) : M A := fun w => (Raise e, w).

(** Lift the result of a pure operation. *)
Definition lift {A} (r : result A) : M A := fun w => (r, w).

(** [try: m except ValueError: h] *)
Definition try_except_ValueError {A} (m h : M A) : M A := fun w =>
  match m w with
  | (Raise e, w') => if is_ValueError e then h w' else (Raise e, w')
  | ok => ok
  end.

Definition get_image (l : ref) : M Image := fun w =>
  match images w !! l with
  | Some im => (Ok im, w)
  | None => (Raise BadReference, w)
  end.

(** The store with image [im] at [l], with wrapper [p] holding [l], and
    with one more recorded call. *)
Definition with_image (w : world) (l : ref) (im : Image) : world :=
  World (<[l := im]> (images w)) (wrappers w) (pastes w) (room w).
Definition with_wrapper (w : world) (p l : ref) : world :=
  World (images w) (<[p := l]> (wrappers w)) (pastes w) (room w).
Definition logged (w : world) (c : paste_call) : world :=
  World (images w) (wrappers w) (pastes w ++ [c]) (room w).

(** The image a [PymeImage] wraps. *)
Definition canvas_of (w : world) (self : ref) : option Image :=
  l ← wrappers w !! self; images w !! l.

Definition alloc_image (im : Image) : M ref := fun w =>
  let l := fresh (dom (images w)) in (Ok l, with_image w l im).

Definition set_image (l : ref) (im : Image) : M unit := fun w =>
  (Ok tt, with_image w l im).

(** Whether Pillow fails to make one more image of [wd] by [ht] pixels:
    it is wider than Pillow makes them, or the machine has no room for
    it. *)
Definition refused (w : world) (wd ht : Z) : bool :=
  (max_width <? wd) || negb (room w wd ht).

(** Pillow makes a new image object, or raises [MemoryError]. *)
Definition allocate (im : Image) : M ref := fun w =>
  if refused w (width im) (height im)
  then (Raise MemoryError, w)
  else alloc_image im w.


(** ** Pillow's operations on image objects *)

Module Image.

(** [Image.new(mode, size, color)]: [ValueError] for a negative size,
    [TypeError] for a [float] one, [OverflowError] for one that does not
    fit a C [int], [MemoryError] when the image cannot be made. *)
Definition new (m : Mode) (size : num * num) (color : pixel) : M ref :=
  if PyNum.lt (fst size) (Int 0) || PyNum.lt (snd size) (Int 0)
  then raise (ValueError "Width and height must be >= 0")
  else
    match size with
    | (Int w, Int h) =>
        if negb (fits_int w && fits_int h) then raise OverflowError
        else allocate {| mode := m; width := w; height := h; pix := fun _ _ => color |}
    | _ => raise TypeError
    end.

(** [im.copy()] *)
Definition copy (l : ref) : M ref :=
  im ← get_image l;
  allocate im.

(** What [self.paste(im, box, mask)] does once its arguments are read:
    nothing when no pixel of [self] is concerned, [ValueError] for a mask
    that does not fit or is no mask, and the new pixels otherwise. *)
Definition paste_core (self : ref) (dst src : Image) (ox oy : Z) (mask : option Image)
  : M unit :=
  match mask with
  | Some mk =>
      if negb ((width mk =? width src) && (height mk =? height src))
      then raise (ValueError "images do not match")
      else if region_empty dst src ox oy then mret tt
      else
        match mode mk with
        | RGB => raise (ValueError "bad transparency mask")
        | _ =>
            let lv x y := default 0 (mask_level (mode mk) (pix mk x y)) in
            set_image self {| mode := mode dst; width := width dst; height := height dst;
                              pix := pasted dst src ox oy (Some lv) |}
        end
  | None =>
      if region_empty dst src ox oy then mret tt
      else set_image self {| mode := mode dst; width := width dst; height := height dst;
                             pix := pasted dst src ox oy None |}
  end.

(** Whether the four corners Pillow hands to C for a paste of [src] at
    [(ox, oy)] fit a C [int]. *)
Definition box_fits (src : Image) (ox oy : Z) : bool :=
  fits_int ox && fits_int oy && fits_int (ox + width src) && fits_int (oy + height src).

(** [self.paste(im, box, mask)] with a two-element [box] (the upper left
    corner), which Pillow completes with the lower right corner
    [(box[0] + im.width, box[1] + im.height)]. A [float] coordinate is
    refused with [TypeError] and a corner that does not fit a C [int] with
    [OverflowError], before anything is written. Every call is recorded
    with its outcome. *)
Definition paste (self im : ref) (box : num * num) (mask : option ref) : M unit :=
  fun w =>
    let run : M unit :=
      src ← get_image im;
      dst ← get_image self;
      mk ← match mask with
           | Some m => mk ← get_image m; mret (Some mk)
           | None => mret None
           end;
      match box with
      | (Int ox, Int oy) =>
          if negb (box_fits src ox oy) then raise OverflowError
          else paste_core self dst src ox oy mk
      | _ => raise TypeError
      end in
    match run w with
    | (Ok tt, w') => (Ok tt, logged w' (PasteCall self im (bool_decide (is_Some mask)) None))
    | (Raise e, w') =>
        (Raise e, logged w' (PasteCall self im (bool_decide (is_Some mask)) (Some e)))
    end.

End Image.

(** ** What the model takes from outside

    The values Pillow's resampling filter and font renderer produce, and
    CPython's floor division of two [float]s, are not computed here: they
    are taken as given. No property below depends on what they are. *)
Record Backend := {
  (** [resample im w h x y]: the pixel at [(x, y)] of [im] resized to [w] by [h] *)
  resample : Image -> Z -> Z -> Z -> Z -> pixel;
  (** [f // g] on two [float]s *)
  float_floordiv : spec_float -> spec_float -> spec_float;
  (** whether [truetype("Impact", 50)] finds the font *)
  font_found : bool;
  (** the right and bottom edge of the measured text box, converted by [int] *)
  text_extent : string -> Z * Z;
  (** the stroked text as drawn on a transparent surface *)
  text_pixels : string -> Z -> Z -> pixel
}.

Section Pyme.

Context (B : Backend).

(** [im.resize(size, resample, box, reducing_gap)] with the default [box]:
    a copy when the size does not change, [TypeError] for a [float] size,
    [OverflowError] for one that does not fit a C [int], [ValueError] for
    an empty one, [MemoryError] when the new image cannot be made. *)
Definition Image_resize (l : ref) (size : num * num) : M ref :=
  im ← get_image l;
  if PyNum.eq (fst size) (Int (width im)) && PyNum.eq (snd size) (Int (height im))
  then Image.copy l
  else
    match size with
    | (Int w, Int h) =>
        if negb (fits_int w && fits_int h) then raise OverflowError
        else if (w <? 1) || (h <? 1)
        then raise (ValueError "height and width must be > 0")
        else allocate {| mode := mode im; width := w; height := h;
                         pix := resample B im w h |}
    | _ => raise TypeError
    end.

(** [a // b] *)
Definition floordiv (a b : num) : result num :=
  match a, b with
  | Int x, Int y => if y =? 0 then Raise ZeroDivisionError else Ok (Int (x / y))
  | _, _ =>
      f ← as_float a;
      g ← as_float b;
      match g with
      | S754_zero _ => Raise ZeroDivisionError
      | _ => Ok (Float (float_floordiv B f g))
      end
  end.

(** [seq[i]] *)
Definition item (seq : list num) (i : nat) : M num :=
  match seq !! i with
  | Some x => mret x
  | None => raise IndexError
  end.

(** *** class PymeImage *)

(** [PymeImage(image)] *)
Definition init (image : ref) : M ref := fun w =>
  let p := fresh (dom (wrappers w)) in (Ok p, with_wrapper w p image).

(** the [image] property: [self._image] *)
Definition image (self : ref) : M ref := fun w =>
  match wrappers w !! self with
  | Some l => (Ok l, w)
  | None => (Raise BadReference, w)
  end.

(** [self._image = l] *)
Definition set_wrapped (self l : ref) : M unit := fun w =>
  (Ok tt, with_wrapper w self l).

(** [self.width] and [self.height], forwarded to the wrapped image by
    [__getattr__] *)
Definition attr_width (self : ref) : M Z :=
  l ← image self; im ← get_image l; mret (width im).
Definition attr_height (self : ref) : M Z :=
  l ← image self; im ← get_image l; mret (height im).

Definition _center_image (self : ref) (bbox : list num) : M (num * num * num * num) :=
  b2 ← item bbox 2; b0 ← item bbox 0;
  width_bbox ← lift (sub b2 b0);
  b3 ← item bbox 3; b1 ← item bbox 1;
  height_bbox ← lift (sub b3 b1);
  width_img ← attr_width self;
  height_img ← attr_height self;
  r0 ← lift (d ← sub width_bbox (Int width_img); q ← floordiv d (Int 2); add b0 q);
  r1 ← lift (d ← sub height_bbox (Int height_img); q ← floordiv d (Int 2); add b1 q);
  r2 ← lift (d ← add width_bbox (Int width_img); q ← floordiv d (Int 2); add b0 q);
  r3 ← lift (d ← add height_bbox (Int height_img); q ← floordiv d (Int 2); add b1 q);
  mret (r0, r1, r2, r3).

Definition add_padding (self : ref) (left top right bottom : num) : M unit :=
  (* Skip if all values are 0 *)
  if negb (existsb truthy [left; top; right; bottom]) then mret tt
  else
    l ← image self;
    result ← Image.copy l;
    r ← get_image result;
    let new_size := (Int (width r), Int (height r)) in
    let paste_coords := (Int 0, Int 0) in
    '(new_size, paste_coords) ←
      (if gt left (Int 0)
       then n ← lift (add (fst new_size) left);
            mret ((n, snd new_size), (left, snd paste_coords))
       else mret (new_size, paste_coords));
    '(new_size, paste_coords) ←
      (if gt top (Int 0)
       then n ← lift (add (snd new_size) top);
            mret ((fst new_size, n), (fst paste_coords, top))
       else mret (new_size, paste_coords));
    new_size ←
      (if gt right (Int (width r))
       then d ← lift (sub right (Int (width r)));
            n ← lift (add (fst new_size) d);
            mret (n, snd new_size)
       else mret new_size);
    new_size ←
      (if gt bottom (Int (height r))
       then d ← lift (sub bottom (Int (height r)));
            n ← lift (add (snd new_size) d);
            mret (fst new_size, n)
       else mret new_size);
    background ← Image.new RGBA new_size white;
    _ ← Image.paste background result paste_coords (Some result);
    set_wrapped self background.

(** Lines 188-200 of [resize]: the size asked of Pillow when the ratio is
    kept, for an image of size [width] by [height]. *)
Definition keep_ratio_size (size : num * num) (width height : Z) : result (Z * Z) :=
  width_quotient ← truediv (fst size) (Int width);
  height_quotient ← truediv (snd size) (Int height);
  if SFltb width_quotient height_quotient then
    new_width ← (p ← mul (Int width) (Float width_quotient); to_int p);
    new_height ← (p ← mul (Int height) (Float width_quotient); to_int p);
    Ok (new_width, new_height)
  else
    new_width ← (p ← mul (Int width) (Float height_quotient); to_int p);
    new_height ← (p ← mul (Int height) (Float height_quotient); to_int p);
    Ok (new_width, new_height).

(** [resize(size, keep_ratio=...)], the other arguments at their defaults *)
Definition resize (self : ref) (size : num * num) (keep_ratio : bool) : M ref :=
  if keep_ratio then
    width ← attr_width self;
    height ← attr_height self;
    '(new_width, new_height) ← lift (keep_ratio_size size width height);
    l ← image self;
    l' ← Image_resize l (Int new_width, Int new_height);
    _ ← set_wrapped self l';
    mret self
  else
    l ← image self;
    l' ← Image_resize l size;
    _ ← set_wrapped self l';
    mret self.

(** The error both drawing methods raise for a box that has not four
    components. *)
Definition bbox_error : exn := ValueError "Bounding box requires 4 arguments".

(** The content handed to [draw_image]: a Pillow image or a [PymeImage]. *)
Inductive content :=
| Raw (im : ref)
| Wrapped (p : ref).

(** [int(b * extent)]: a fraction of the canvas width or height, in
    pixels. *)
Definition to_pixels (b : num) (extent : Z) : result Z :=
  p ← mul b (Int extent); to_int p.

(** Lines 130-133 of [draw_image]: the paste with the content as its own
    mask, and the paste without a mask when that raises [ValueError]. *)
Definition paste_content (canvas im : ref) (xy : num * num) : M unit :=
  try_except_ValueError
    (Image.paste canvas im xy (Some im))
    (Image.paste canvas im xy None).

(** Lines 114-133 of [draw_image]: the content is resized to the box and
    pasted, centred. *)
Definition draw_image_place (self : ref) (img : content) (b0 b1 b2 b3 : num) : M unit :=
  (* Check whether the image is wrapped in PymeImage *)
  im ← match img with
       | Wrapped p => image p
       | Raw l => mret l
       end;
  (* Adjust size of the image to be drawn *)
  w ← lift (sub b2 b0);
  h ← lift (sub b3 b1);
  tmp ← init im;
  tmp ← resize tmp (w, h) true;
  im ← image tmp;
  (* Paste the image *)
  let paste_coords :=
    [ if gt b0 (Int 0) then b0 else Int 0;
      if gt b1 (Int 0) then b1 else Int 0;
      b2; b3 ] in
  tmp ← init im;
  '(x, y, _, _) ← _center_image tmp paste_coords;
  canvas ← image self;
  paste_content canvas im (x, y).

(** Lines 110-133 of [draw_image]: the placement once [bbox] is in pixels;
    [width] and [height] are the size the canvas had on entry. *)
Definition draw_image_pixels (self : ref) (img : content) (width height : Z)
           (bbox : list num) : M unit :=
  b0 ← item bbox 0; b1 ← item bbox 1; b2 ← item bbox 2; b3 ← item bbox 3;
  (* Adding padding if any is needed *)
  _ ← (if lt b0 (Int 0) || lt b1 (Int 0) || gt b2 (Int width) || gt b3 (Int height)
       then add_padding self (abs b0) (abs b1) b2 b3
       else mret tt);
  draw_image_place self img b0 b1 b2 b3.

Definition draw_image (self : ref) (img : content) (bbox : list num) : M unit :=
  (* Stop executing early in case of errors *)
  if negb (length bbox =? 4)%nat
  then raise bbox_error
  else
    (* Get values needed for later *)
    width ← attr_width self;
    height ← attr_height self;
    (* If bbox is an array of percentages, calculate the absolute values *)
    b0 ← item bbox 0;
    bbox ←
      (if is_float b0
       then
         x0 ← lift (to_pixels b0 width);
         b1 ← item bbox 1;
         x1 ← lift (to_pixels b1 height);
         b2 ← item bbox 2;
         x2 ← lift (to_pixels b2 width);
         b3 ← item bbox 3;
         x3 ← lift (to_pixels b3 height);
         mret [Int x0; Int x1; Int x2; Int x3]
       else mret bbox);
    draw_image_pixels self img width height bbox.

Definition draw_text (self : ref) (text : string) (bbox : list num) : M unit :=
  (* Check Sequence length to prevent IndexErrors *)
  if negb (length bbox =? 4)%nat
  then raise bbox_error
  else
    (* Get the impact font *)
    _ ← (if font_found B then mret tt else raise OSError);
    (* Measure the area with a dummy 1 x 1 image *)
    _ ← Image.new RGBA (Int 1, Int 1) transparent;
    let size := text_extent B text in
    (* Create the area that the text should be drawn on, and draw *)
    text_background ← Image.new RGBA (Int (fst size), Int (snd size)) transparent;
    tb ← get_image text_background;
    _ ← set_image text_background
          {| mode := mode tb; width := width tb; height := height tb;
             pix := text_pixels B text |};
    (* Draw image containing text onto original image *)
    draw_image self (Raw text_background) bbox.

End Pyme.

(** ** Specifications of computations *)

(** [holds I E m Q]: started in a store that satisfies [I], the computation
    [m] leaves a store that satisfies [I], whether it returns or raises; a
    value it returns satisfies [Q] and an exception it raises satisfies
    [E]. *)
Definition holds {A} (I : world -> Prop) (E : exn -> Prop) (m : M A) (Q : A -> Prop) : Prop :=
  forall w, I w ->
    match m w with
    | (Ok a, w') => I w' /\ Q a
    | (Raise e, w') => I w' /\ E e
    end.

(** The same for a pure operation. *)
Definition yields {A} (E : exn -> Prop) (r : result A) (Q : A -> Prop) : Prop :=
  match r with
  | Ok a => Q a
  | Raise e => E e
  end.

(** [reads m]: the computation [m] leaves the store as it finds it. *)
Definition reads {A} (m : M A) : Prop := forall w, (m w).2 = w.

(** [untouched w0 c0 self w]: the store [w] has every image of [w0] but [c0]
    and every wrapper of [w0] but [self] as they were in [w0], and [self]
    wraps [c0] or an image that [w0] did not hold. *)
Definition untouched (w0 : world) (c0 self : ref) (w : world) : Prop :=
  (forall l x, images w0 !! l = Some x -> l <> c0 -> images w !! l = Some x)
  /\ (forall l, is_Some (images w0 !! l) -> is_Some (images w !! l))
  /\ (forall p x, wrappers w0 !! p = Some x -> p <> self -> wrappers w !! p = Some x)
  /\ (forall p, is_Some (wrappers w0 !! p) -> is_Some (wrappers w !! p))
  /\ (exists c, wrappers w !! self = Some c /\ (c = c0 \/ images w0 !! c = None)).

(** ** A backend and stores to run the model on *)

Module Fixtures.

(** A backend to run the model on. It stands in for Pillow where a
    statement needs some backend: a resized image takes the nearest source
    pixels, which are not the values of the BICUBIC filter [resize] asks
    Pillow for, so that no statement run on it says what value a resized
    pixel has. [//] is the floor of the rounded quotient; the font is
    found; a text is 30 pixels wide per character and 60 high, drawn in
    opaque white. *)
Definition nearest : Backend := {|
  resample im w h x y := pix im (x * width im / w) (y * height im / h);
  float_floordiv f g :=
    match fdiv f g with
    | S754_finite s m e => binary_normalize prec emax (float_floor s m e) 0 s
    | q => q
    end;
  font_found := true;
  text_extent t := (30 * Z.of_nat (String.length t), 60);
  text_pixels _ _ _ := white
|}.

(** The floats 1.0 and 0.5. *)
Definition float_one : spec_float := S754_finite false 4503599627370496 (-52).
Definition float_half : spec_float := S754_finite false 4503599627370496 (-53).

(** An image whose pixel at [(x, y)] is [(x, y, 0, a)]. *)
Definition gradient (m : Mode) (w h a : Z) : Image :=
  {| mode := m; width := w; height := h; pix := fun x y => Px x y 0 a |}.

(** A store with one canvas (wrapper 1 around image 1) and one separate
    content image (image 2, wrapped by wrapper 2), on a machine that has
    room for every image. *)
Definition store (canvas content : Image) : world :=
  World (<[2%positive := content]> {[1%positive := canvas]})
        (<[2%positive := 2%positive]> {[1%positive := 1%positive]})
        []
        (fun _ _ => true).

Definition pixel_at (w : world) (l : ref) (x y : Z) : option pixel :=
  im ← images w !! l; Some (pix im x y).

(** What a store shows of a [PymeImage]: the mode, the size and one pixel
    of the image it wraps. *)
Definition observe (w : world) (self : ref) (x y : Z) : option (Mode * Z * Z * pixel) :=
  im ← canvas_of w self; Some (mode im, width im, height im, pix im x y).

End Fixtures.

(** ** Floats as rationals

    What the proofs about rounding are stated with. *)

(** The record [shr] keeps of a quotient [N / D]: its integer part, whether
    the rest is at least a half, and whether something lies beyond that. *)
Definition shr_rec (N D : Z) : shr_record :=
  {| shr_m := N / D;
     shr_r := D <=? 2 * (N mod D);
     shr_s := negb ((2 * (N mod D)) mod D =? 0) |}.

(** Half a unit in the last place of a binary64 float, relative to the
    float: [2 ^ -53]. *)
Definition ulp_half : Q := 1 # 9007199254740992.

(** The rational a finite float stands for. *)
Definition F2Q (f : spec_float) : Q :=
  match f with
  | S754_finite s m e => (inject_Z (cond_Zopp s (Zpos m)) * 2 ^ e)%Q
  | _ => 0%Q
  end.

(** A positive normal float with a moderate exponent. *)
Definition normal (f : spec_float) : Prop :=
  exists (m : positive) (e : Z),
    f = S754_finite false m e /\ 2 ^ 52 <= Zpos m < 2 ^ 53 /\ -500 <= e <= 500.

(** A [float] that is 0 or a normal number between 0 and 1: a fraction of
    the canvas. *)
Definition fraction (f : spec_float) : Prop :=
  (exists s, f = S754_zero s) \/ (normal f /\ (F2Q f <= 1)%Q).

(** * Properties *)

(** ** The store: fresh references *)

Lemma fresh_image_None (w : world) : images w !! fresh (dom (images w)) = None.
Proof. apply not_elem_of_dom, is_fresh. Qed.

Lemma fresh_image_ne (w : world) (l : ref) (im : Image) :
  images w !! l = Some im -> fresh (dom (images w)) <> l.
Proof. intros H E. rewrite <- E, fresh_image_None in H. discriminate. Qed.

Lemma fresh_wrapper_ne (w : world) (p l : ref) :
  wrappers w !! p = Some l -> fresh (dom (wrappers w)) <> p.
Proof.
  intros H E. assert (wrappers w !! p = None) as N.
  { rewrite <- E. apply not_elem_of_dom, is_fresh. }
  congruence.
Qed.

(** ** Running the monad *)

Lemma bind_run {A C} (m : M A) (k : A -> M C) (w : world) :
  (m ≫= k) w = match m w with
               | (Ok a, w') => k a w'
               | (Raise e, w') => (Raise e, w')
               end.
Proof. reflexivity. Qed.

Lemma ret_run {A} (a : A) (w : world) : (mret a : M A) w = (Ok a, w).
Proof. reflexivity. Qed.

Lemma raise_run {A} (e : exn) (w : world) : raise e w = (@Raise A e, w).
Proof. reflexivity. Qed.

Lemma lift_run {A} (r : result A) (w : world) : lift r w = (r, w).
Proof. reflexivity. Qed.

Lemma lift_bind_run {A C} (r : result A) (k : A -> M C) (w : world) :
  (lift r ≫= k) w = match r with
                    | Ok a => k a w
                    | Raise e => (Raise e, w)
                    end.
Proof. rewrite bind_run. unfold lift. destruct r; reflexivity. Qed.

Lemma image_run (w : world) (self l : ref) :
  wrappers w !! self = Some l -> image self w = (Ok l, w).
Proof. intros H. unfold image. rewrite H. reflexivity. Qed.

Lemma get_image_run (w : world) (l : ref) (im : Image) :
  images w !! l = Some im -> get_image l w = (Ok im, w).
Proof. intros H. unfold get_image. rewrite H. reflexivity. Qed.

Lemma attr_width_run (w : world) (self l : ref) (im : Image) :
  wrappers w !! self = Some l -> images w !! l = Some im ->
  attr_width self w = (Ok (width im), w).
Proof.
  intros Hs Hl. unfold attr_width.
  rewrite bind_run, (image_run _ _ _ Hs), bind_run, (get_image_run _ _ _ Hl).
  reflexivity.
Qed.

Lemma attr_height_run (w : world) (self l : ref) (im : Image) :
  wrappers w !! self = Some l -> images w !! l = Some im ->
  attr_height self w = (Ok (height im), w).
Proof.
  intros Hs Hl. unfold attr_height.
  rewrite bind_run, (image_run _ _ _ Hs), bind_run, (get_image_run _ _ _ Hl).
  reflexivity.
Qed.

(** Run a computation as far as its first steps are known. *)
Ltac mrun :=
  repeat (progress (rewrite ?bind_run, ?ret_run, ?raise_run, ?lift_run); cbn).

(** ** C6: the centering rule *)

(** C6. On a box of four integers, [_center_image] answers, for a content
    of width [w] and height [h], the box whose left edge is
    [left + (outer width - w) // 2], whose top edge is
    [top + (outer height - h) // 2], and whose width and height are exactly
    [w] and [h]; this for all integers, also when the content is larger than
    the box. The store is left as it was. *)
Theorem center_image_box (B : Backend) (w : world) (self l : ref) (im : Image)
        (b0 b1 b2 b3 : Z) :
  wrappers w !! self = Some l ->
  images w !! l = Some im ->
  exists x0 y0 x1 y1,
    _center_image B self [Int b0; Int b1; Int b2; Int b3] w
      = (Ok (Int x0, Int y0, Int x1, Int y1), w)
    /\ x0 = b0 + ((b2 - b0) - width im) `div` 2
    /\ y0 = b1 + ((b3 - b1) - height im) `div` 2
    /\ x1 - x0 = width im
    /\ y1 - y0 = height im.
Proof.
  intros Hs Hl.
  exists (b0 + ((b2 - b0) - width im) `div` 2), (b1 + ((b3 - b1) - height im) `div` 2),
         (b0 + ((b2 - b0) + width im) `div` 2), (b1 + ((b3 - b1) + height im) `div` 2).
  split; [| repeat split].
  - unfold _center_image. mrun.
    rewrite (attr_width_run _ _ _ _ Hs Hl). mrun.
    rewrite (attr_height_run _ _ _ _ Hs Hl). mrun.
    reflexivity.
  - replace (b2 - b0 + width im) with ((b2 - b0 - width im) + width im * 2) by lia.
    rewrite Z.div_add by lia. lia.
  - replace (b3 - b1 + height im) with ((b3 - b1 - height im) + height im * 2) by lia.
    rewrite Z.div_add by lia. lia.
Qed.

(** The theorem at work: a 30 x 20 content in the box [(0, 0, 10, 10)], which
    is smaller than the content. *)
Lemma center_image_box_witness :
  exists x0 y0 x1 y1,
    _center_image Fixtures.nearest 2%positive [Int 0; Int 0; Int 10; Int 10]
      (Fixtures.store (Fixtures.gradient RGBA 100 100 255) (Fixtures.gradient RGBA 30 20 255))
    = (Ok (Int x0, Int y0, Int x1, Int y1),
       Fixtures.store (Fixtures.gradient RGBA 100 100 255) (Fixtures.gradient RGBA 30 20 255))
    /\ x0 = 0 + ((10 - 0) - 30) `div` 2
    /\ y0 = 0 + ((10 - 0) - 20) `div` 2
    /\ x1 - x0 = 30
    /\ y1 - y0 = 20.
Proof.
  apply (center_image_box Fixtures.nearest
           (Fixtures.store (Fixtures.gradient RGBA 100 100 255)
                           (Fixtures.gradient RGBA 30 20 255))
           2%positive 2%positive (Fixtures.gradient RGBA 30 20 255) 0 0 10 10);
    reflexivity.
Defined.

(** ** What [Image.paste] does *)

Lemma paste_masked_run (w : world) (dl sl : ref) (dst src : Image) (ox oy : Z) :
  images w !! sl = Some src -> images w !! dl = Some dst ->
  Image.box_fits src ox oy = true ->
  Image.paste dl sl (Int ox, Int oy) (Some sl) w =
    if region_empty dst src ox oy
    then (Ok tt, logged w (PasteCall dl sl true None))
    else match mode src with
         | RGB => (Raise (ValueError "bad transparency mask"),
                   logged w (PasteCall dl sl true (Some (ValueError "bad transparency mask"))))
         | _ =>
             (Ok tt,
              logged (with_image w dl
                        {| mode := mode dst; width := width dst; height := height dst;
                           pix := pasted dst src ox oy
                                    (Some (fun x y => default 0 (mask_level (mode src) (pix src x y)))) |})
                     (PasteCall dl sl true None))
         end.
Proof.
  intros Hs Hd Hfit. unfold Image.paste.
  mrun. rewrite (get_image_run _ _ _ Hs). mrun.
  rewrite (get_image_run _ _ _ Hd). mrun.
  rewrite (get_image_run _ _ _ Hs). mrun. rewrite Hfit. cbn [negb].
  unfold Image.paste_core. rewrite !Z.eqb_refl. cbn.
  destruct (region_empty dst src ox oy); [reflexivity|].
  destruct (mode src); reflexivity.
Qed.

Lemma paste_unmasked_run (w : world) (dl sl : ref) (dst src : Image) (ox oy : Z) :
  images w !! sl = Some src -> images w !! dl = Some dst ->
  Image.box_fits src ox oy = true ->
  Image.paste dl sl (Int ox, Int oy) None w =
    if region_empty dst src ox oy
    then (Ok tt, logged w (PasteCall dl sl false None))
    else (Ok tt,
          logged (with_image w dl
                    {| mode := mode dst; width := width dst; height := height dst;
                       pix := pasted dst src ox oy None |})
                 (PasteCall dl sl false None)).
Proof.
  intros Hs Hd Hfit. unfold Image.paste.
  mrun. rewrite (get_image_run _ _ _ Hs). mrun.
  rewrite (get_image_run _ _ _ Hd). mrun. rewrite Hfit. cbn [negb].
  unfold Image.paste_core.
  destruct (region_empty dst src ox oy); reflexivity.
Qed.

(** Blending through a full matte gives the pasted band. *)
Lemma blend_full (out v : Z) : 0 <= v <= 255 -> blend 255 out v = v.
Proof.
  intros Hv. unfold blend. rewrite !Z.shiftr_div_pow2 by lia.
  change (2 ^ 8) with 256.
  replace (out * (255 - 255) + v * 255 + 128) with (v * 255 + 128) by lia.
  assert (v <= 128 \/ 128 < v) as [H|H] by lia.
  - replace ((v * 255 + 128) / 256) with v
      by (apply (Z.div_unique _ _ _ (128 - v)); lia).
    symmetry; apply (Z.div_unique _ _ _ 128); lia.
  - replace ((v * 255 + 128) / 256) with (v - 1)
      by (apply (Z.div_unique _ _ _ (384 - v)); lia).
    symmetry; apply (Z.div_unique _ _ _ 127); lia.
Qed.

(** ** What [add_padding] does to the store *)

Lemma allocate_run (w : world) (im : Image) :
  allocate im w
  = if refused w (width im) (height im) then (Raise MemoryError, w)
    else (Ok (fresh (dom (images w))), with_image w (fresh (dom (images w))) im).
Proof. reflexivity. Qed.

Section AddPadding.

Variables (w : world) (self l : ref) (im : Image) (left top right bottom : Z).
Hypothesis Hself : wrappers w !! self = Some l.
Hypothesis Himage : images w !! l = Some im.
Hypothesis Hwidth : 0 <= width im.
Hypothesis Hheight : 0 <= height im.

(** The copy of the canvas, the new buffer and the paste origin. *)
Let result := fresh (dom (images w)).
Let w1 := with_image w result im.
Let background := fresh (dom (images w1)).
Let ox := if 0 <? left then left else 0.
Let oy := if 0 <? top then top else 0.
Let blank := {| mode := RGBA;
                width := width im + ox + (if width im <? right then right - width im else 0);
                height := height im + oy + (if height im <? bottom then bottom - height im else 0);
                pix := fun _ _ => white |}.
Let w2 := with_image w1 background blank.
Let level := fun x y => default 0 (mask_level (mode im) (pix im x y)).
Let flattened := {| mode := RGBA; width := width blank; height := height blank;
                    pix := pasted blank im ox oy (Some level) |}.

(** An effective call up to the new buffer: the copy and the buffer are
    made, unless Pillow refuses one of them. *)
Lemma add_padding_run :
  existsb truthy [Int left; Int top; Int right; Int bottom] = true ->
  add_padding self (Int left) (Int top) (Int right) (Int bottom) w =
    if refused w (width im) (height im) then (Raise MemoryError, w)
    else if negb (fits_int (width blank) && fits_int (height blank))
         then (Raise OverflowError, w1)
         else if refused w (width blank) (height blank) then (Raise MemoryError, w1)
              else (_ ← Image.paste background result (Int ox, Int oy) (Some result);
                    set_wrapped self background) w2.
Proof.
  intros Hany. subst w2 blank ox oy background w1 result.
  unfold add_padding. rewrite Hany. cbn [negb].
  mrun. rewrite (image_run _ _ _ Hself). mrun.
  unfold Image.copy. mrun. rewrite (get_image_run _ _ _ Himage). mrun.
  rewrite allocate_run.
  destruct (refused w (width im) (height im)); [reflexivity|].
  mrun.
  rewrite (get_image_run _ _ im) by (cbn; apply lookup_insert_eq).
  unfold Image.new.
  destruct (Z.ltb_spec 0 left), (Z.ltb_spec 0 top), (Z.ltb_spec (width im) right),
    (Z.ltb_spec (height im) bottom); mrun;
  (match goal with
   | |- context [ (?a <? 0) || (?b <? 0) ] =>
       replace (a <? 0) with false by (symmetry; apply Z.ltb_ge; lia);
       replace (b <? 0) with false by (symmetry; apply Z.ltb_ge; lia)
   end); cbn [orb]; rewrite ?Z.add_0_r;
  (match goal with
   | |- context [ fits_int ?a && fits_int ?b ] => destruct (fits_int a && fits_int b)
   end); cbn [negb]; mrun; try reflexivity;
  rewrite allocate_run; cbn [width height];
  (match goal with
   | |- context [ refused ?w0 ?a ?b ] => change (refused w0 a b) with (refused w a b);
                                        destruct (refused w a b)
   end); reflexivity.
Qed.

Lemma padding_refs : result <> l /\ background <> l /\ background <> result.
Proof.
  assert (result <> l) as H1 by (apply (fresh_image_ne w l im Himage)).
  assert (images w1 !! l = Some im) as H2.
  { subst w1. cbn. rewrite lookup_insert_ne by exact H1. exact Himage. }
  assert (images w1 !! result = Some im) as H3.
  { subst w1. cbn. apply lookup_insert_eq. }
  repeat split.
  - exact H1.
  - apply (fresh_image_ne w1 l im H2).
  - apply (fresh_image_ne w1 result im H3).
Qed.

Lemma padding_region_empty :
  region_empty blank im ox oy = (width im <=? 0) || (height im <=? 0).
Proof.
  unfold region_empty. subst blank ox oy. cbn.
  destruct (Z.ltb_spec 0 left), (Z.ltb_spec 0 top), (Z.ltb_spec (width im) right),
    (Z.ltb_spec (height im) bottom), (Z.leb_spec (width im) 0), (Z.leb_spec (height im) 0);
    cbn; rewrite ?orb_true_r;
    repeat match goal with
           | |- context [ ?a <=? ?b ] => destruct (Z.leb_spec a b)
           end; cbn; try reflexivity; lia.
Qed.

(** The corners of the paste fit a C [int] when the size of the buffer
    does. *)
Lemma padding_box_fits :
  fits_int (width blank) && fits_int (height blank) = true ->
  Image.box_fits im ox oy = true.
Proof.
  unfold Image.box_fits, fits_int, INT_MAX. subst blank ox oy. cbn [width height].
  rewrite !andb_true_iff, !Z.leb_le. intros H.
  destruct (Z.ltb_spec 0 left), (Z.ltb_spec 0 top), (Z.ltb_spec (width im) right),
    (Z.ltb_spec (height im) bottom); lia.
Qed.

(** The store an effective call leaves. *)
Lemma add_padding_effect :
  existsb truthy [Int left; Int top; Int right; Int bottom] = true ->
  add_padding self (Int left) (Int top) (Int right) (Int bottom) w =
    if refused w (width im) (height im) then (Raise MemoryError, w)
    else if negb (fits_int (width blank) && fits_int (height blank))
         then (Raise OverflowError, w1)
         else if refused w (width blank) (height blank) then (Raise MemoryError, w1)
    else if (width im <=? 0) || (height im <=? 0)
    then (Ok tt, with_wrapper (logged w2 (PasteCall background result true None))
                              self background)
    else match mode im with
         | RGB => (Raise (ValueError "bad transparency mask"),
                   logged w2 (PasteCall background result true
                                        (Some (ValueError "bad transparency mask"))))
         | _ => (Ok tt,
                 with_wrapper
                   (logged (with_image w2 background flattened)
                           (PasteCall background result true None))
                   self background)
         end.
Proof.
  intros Hany. rewrite (add_padding_run Hany).
  destruct (refused w (width im) (height im)); [reflexivity|].
  destruct (fits_int (width blank) && fits_int (height blank)) eqn:Hfit; [|reflexivity].
  cbn [negb].
  destruct (refused w (width blank) (height blank)); [reflexivity|].
  destruct padding_refs as (H1 & H2 & H3).
  assert (images w2 !! result = Some im) as Hr.
  { subst w2 w1. cbn. rewrite lookup_insert_ne by exact H3. apply lookup_insert_eq. }
  assert (images w2 !! background = Some blank) as Hb.
  { subst w2. cbn. apply lookup_insert_eq. }
  rewrite bind_run, (paste_masked_run _ _ _ _ _ _ _ Hr Hb (padding_box_fits Hfit)),
    padding_region_empty.
  destruct ((width im <=? 0) || (height im <=? 0)); [reflexivity|].
  destruct (mode im); reflexivity.
Qed.

End AddPadding.

Lemma all_zero_or_not (left top right bottom : Z) :
  (left = 0 /\ top = 0 /\ right = 0 /\ bottom = 0
   /\ existsb truthy [Int left; Int top; Int right; Int bottom] = false)
  \/ existsb truthy [Int left; Int top; Int right; Int bottom] = true.
Proof.
  cbn. destruct (Z.eqb_spec left 0), (Z.eqb_spec top 0), (Z.eqb_spec right 0),
    (Z.eqb_spec bottom 0); cbn; auto.
  left. auto.
Qed.

(** The canvas after an effective call: the old image when Pillow refused
    the copy or the new buffer, or when the paste raised; the new buffer
    otherwise. *)
Lemma add_padding_canvas (w : world) (self l : ref) (im : Image) (left top right bottom : Z) :
  wrappers w !! self = Some l -> images w !! l = Some im ->
  0 <= width im -> 0 <= height im ->
  existsb truthy [Int left; Int top; Int right; Int bottom] = true ->
  let ox := if 0 <? left then left else 0 in
  let oy := if 0 <? top then top else 0 in
  let blank := {| mode := RGBA;
                  width := width im + ox + (if width im <? right then right - width im else 0);
                  height := height im + oy + (if height im <? bottom then bottom - height im else 0);
                  pix := fun _ _ => white |} in
  let level := fun x y => default 0 (mask_level (mode im) (pix im x y)) in
  let outcome := add_padding self (Int left) (Int top) (Int right) (Int bottom) w in
  if refused w (width im) (height im)
  then outcome = (Raise MemoryError, w)
  else if negb (fits_int (width blank) && fits_int (height blank))
  then outcome.1 = Raise OverflowError /\ canvas_of outcome.2 self = Some im
  else if refused w (width blank) (height blank)
  then outcome.1 = Raise MemoryError /\ canvas_of outcome.2 self = Some im
  else if (width im <=? 0) || (height im <=? 0)
  then outcome.1 = Ok tt /\ canvas_of outcome.2 self = Some blank
  else match mode im with
       | RGB => outcome.1 = Raise (ValueError "bad transparency mask")
                /\ canvas_of outcome.2 self = Some im
       | _ => outcome.1 = Ok tt
              /\ canvas_of outcome.2 self
                 = Some {| mode := RGBA; width := width blank; height := height blank;
                           pix := pasted blank im ox oy (Some level) |}
       end.
Proof.
  intros Hs Hl Hw Hh Hany. cbv zeta.
  rewrite (add_padding_effect w self l im left top right bottom Hs Hl Hw Hh Hany).
  destruct (padding_refs w l im Hl) as (H1 & H2 & H3).
  assert (canvas_of (with_image w (fresh (dom (images w))) im) self = Some im) as Hkept.
  { unfold canvas_of; cbn. rewrite Hs. cbn. rewrite lookup_insert_ne by assumption. exact Hl. }
  destruct (refused w (width im) (height im)); [reflexivity|].
  match goal with
  | |- context [ fits_int ?a && fits_int ?b ] => destruct (fits_int a && fits_int b)
  end; cbn [negb]; [|split; [reflexivity | exact Hkept]].
  match goal with
  | |- context [ refused w ?a ?b ] => destruct (refused w a b)
  end; [split; [reflexivity | exact Hkept]|].
  destruct ((width im <=? 0) || (height im <=? 0)).
  - split; [reflexivity|]. unfold canvas_of. cbn.
    rewrite lookup_insert_eq. cbn. apply lookup_insert_eq.
  - destruct (mode im); (split; [reflexivity|]); unfold canvas_of; cbn.
    + rewrite lookup_insert_eq. cbn. apply lookup_insert_eq.
    + rewrite Hs. cbn. rewrite !lookup_insert_ne by assumption. exact Hl.
    + rewrite lookup_insert_eq. cbn. apply lookup_insert_eq.
Qed.

(** ** C9: [add_padding] never shrinks the canvas *)

(** C9. For all integer arguments, negative ones included, and whatever
    the outcome of the call, the canvas is afterwards at least as wide and
    at least as high as before. *)
Theorem add_padding_never_shrinks (w : world) (self l : ref) (im : Image)
        (left top right bottom : Z) :
  wrappers w !! self = Some l ->
  images w !! l = Some im ->
  0 <= width im -> 0 <= height im ->
  exists im',
    canvas_of (add_padding self (Int left) (Int top) (Int right) (Int bottom) w).2 self
      = Some im'
    /\ width im <= width im'
    /\ height im <= height im'.
Proof.
  intros Hs Hl Hw Hh.
  destruct (all_zero_or_not left top right bottom) as [(-> & -> & -> & -> & _) | Hany].
  - exists im. cbn. unfold canvas_of. rewrite Hs. cbn. rewrite Hl. auto with zarith.
  - pose proof (add_padding_canvas w self l im left top right bottom Hs Hl Hw Hh Hany) as H.
    cbv zeta in H.
    assert (canvas_of w self = Some im) as Hkept
        by (unfold canvas_of; rewrite Hs; cbn; exact Hl).
    destruct (refused w (width im) (height im));
      [rewrite H; exists im; cbn [snd]; auto with zarith|].
    match type of H with
    | context [ fits_int ?a && fits_int ?b ] => destruct (fits_int a && fits_int b)
    end; cbn [negb] in H; [|destruct H as [_ H]; exists im; auto with zarith].
    match type of H with
    | context [ refused w ?a ?b ] => destruct (refused w a b)
    end; [destruct H as [_ H]; exists im; auto with zarith|].
    destruct ((width im <=? 0) || (height im <=? 0)); [| destruct (mode im)];
      destruct H as [_ H]; eexists; (split; [exact H|]); cbn;
      destruct (Z.ltb_spec 0 left), (Z.ltb_spec 0 top), (Z.ltb_spec (width im) right),
        (Z.ltb_spec (height im) bottom); lia.
Qed.

(** The theorem at work: negative arguments on a 1 x 1 canvas. *)
Lemma add_padding_never_shrinks_witness :
  exists im',
    canvas_of (add_padding 1%positive (Int (-3)) (Int (-1)) (Int (-2)) (Int 5)
                 (Fixtures.store (Fixtures.gradient RGBA 1 1 0)
                                 (Fixtures.gradient RGBA 1 1 255))).2 1%positive
      = Some im'
    /\ 1 <= width im'
    /\ 1 <= height im'.
Proof.
  apply (add_padding_never_shrinks
           (Fixtures.store (Fixtures.gradient RGBA 1 1 0) (Fixtures.gradient RGBA 1 1 255))
           1%positive 1%positive (Fixtures.gradient RGBA 1 1 0) (-3) (-1) (-2) 5);
    first [reflexivity | cbn; lia].
Defined.

(** ** C4: when [add_padding] does nothing *)

(** C4, as the code has it. With all four arguments 0 the call is a no-op:
    the store, and with it the canvas, is left exactly as it was. With all
    four arguments at most 0 the canvas keeps its width and its height,
    whatever the outcome. But when they are not all 0 the call is no no-op:
    on a canvas that can serve as its own mask (any mode but [RGB]) and
    that Pillow can copy, it returns normally and the canvas is then a new
    [RGBA] image object of the same size, whose pixels are the old ones
    blended over opaque white through the canvas's own matte. *)
Theorem add_padding_zero_is_noop (w : world) (self l : ref) (im : Image)
        (left top right bottom : Z) :
  wrappers w !! self = Some l ->
  images w !! l = Some im ->
  0 <= width im -> 0 <= height im ->
  left <= 0 -> top <= 0 -> right <= 0 -> bottom <= 0 ->
  let outcome := add_padding self (Int left) (Int top) (Int right) (Int bottom) w in
  (left = 0 -> top = 0 -> right = 0 -> bottom = 0 -> outcome = (Ok tt, w))
  /\ (exists im',
        canvas_of outcome.2 self = Some im'
        /\ width im' = width im
        /\ height im' = height im)
  /\ (~ (left = 0 /\ top = 0 /\ right = 0 /\ bottom = 0) ->
      mode im <> RGB ->
      refused w (width im) (height im) = false -> height im <= INT_MAX ->
      outcome.1 = Ok tt
      /\ exists c' im',
          wrappers outcome.2 !! self = Some c' /\ images w !! c' = None
          /\ images outcome.2 !! c' = Some im'
          /\ mode im' = RGBA /\ width im' = width im /\ height im' = height im
          /\ forall x y,
              pix im' x y =
                if in_image im x y
                then let p := pix im x y in
                     blend_pixel RGBA (default 0 (mask_level (mode im) p)) white
                                 (convert_pixel RGBA (mode im) p)
                else white).
Proof.
  intros Hs Hl Hw Hh H1 H2 H3 H4. cbv zeta.
  assert (canvas_of w self = Some im) as Hkept
      by (unfold canvas_of; rewrite Hs; cbn; exact Hl).
  assert ((if 0 <? left then left else 0) = 0) as Eox
      by (destruct (Z.ltb_spec 0 left); lia).
  assert ((if 0 <? top then top else 0) = 0) as Eoy
      by (destruct (Z.ltb_spec 0 top); lia).
  assert ((if width im <? right then right - width im else 0) = 0) as Er
      by (destruct (Z.ltb_spec (width im) right); lia).
  assert ((if height im <? bottom then bottom - height im else 0) = 0) as Eb
      by (destruct (Z.ltb_spec (height im) bottom); lia).
  split; [intros -> -> -> ->; reflexivity|].
  destruct (all_zero_or_not left top right bottom) as [(-> & -> & -> & -> & _) | Hany].
  { split; [exists im; cbn [snd]; auto|]. intros Hnot. exfalso. apply Hnot. auto. }
  pose proof (add_padding_effect w self l im left top right bottom Hs Hl Hw Hh Hany) as Hrun.
  pose proof (add_padding_canvas w self l im left top right bottom Hs Hl Hw Hh Hany) as H.
  cbv zeta in H. rewrite Eox, Eoy, Er, Eb, !Z.add_0_r in H, Hrun.
  cbn [width height] in H, Hrun.
  split.
  - destruct (refused w (width im) (height im));
      [rewrite H; exists im; cbn [snd]; auto|].
    destruct (fits_int (width im) && fits_int (height im)); cbn [negb] in H;
      cbv iota in H; [|destruct H as [_ H]; exists im; auto].
    destruct ((width im <=? 0) || (height im <=? 0)); [| destruct (mode im)];
      destruct H as [_ H]; eexists; (split; [exact H|]); cbn; auto.
  - intros _ Hmode Hroom Hht. rewrite Hroom in Hrun.
    assert (fits_int (width im) && fits_int (height im) = true) as Hfit.
    { unfold refused in Hroom. apply orb_false_iff in Hroom as [Hroom _].
      apply Z.ltb_ge in Hroom. unfold max_width, INT_MAX in Hroom.
      unfold fits_int, INT_MAX in *. rewrite !andb_true_iff, !Z.leb_le.
      change (2147483647 `div` 4 - 1) with 536870910 in Hroom. lia. }
    rewrite Hfit in Hrun. cbn [negb] in Hrun.
    destruct (padding_refs w l im Hl) as (R1 & R2 & R3).
    assert (images w !! fresh (dom (images (with_image w (fresh (dom (images w))) im))) = None)
      as Hnew.
    { pose proof (fresh_image_None (with_image w (fresh (dom (images w))) im)) as N.
      cbn in N. rewrite lookup_insert_ne in N by auto. exact N. }
    assert (forall x y,
               pasted {| mode := RGBA; width := width im; height := height im;
                         pix := fun _ _ => white |} im 0 0
                 (Some (fun x y => default 0 (mask_level (mode im) (pix im x y)))) x y
               = if in_image im x y
                 then blend_pixel RGBA (default 0 (mask_level (mode im) (pix im x y))) white
                        (convert_pixel RGBA (mode im) (pix im x y))
                 else white) as Hpix.
    { intros x y. unfold pasted. rewrite !Z.sub_0_r.
      replace (in_image {| mode := RGBA; width := width im; height := height im;
                           pix := fun _ _ => white |} x y) with (in_image im x y)
        by reflexivity.
      rewrite andb_diag. reflexivity. }
    destruct ((width im <=? 0) || (height im <=? 0)) eqn:Hempty.
    + rewrite Hrun. cbn [fst snd]. split; [reflexivity|].
      eexists _, _. split; [cbn; apply lookup_insert_eq|]. split; [exact Hnew|].
      split; [cbn; apply lookup_insert_eq|]. cbn. repeat split.
      intros x y. replace (in_image im x y) with false; [reflexivity|].
      unfold in_image. apply orb_true_iff in Hempty.
      destruct (Z.ltb_spec x (width im)), (Z.ltb_spec y (height im)),
        (Z.leb_spec 0 x), (Z.leb_spec 0 y); cbn; try reflexivity;
        destruct Hempty as [E|E]; apply Z.leb_le in E; lia.
    + destruct (mode im) eqn:Em; try congruence;
        rewrite Hrun; cbn [fst snd]; (split; [reflexivity|]);
        eexists _, _; (split; [cbn; apply lookup_insert_eq|]); (split; [exact Hnew|]);
        (split; [cbn; apply lookup_insert_eq|]); cbn; repeat split; exact Hpix.
Qed.

(** The theorem at work: a padding of [(-1, 0, 0, 0)] on the fixture. *)
Lemma add_padding_zero_is_noop_witness :
  let im := Fixtures.gradient RGBA 1 1 0 in
  let w := Fixtures.store im (Fixtures.gradient RGBA 1 1 255) in
  let outcome := add_padding 1%positive (Int (-1)) (Int 0) (Int 0) (Int 0) w in
  (-1 = 0 -> 0 = 0 -> 0 = 0 -> 0 = 0 -> outcome = (Ok tt, w))
  /\ (exists im',
        canvas_of outcome.2 1%positive = Some im'
        /\ width im' = width im
        /\ height im' = height im)
  /\ (~ (-1 = 0 /\ 0 = 0 /\ 0 = 0 /\ 0 = 0) ->
      mode im <> RGB ->
      refused w (width im) (height im) = false -> height im <= INT_MAX ->
      outcome.1 = Ok tt
      /\ exists c' im',
          wrappers outcome.2 !! 1%positive = Some c' /\ images w !! c' = None
          /\ images outcome.2 !! c' = Some im'
          /\ mode im' = RGBA /\ width im' = width im /\ height im' = height im
          /\ forall x y,
              pix im' x y =
                if in_image im x y
                then let p := pix im x y in
                     blend_pixel RGBA (default 0 (mask_level (mode im) p)) white
                                 (convert_pixel RGBA (mode im) p)
                else white).
Proof.
  intros im w.
  refine (add_padding_zero_is_noop w 1%positive 1%positive im (-1) 0 0 0 _ _ _ _ _ _ _ _);
    first [reflexivity | cbn; lia].
Defined.

(** C4, as stated, fails: on a 1 x 1 canvas whose pixel is transparent,
    [add_padding(-1, 0, 0, 0)] (all four arguments at most 0) returns
    normally and leaves the pixel opaque white. *)
Lemma add_padding_negative_not_noop :
  let w := Fixtures.store (Fixtures.gradient RGBA 1 1 0) (Fixtures.gradient RGBA 1 1 255) in
  let outcome := add_padding 1%positive (Int (-1)) (Int 0) (Int 0) (Int 0) w in
  outcome.1 = Ok tt
  /\ Fixtures.observe w 1%positive 0 0 = Some (RGBA, 1, 1, Px 0 0 0 0)
  /\ Fixtures.observe outcome.2 1%positive 0 0 = Some (RGBA, 1, 1, Px 255 255 255 255).
Proof. vm_compute. repeat split. Qed.

(** ** C2: the size and the content after [add_padding] *)

(** C2, as the code has it. On a canvas that can serve as its own mask
    (any mode but [RGB]), a call that is not skipped asks Pillow for a copy
    of the canvas and for a new [RGBA] buffer whose width is the old width
    plus [left] if [left > 0] plus [right - old width] if
    [right > old width], and likewise for the height. When Pillow refuses
    (no memory for the copy or for the buffer, or a size that does not fit
    a C [int]) the call raises [MemoryError] or [OverflowError] and the
    canvas is as it was. Otherwise the call returns normally and the canvas
    is that buffer. Every pixel of it is the old pixel at the offset
    [(left if left > 0 else 0, top if top > 0 else 0)] blended over opaque
    white through the canvas's own matte, and opaque white outside the old
    content. Where the old [RGBA] pixel is opaque it appears unchanged at
    the offset. In particular, for positive [left], [top] with
    [right <= old width] and [bottom <= old height] the size is
    [(old width + left, old height + top)]. *)
Theorem add_padding_size_and_content (w : world) (self l : ref) (im : Image)
        (left top right bottom : Z) :
  wrappers w !! self = Some l ->
  images w !! l = Some im ->
  0 <= width im -> 0 <= height im ->
  mode im <> RGB ->
  existsb truthy [Int left; Int top; Int right; Int bottom] = true ->
  let ox := if 0 <? left then left else 0 in
  let oy := if 0 <? top then top else 0 in
  let new_width := width im + ox + (if width im <? right then right - width im else 0) in
  let new_height := height im + oy + (if height im <? bottom then bottom - height im else 0) in
  let outcome := add_padding self (Int left) (Int top) (Int right) (Int bottom) w in
  if refused w (width im) (height im)
  then outcome = (Raise MemoryError, w)
  else if negb (fits_int new_width && fits_int new_height)
  then outcome.1 = Raise OverflowError /\ canvas_of outcome.2 self = Some im
  else if refused w new_width new_height
  then outcome.1 = Raise MemoryError /\ canvas_of outcome.2 self = Some im
  else
    exists im',
      outcome.1 = Ok tt
      /\ canvas_of outcome.2 self = Some im'
      /\ mode im' = RGBA
      /\ width im' = new_width
      /\ height im' = new_height
      /\ (forall x y, in_image im' x y = true ->
            pix im' x y =
              if in_image im (x - ox) (y - oy)
              then let p := pix im (x - ox) (y - oy) in
                   blend_pixel RGBA (default 0 (mask_level (mode im) p)) white
                               (convert_pixel RGBA (mode im) p)
              else white)
      /\ (forall x y, in_image im x y = true -> mode im = RGBA -> opaque (pix im x y) ->
            pix im' (x + ox) (y + oy) = pix im x y)
      /\ (0 < left -> 0 < top -> right <= width im -> bottom <= height im ->
            width im' = width im + left /\ height im' = height im + top).
Proof.
  intros Hs Hl Hw Hh Hmode Hany ox oy new_width new_height.
  pose proof (add_padding_canvas w self l im left top right bottom Hs Hl Hw Hh Hany) as H.
  cbv zeta in H. cbn [width height] in H.
  fold ox oy in H. fold new_width new_height in H. cbv zeta.
  destruct (refused w (width im) (height im)); [exact H|].
  destruct (fits_int new_width && fits_int new_height); cbn [negb] in *; [|exact H].
  destruct (refused w new_width new_height); [exact H|].
  destruct (add_padding self (Int left) (Int top) (Int right) (Int bottom) w) as [r w'].
  cbn [fst snd] in *.
  set (blank := {| mode := RGBA; width := new_width; height := new_height;
                   pix := fun _ _ => white |}) in *.
  assert (0 <= ox /\ 0 <= oy) as [Hox Hoy].
  { subst ox oy. destruct (Z.ltb_spec 0 left), (Z.ltb_spec 0 top); lia. }
  assert (width im <= new_width - ox /\ height im <= new_height - oy) as [HW HH].
  { subst new_width new_height.
    destruct (Z.ltb_spec (width im) right), (Z.ltb_spec (height im) bottom); lia. }
  assert (exists im', r = Ok tt /\ canvas_of w' self = Some im'
            /\ mode im' = RGBA /\ width im' = new_width /\ height im' = new_height
            /\ forall x y, pix im' x y = pasted blank im ox oy
                 (Some (fun x y => default 0 (mask_level (mode im) (pix im x y)))) x y)
    as (im' & -> & Hc & Hm & Hwd & Hht & Hpix).
  { destruct ((width im <=? 0) || (height im <=? 0)) eqn:Hempty.
    - destruct H as [-> H]. exists blank. repeat split; try assumption.
      intros x y. unfold pasted.
      replace (in_image im (x - ox) (y - oy)) with false; [rewrite andb_false_r; reflexivity|].
      unfold in_image. apply orb_true_iff in Hempty.
      destruct (Z.ltb_spec (x - ox) (width im)), (Z.ltb_spec (y - oy) (height im)),
        (Z.leb_spec 0 (x - ox)), (Z.leb_spec 0 (y - oy)); cbn; try reflexivity;
        destruct Hempty as [E|E]; apply Z.leb_le in E; lia.
    - destruct (mode im) eqn:Em; try congruence;
        destruct H as [-> H]; eexists; repeat split; try exact H; reflexivity. }
  exists im'. repeat split; try assumption.
  - intros x y Hin. rewrite Hpix. unfold pasted.
    replace (in_image blank x y) with true
      by (unfold in_image in *; cbn; rewrite <- Hwd, <- Hht; symmetry; exact Hin).
    cbn [andb mode blank]. reflexivity.
  - intros x y Hin ERGBA (Ha & Hr & Hgr & Hb). rewrite Hpix. unfold pasted.
    replace (x + ox - ox) with x by lia. replace (y + oy - oy) with y by lia.
    rewrite Hin.
    replace (in_image blank (x + ox) (y + oy)) with true.
    + cbn [andb mode blank pix]. rewrite ERGBA. cbn [convert_pixel mask_level default].
      unfold blend_pixel. rewrite Ha, !blend_full by lia.
      rewrite <- Ha. destruct (pix im x y); reflexivity.
    + symmetry. unfold in_image in *. cbn.
      apply andb_true_iff in Hin as [Hin Hy]. apply andb_true_iff in Hin as [Hin Hy0].
      apply andb_true_iff in Hin as [Hx0 Hx].
      apply Z.leb_le in Hx0, Hy0. apply Z.ltb_lt in Hx, Hy.
      repeat (apply andb_true_iff; split);
        first [apply Z.leb_le | apply Z.ltb_lt]; lia.
  - rewrite Hwd. subst new_width ox.
    destruct (Z.ltb_spec 0 left), (Z.ltb_spec (width im) right); lia.
  - rewrite Hht. subst new_height oy.
    destruct (Z.ltb_spec 0 top), (Z.ltb_spec (height im) bottom); lia.
Qed.

(** The theorem at work: a padding of [(1, 1, 0, 0)] on a 1 x 1 canvas. *)
Lemma add_padding_size_and_content_witness :
  let im := Fixtures.gradient RGBA 1 1 0 in
  let w := Fixtures.store im (Fixtures.gradient RGBA 1 1 255) in
  let outcome := add_padding 1%positive (Int 1) (Int 1) (Int 0) (Int 0) w in
  exists im',
    outcome.1 = Ok tt
    /\ canvas_of outcome.2 1%positive = Some im'
    /\ width im' = 2 /\ height im' = 2.
Proof.
  intros im w.
  pose proof (add_padding_size_and_content w 1%positive 1%positive im 1 1 0 0) as H.
  destruct H as (im' & H1 & H2 & _ & H3 & H4 & _);
    [reflexivity | reflexivity | cbn; lia | cbn; lia | discriminate | reflexivity |].
  exists im'. repeat split; assumption.
Defined.

(** C2, as stated, fails: on a 1 x 1 [RGBA] canvas whose pixel is the
    transparent [(0, 0, 0, 0)], [add_padding(1, 1, 0, 0)] gives the 2 x 2
    canvas the claim announces, but the pixel at the offset [(1, 1)] is
    opaque white, not the original pixel. *)
Lemma add_padding_changes_content :
  let w := Fixtures.store (Fixtures.gradient RGBA 1 1 0) (Fixtures.gradient RGBA 1 1 255) in
  let outcome := add_padding 1%positive (Int 1) (Int 1) (Int 0) (Int 0) w in
  outcome.1 = Ok tt
  /\ Fixtures.observe w 1%positive 0 0 = Some (RGBA, 1, 1, Px 0 0 0 0)
  /\ Fixtures.observe outcome.2 1%positive 1 1 = Some (RGBA, 2, 2, Px 255 255 255 255).
Proof. vm_compute. repeat split. Qed.

(** ** Rules for [holds] *)

Section Rules.

Variables (I : world -> Prop) (E : exn -> Prop).

Lemma holds_ret {A} (a : A) (Q : A -> Prop) : Q a -> holds I E (mret a) Q.
Proof. intros H w Hw. cbn. auto. Qed.

Lemma holds_raise {A} (e : exn) (Q : A -> Prop) : E e -> holds I E (raise e) Q.
Proof. intros H w Hw. cbn. auto. Qed.

Lemma holds_lift {A} (r : result A) (Q : A -> Prop) : yields E r Q -> holds I E (lift r) Q.
Proof. intros H w Hw. unfold lift. destruct r; cbn in *; auto. Qed.

Lemma holds_bind {A C} (m : M A) (k : A -> M C) (Q : A -> Prop) (R : C -> Prop) :
  holds I E m Q -> (forall a, Q a -> holds I E (k a) R) -> holds I E (m ≫= k) R.
Proof.
  intros Hm Hk w Hw. rewrite bind_run. specialize (Hm w Hw).
  destruct (m w) as [[a|e] w']; [|exact Hm].
  destruct Hm as [Hw' Ha]. exact (Hk a Ha w' Hw').
Qed.

Lemma holds_weaken {A} (m : M A) (Q Q' : A -> Prop) :
  holds I E m Q -> (forall a, Q a -> Q' a) -> holds I E m Q'.
Proof.
  intros Hm HQ w Hw. specialize (Hm w Hw).
  destruct (m w) as [[a|e] w']; [|exact Hm]. destruct Hm; auto.
Qed.

Lemma yields_bind {A C} (r : result A) (k : A -> result C) (Q : A -> Prop) (R : C -> Prop) :
  yields E r Q -> (forall a, Q a -> yields E (k a) R) -> yields E (r ≫= k) R.
Proof. destruct r; cbn; auto. Qed.

Lemma holds_exn_weaken {A} (E' : exn -> Prop) (m : M A) (Q : A -> Prop) :
  holds I E m Q -> (forall e, E e -> E' e) -> holds I E' m Q.
Proof.
  intros Hm HE w Hw. specialize (Hm w Hw).
  destruct (m w) as [[a|e] w']; [exact Hm|]. destruct Hm; auto.
Qed.

Lemma yields_weaken {A} (r : result A) (Q Q' : A -> Prop) :
  yields E r Q -> (forall a, Q a -> Q' a) -> yields E r Q'.
Proof. destruct r; cbn; auto. Qed.

End Rules.

(** ** What the methods may write *)

Section Footprint.

Context (B : Backend).
Variables (I : world -> Prop) (E : exn -> Prop) (self : ref).
Variables (NewI NewW Allowed : ref -> Prop).

Hypothesis HE : forall e, e <> bbox_error -> E e.
Hypothesis HNew : forall l, NewI l -> Allowed l.
Hypothesis I_alloc : forall w im,
    I w -> I (with_image w (fresh (dom (images w))) im) /\ NewI (fresh (dom (images w))).
Hypothesis I_write : forall w l im im',
    I w -> Allowed l -> images w !! l = Some im ->
    mode im' = mode im -> width im' = width im -> height im' = height im ->
    I (with_image w l im').
Hypothesis I_init : forall w l,
    I w -> I (with_wrapper w (fresh (dom (wrappers w))) l) /\ NewW (fresh (dom (wrappers w))).
Hypothesis I_set_new : forall w p l, I w -> NewW p -> I (with_wrapper w p l).
Hypothesis I_set_self : forall w l, I w -> NewI l -> I (with_wrapper w self l).
Hypothesis I_logged : forall w c, I w -> I (logged w c).
Hypothesis I_canvas : forall w c, I w -> wrappers w !! self = Some c -> Allowed c.


Ltac other := apply HE; discriminate.

Lemma float_of_int_yields z : yields E (float_of_int z) (fun _ => True).
Proof. unfold float_of_int. case_match; cbn; auto; other. Qed.

Lemma as_float_yields a : yields E (as_float a) (fun _ => True).
Proof. destruct a; cbn; auto using float_of_int_yields. Qed.

Lemma arith_yields iop fop a b : yields E (arith iop fop a b) (fun _ => True).
Proof.
  destruct a as [x|f], b as [y|g]; cbn; auto;
    repeat match goal with
           | |- context [ float_of_int ?z ] =>
               let H := fresh in
               pose proof (float_of_int_yields z) as H; destruct (float_of_int z); cbn in *; auto
           end.
Qed.

Lemma int_of_float_yields f : yields E (int_of_float f) (fun _ => True).
Proof. destruct f; cbn; auto; other. Qed.

Lemma to_int_yields a : yields E (to_int a) (fun _ => True).
Proof. destruct a; cbn; auto using int_of_float_yields. Qed.

Lemma scaled_yields a b : yields E (p ← mul a b; to_int p) (fun _ => True).
Proof.
  eapply yields_bind; [apply arith_yields|]. intros p _. apply to_int_yields.
Qed.

Lemma int_true_div_yields a b : yields E (int_true_div a b) (fun _ => True).
Proof.
  unfold int_true_div. repeat case_match; cbn; auto; other.
Qed.

Lemma truediv_yields a b : yields E (truediv a b) (fun _ => True).
Proof.
  unfold truediv.
  assert (yields E (f ← as_float a; g ← as_float b;
                  match g with
                  | S754_zero _ => Raise ZeroDivisionError
                  | _ => Ok (fdiv f g)
                  end) (fun _ => True)) as H.
  { eapply yields_bind; [apply as_float_yields|]. intros f _.
    eapply yields_bind; [apply as_float_yields|]. intros g _.
    destruct g; cbn; auto; other. }
  destruct a, b; auto using int_true_div_yields.
Qed.

Lemma floordiv_yields a b : yields E (floordiv B a b) (fun _ => True).
Proof.
  unfold floordiv.
  assert (yields E (f ← as_float a; g ← as_float b;
                  match g with
                  | S754_zero _ => Raise ZeroDivisionError
                  | _ => Ok (Float (float_floordiv B f g))
                  end) (fun _ => True)) as H.
  { eapply yields_bind; [apply as_float_yields|]. intros f _.
    eapply yields_bind; [apply as_float_yields|]. intros g _.
    destruct g; cbn; auto; other. }
  destruct a, b; auto. destruct (z0 =? 0); cbn; auto; other.
Qed.

Lemma keep_ratio_size_yields size width height :
  yields E (keep_ratio_size size width height) (fun _ => True).
Proof.
  unfold keep_ratio_size.
  eapply yields_bind; [apply truediv_yields|]. intros wq _.
  eapply yields_bind; [apply truediv_yields|]. intros hq _.
  destruct (SFltb wq hq);
    (eapply yields_bind; [apply scaled_yields|]; intros nw _;
     eapply yields_bind; [apply scaled_yields|]; intros nh _; exact Logic.I).
Qed.

Lemma get_image_holds l : holds I E (get_image l) (fun _ => True).
Proof.
  intros w Hw. unfold get_image. destruct (images w !! l); cbn; auto.
Qed.

Lemma alloc_image_holds im : holds I E (alloc_image im) NewI.
Proof. intros w Hw. unfold alloc_image. apply I_alloc, Hw. Qed.

Lemma allocate_holds im : holds I E (allocate im) NewI.
Proof.
  intros w Hw. unfold allocate. destruct (refused w (width im) (height im)).
  - split; [exact Hw | other].
  - apply alloc_image_holds, Hw.
Qed.

Lemma Image_new_holds m size c : holds I E (Image.new m size c) NewI.
Proof.
  unfold Image.new. case_match; [apply holds_raise; other|].
  destruct size as [[w|f] [h|g]]; try (apply holds_raise; other).
  case_match; [apply holds_raise; other | apply allocate_holds].
Qed.

Lemma Image_copy_holds l : holds I E (Image.copy l) NewI.
Proof.
  unfold Image.copy. eapply holds_bind; [apply get_image_holds|].
  intros im _. apply allocate_holds.
Qed.

Lemma Image_resize_holds l size : holds I E (Image_resize B l size) NewI.
Proof.
  unfold Image_resize. eapply holds_bind; [apply get_image_holds|]. intros im _.
  case_match; [apply Image_copy_holds|].
  destruct size as [[w|f] [h|g]]; try (apply holds_raise; other).
  case_match; [apply holds_raise; other|].
  case_match; [apply holds_raise; other | apply allocate_holds].
Qed.

Lemma Image_paste_holds dst src box mask :
  Allowed dst -> holds I E (Image.paste dst src box mask) (fun _ => True).
Proof.
  intros Hd w Hw. unfold Image.paste.
  rewrite bind_run. unfold get_image at 1.
  destruct (images w !! src) as [s|] eqn:Es; [|cbn; split; [auto | other]].
  rewrite bind_run. unfold get_image at 1.
  destruct (images w !! dst) as [d|] eqn:Ed; [|cbn; split; [auto | other]].
  rewrite bind_run.
  assert (forall mk, let out := (match box with
                                 | (Int ox, Int oy) =>
                                     if negb (Image.box_fits s ox oy) then raise OverflowError
                                     else Image.paste_core dst d s ox oy mk
                                 | _ => raise TypeError
                                 end) w in
                     (out.2 = w \/ exists im', out.2 = with_image w dst im'
                        /\ mode im' = mode d /\ width im' = width d /\ height im' = height d)
                     /\ forall e, out.1 = Raise e -> e <> bbox_error) as Hcore.
  { intros mk. cbv zeta. destruct box as [[ox|f] [oy|g]]; cbn;
      try (split; [left; reflexivity | intros e [= <-]; discriminate]).
    unfold Image.paste_core.
    repeat case_match; cbn;
      (split; [first [left; reflexivity | right; eexists; repeat split]
              | intros e [= <-]; discriminate || intros e [=]]). }
  assert (forall out : result unit * world,
             (out.2 = w \/ exists im', out.2 = with_image w dst im'
                 /\ mode im' = mode d /\ width im' = width d /\ height im' = height d) ->
             I out.2) as HI.
  { intros out [-> | (im' & -> & H1 & H2 & H3)]; [exact Hw|].
    eapply I_write; eauto. }
  destruct mask as [m|].
  - rewrite bind_run. unfold get_image at 1.
    destruct (images w !! m) as [mk|] eqn:Em; [|cbn; split; [auto | other]].
    rewrite ret_run. specialize (Hcore (Some mk)). cbv zeta in Hcore.
    destruct Hcore as [H1 H2]. apply HI in H1.
    match type of H1 with I (?t).2 => destruct t as [[[]|e] w'] end;
      cbn in *; split; auto.
  - rewrite ret_run. specialize (Hcore None). cbv zeta in Hcore.
    destruct Hcore as [H1 H2]. apply HI in H1.
    match type of H1 with I (?t).2 => destruct t as [[[]|e] w'] end;
      cbn in *; split; auto.
Qed.

Lemma item_holds seq i : holds I E (item seq i) (fun _ => True).
Proof. unfold item. case_match; [apply holds_ret | apply holds_raise; other]; auto. Qed.

Lemma init_holds l : holds I E (init l) NewW.
Proof. intros w Hw. unfold init. apply I_init, Hw. Qed.

Lemma image_holds p : holds I E (image p) (fun c => p = self -> Allowed c).
Proof.
  intros w Hw. unfold image. destruct (wrappers w !! p) eqn:Ep; cbn.
  - split; [exact Hw|]. intros ->. eapply I_canvas; eauto.
  - split; [exact Hw | other].
Qed.

Lemma set_wrapped_new_holds p l : NewW p -> holds I E (set_wrapped p l) (fun _ => True).
Proof. intros Hp w Hw. unfold set_wrapped. split; auto. Qed.

Lemma set_wrapped_self_holds l : NewI l -> holds I E (set_wrapped self l) (fun _ => True).
Proof. intros Hl w Hw. unfold set_wrapped. split; auto. Qed.

Lemma attr_width_holds p : holds I E (attr_width p) (fun _ => True).
Proof.
  unfold attr_width. eapply holds_bind; [apply image_holds|]. intros l _.
  eapply holds_bind; [apply get_image_holds|]. intros im _. apply holds_ret; auto.
Qed.

Lemma attr_height_holds p : holds I E (attr_height p) (fun _ => True).
Proof.
  unfold attr_height. eapply holds_bind; [apply image_holds|]. intros l _.
  eapply holds_bind; [apply get_image_holds|]. intros im _. apply holds_ret; auto.
Qed.

Lemma centred_yields (op : num -> num -> result num) a i c :
  (forall x y, yields E (op x y) (fun _ => True)) ->
  yields E (d ← op a (Int i); q ← floordiv B d (Int 2); add c q) (fun _ => True).
Proof.
  intros Hop. eapply yields_bind; [apply Hop|]. intros d _.
  eapply yields_bind; [apply floordiv_yields|]. intros q _. apply arith_yields.
Qed.

Lemma center_image_holds p bbox : holds I E (_center_image B p bbox) (fun _ => True).
Proof.
  unfold _center_image.
  eapply holds_bind; [apply item_holds|]. intros b2 _.
  eapply holds_bind; [apply item_holds|]. intros b0 _.
  eapply holds_bind; [apply holds_lift, arith_yields|]. intros wb _.
  eapply holds_bind; [apply item_holds|]. intros b3 _.
  eapply holds_bind; [apply item_holds|]. intros b1 _.
  eapply holds_bind; [apply holds_lift, arith_yields|]. intros hb _.
  eapply holds_bind; [apply attr_width_holds|]. intros wi _.
  eapply holds_bind; [apply attr_height_holds|]. intros hi _.
  do 4 (eapply holds_bind;
        [apply holds_lift, centred_yields; intros; apply arith_yields|]; intros ? _).
  apply holds_ret; auto.
Qed.

Lemma add_padding_holds left top right bottom :
  holds I E (add_padding self left top right bottom) (fun _ => True).
Proof.
  unfold add_padding. case_match; [apply holds_ret; auto|].
  eapply holds_bind; [apply image_holds|]. intros l _.
  eapply holds_bind; [apply Image_copy_holds|]. intros result _.
  eapply holds_bind; [apply get_image_holds|]. intros r _.
  eapply holds_bind with (Q := fun _ => True).
  { case_match; [|apply holds_ret; auto].
    eapply holds_bind; [apply holds_lift, arith_yields|]. intros; apply holds_ret; auto. }
  intros [new_size paste_coords] _.
  eapply holds_bind with (Q := fun _ => True).
  { case_match; [|apply holds_ret; auto].
    eapply holds_bind; [apply holds_lift, arith_yields|]. intros; apply holds_ret; auto. }
  intros [new_size1 paste_coords1] _.
  eapply holds_bind with (Q := fun _ => True).
  { case_match; [|apply holds_ret; auto].
    eapply holds_bind; [apply holds_lift, arith_yields|]. intros d _.
    eapply holds_bind; [apply holds_lift, arith_yields|]. intros; apply holds_ret; auto. }
  intros new_size2 _.
  eapply holds_bind with (Q := fun _ => True).
  { case_match; [|apply holds_ret; auto].
    eapply holds_bind; [apply holds_lift, arith_yields|]. intros d _.
    eapply holds_bind; [apply holds_lift, arith_yields|]. intros; apply holds_ret; auto. }
  intros new_size3 _.
  eapply holds_bind; [apply Image_new_holds|]. intros background Hbg.
  eapply holds_bind; [apply Image_paste_holds, HNew, Hbg|]. intros _ _.
  apply set_wrapped_self_holds, Hbg.
Qed.

Lemma resize_holds p size keep :
  NewW p -> holds I E (resize B p size keep) (fun _ => True).
Proof.
  intros Hp. unfold resize. destruct keep.
  - eapply holds_bind; [apply attr_width_holds|]. intros wd _.
    eapply holds_bind; [apply attr_height_holds|]. intros ht _.
    eapply holds_bind; [apply holds_lift, keep_ratio_size_yields|]. intros [nw nh] _.
    eapply holds_bind; [apply image_holds|]. intros l _.
    eapply holds_bind; [apply Image_resize_holds|]. intros l' _.
    eapply holds_bind; [apply set_wrapped_new_holds, Hp|]. intros _ _.
    apply holds_ret; auto.
  - eapply holds_bind; [apply image_holds|]. intros l _.
    eapply holds_bind; [apply Image_resize_holds|]. intros l' _.
    eapply holds_bind; [apply set_wrapped_new_holds, Hp|]. intros _ _.
    apply holds_ret; auto.
Qed.

Lemma try_except_holds {A} (m h : M A) (Q : A -> Prop) :
  holds I (fun _ => True) m Q -> holds I E h Q ->
  holds I E (try_except_ValueError m h) Q.
Proof.
  intros Hm Hh w Hw. unfold try_except_ValueError. specialize (Hm w Hw).
  destruct (m w) as [[a|e] w']; [exact Hm|].
  destruct Hm as [Hw' _]. destruct (is_ValueError e) eqn:Ee.
  - apply Hh, Hw'.
  - split; [exact Hw'|]. apply HE. intros ->. discriminate.
Qed.

Lemma paste_content_holds canvas im xy :
  Allowed canvas -> holds I E (paste_content canvas im xy) (fun _ => True).
Proof.
  intros Hc. unfold paste_content. apply try_except_holds.
  - eapply holds_exn_weaken; [apply Image_paste_holds, Hc | auto].
  - apply Image_paste_holds, Hc.
Qed.

Lemma draw_image_place_holds img b0 b1 b2 b3 :
  holds I E (draw_image_place B self img b0 b1 b2 b3) (fun _ => True).
Proof.
  unfold draw_image_place.
  eapply holds_bind with (Q := fun _ => True).
  { destruct img; [apply holds_ret; auto|].
    eapply holds_weaken; [apply image_holds | auto]. }
  intros im _.
  eapply holds_bind; [apply holds_lift, arith_yields|]. intros w _.
  eapply holds_bind; [apply holds_lift, arith_yields|]. intros h _.
  eapply holds_bind; [apply init_holds|]. intros tmp Htmp.
  eapply holds_bind; [apply resize_holds, Htmp|]. intros tmp' _.
  eapply holds_bind; [apply image_holds|]. intros im' _.
  eapply holds_bind; [apply init_holds|]. intros tmp2 _.
  eapply holds_bind; [apply center_image_holds|]. intros [[[x y] ?] ?] _.
  eapply holds_bind; [apply image_holds|]. intros canvas Hc.
  apply paste_content_holds, Hc. reflexivity.
Qed.

Lemma draw_image_pixels_holds img width height bbox :
  holds I E (draw_image_pixels B self img width height bbox) (fun _ => True).
Proof.
  unfold draw_image_pixels.
  do 4 (eapply holds_bind; [apply item_holds|]; intros ? _).
  eapply holds_bind with (Q := fun _ => True).
  { case_match; [apply add_padding_holds | apply holds_ret; auto]. }
  intros _ _. apply draw_image_place_holds.
Qed.

Lemma draw_image_holds img bbox :
  length bbox = 4%nat \/ E bbox_error ->
  holds I E (draw_image B self img bbox) (fun _ => True).
Proof.
  intros Hlen. unfold draw_image.
  destruct (length bbox =? 4)%nat eqn:El; cbn [negb].
  2:{ apply holds_raise. destruct Hlen as [Hlen|]; [|assumption].
      apply Nat.eqb_neq in El. contradiction. }
  eapply holds_bind; [apply attr_width_holds|]. intros width _.
  eapply holds_bind; [apply attr_height_holds|]. intros height _.
  eapply holds_bind; [apply item_holds|]. intros b0 _.
  eapply holds_bind with (Q := fun _ => True).
  { case_match; [|apply holds_ret; auto].
    eapply holds_bind; [apply holds_lift, scaled_yields|]. intros x0 _.
    eapply holds_bind; [apply item_holds|]. intros b1 _.
    eapply holds_bind; [apply holds_lift, scaled_yields|]. intros x1 _.
    eapply holds_bind; [apply item_holds|]. intros b2 _.
    eapply holds_bind; [apply holds_lift, scaled_yields|]. intros x2 _.
    eapply holds_bind; [apply item_holds|]. intros b3 _.
    eapply holds_bind; [apply holds_lift, scaled_yields|]. intros x3 _.
    apply holds_ret; auto. }
  intros bbox' _. apply draw_image_pixels_holds.
Qed.

Lemma retouch_holds {A} l (f : Z -> Z -> pixel) (k : M A) (Q : A -> Prop) :
  Allowed l -> holds I E k Q ->
  holds I E (tb ← get_image l;
         _ ← set_image l {| mode := mode tb; width := width tb; height := height tb;
                            pix := f |};
         k) Q.
Proof.
  intros Hl Hk w Hw. rewrite bind_run. unfold get_image.
  destruct (images w !! l) as [tb|] eqn:El.
  - rewrite bind_run. unfold set_image. apply Hk. eapply I_write; eauto.
  - split; [exact Hw | other].
Qed.

Lemma draw_text_holds text bbox :
  length bbox = 4%nat \/ E bbox_error ->
  holds I E (draw_text B self text bbox) (fun _ => True).
Proof.
  intros Hlen. unfold draw_text.
  destruct (length bbox =? 4)%nat eqn:El; cbn [negb].
  2:{ apply holds_raise. destruct Hlen as [Hlen|]; [|assumption].
      apply Nat.eqb_neq in El. contradiction. }
  eapply holds_bind with (Q := fun _ => True).
  { case_match; [apply holds_ret; auto | apply holds_raise; other]. }
  intros _ _.
  eapply holds_bind; [apply Image_new_holds|]. intros dummy _.
  eapply holds_bind; [apply Image_new_holds|]. intros tb Htb.
  apply retouch_holds; [apply HNew, Htb|].
  apply draw_image_holds. left. apply Nat.eqb_eq, El.
Qed.

End Footprint.

(** ** C10: the content is not mutated *)

Section Untouched.

Variables (w0 : world) (c0 self : ref).
Hypothesis Hself : wrappers w0 !! self = Some c0.

Let I := untouched w0 c0 self.
Let NewI (l : ref) := images w0 !! l = None.
Let NewW (p : ref) := wrappers w0 !! p = None.
Let Allowed (l : ref) := l = c0 \/ images w0 !! l = None.

Lemma untouched_start : I w0.
Proof. repeat split; auto. exists c0. auto. Qed.

Lemma fresh_is_new_image w : I w -> NewI (fresh (dom (images w))).
Proof.
  intros (_ & Hdom & _). unfold NewI.
  destruct (images w0 !! fresh (dom (images w))) eqn:El; [|reflexivity].
  destruct (Hdom _ (mk_is_Some _ _ El)) as [x Hx].
  rewrite fresh_image_None in Hx. discriminate.
Qed.

Lemma fresh_is_new_wrapper w : I w -> NewW (fresh (dom (wrappers w))).
Proof.
  intros (_ & _ & _ & Hdom & _). unfold NewW.
  destruct (wrappers w0 !! fresh (dom (wrappers w))) eqn:El; [|reflexivity].
  destruct (Hdom _ (mk_is_Some _ _ El)) as [x Hx].
  assert (wrappers w !! fresh (dom (wrappers w)) = None) as N
      by apply not_elem_of_dom, is_fresh.
  congruence.
Qed.

Lemma untouched_write w l im : I w -> Allowed l -> I (with_image w l im).
Proof.
  intros (H1 & H2 & H3 & H4 & H5) Hl. repeat split; cbn; auto.
  - intros l' x Hx Hne. rewrite lookup_insert_ne; [auto|].
    intros ->. destruct Hl as [->|Hl]; congruence.
  - intros l' Hs. destruct (decide (l = l')) as [->|Hne].
    + rewrite lookup_insert_eq. eauto.
    + rewrite lookup_insert_ne by exact Hne. auto.
Qed.

Lemma untouched_set_new w p l : I w -> NewW p -> I (with_wrapper w p l).
Proof.
  intros (H1 & H2 & H3 & H4 & c & H5 & H6) Hp.
  assert (p <> self) as Hps by (intros ->; unfold NewW in Hp; congruence).
  repeat split; cbn; auto.
  - intros p' x Hx Hne. rewrite lookup_insert_ne; [auto|].
    intros ->. unfold NewW in Hp. congruence.
  - intros p' Hs. destruct (decide (p = p')) as [->|Hne].
    + rewrite lookup_insert_eq. eauto.
    + rewrite lookup_insert_ne by exact Hne. auto.
  - exists c. rewrite lookup_insert_ne by exact Hps. auto.
Qed.

Lemma untouched_set_self w l : I w -> NewI l -> I (with_wrapper w self l).
Proof.
  intros (H1 & H2 & H3 & H4 & c & H5 & H6) Hl. repeat split; cbn; auto.
  - intros p' x Hx Hne. rewrite lookup_insert_ne by auto. auto.
  - intros p' Hs. destruct (decide (self = p')) as [->|Hne].
    + rewrite lookup_insert_eq. eauto.
    + rewrite lookup_insert_ne by exact Hne. auto.
  - exists l. rewrite lookup_insert_eq. auto.
Qed.

Lemma untouched_canvas w c : I w -> wrappers w !! self = Some c -> Allowed c.
Proof. intros (_ & _ & _ & _ & c' & H5 & H6) Hc. unfold Allowed. congruence. Qed.

Lemma draw_image_untouched (B : Backend) (img : content) (bbox : list num) :
  I (draw_image B self img bbox w0).2.
Proof.
  pose proof (draw_image_holds B I (fun _ => True) self NewI NewW Allowed) as H.
  specialize (H (fun _ _ => Logic.I) (fun l Hl => or_intror Hl)).
  specialize (H (fun w im Hw =>
                   conj (untouched_write w _ im Hw (or_intror (fresh_is_new_image w Hw)))
                        (fresh_is_new_image w Hw))).
  specialize (H (fun w l im im' Hw Hl _ _ _ _ => untouched_write w l im' Hw Hl)).
  specialize (H (fun w l Hw =>
                   conj (untouched_set_new w _ l Hw (fresh_is_new_wrapper w Hw))
                        (fresh_is_new_wrapper w Hw))).
  specialize (H untouched_set_new untouched_set_self).
  specialize (H (fun w c Hw => Hw) untouched_canvas img bbox (or_intror Logic.I)).
  specialize (H w0 untouched_start).
  destruct (draw_image B self img bbox w0) as [[a|e] w']; apply H.
Qed.

End Untouched.

(** C10, as the code has it. [draw_image] leaves the content it is given as
    it was, dimensions and pixels, provided the content is not the canvas:
    the image object passed (or wrapped by the [PymeImage] passed) is not
    the one the canvas wraps, and a [PymeImage] passed is not the canvas
    itself. This for every box and every outcome of the call. *)
Theorem draw_image_leaves_content (B : Backend) (w : world) (self c : ref)
        (img : content) (bbox : list num) (l : ref) (im : Image) :
  wrappers w !! self = Some c ->
  match img with
  | Raw l' => l' = l
  | Wrapped p => wrappers w !! p = Some l /\ p <> self
  end ->
  images w !! l = Some im ->
  l <> c ->
  let w' := (draw_image B self img bbox w).2 in
  images w' !! l = Some im
  /\ match img with
     | Raw _ => True
     | Wrapped p => wrappers w' !! p = Some l
     end.
Proof.
  intros Hs Himg Hl Hne. cbv zeta.
  destruct (draw_image_untouched w c self Hs B img bbox) as (H1 & _ & H3 & _).
  split; [auto|]. destruct img as [l'|p]; [exact Logic.I|].
  destruct Himg as [Hp Hps]. auto.
Qed.

(** The theorem at work: a separate content survives a padded drawing. *)
Lemma draw_image_leaves_content_witness :
  let w := Fixtures.store (Fixtures.gradient RGBA 4 4 255) (Fixtures.gradient RGBA 2 2 255) in
  let w' := (draw_image Fixtures.nearest 1%positive (Wrapped 2%positive)
               [Int (-1); Int 0; Int 2; Int 2] w).2 in
  images w' !! 2%positive = Some (Fixtures.gradient RGBA 2 2 255)
  /\ wrappers w' !! 2%positive = Some 2%positive.
Proof.
  apply (draw_image_leaves_content Fixtures.nearest
           (Fixtures.store (Fixtures.gradient RGBA 4 4 255) (Fixtures.gradient RGBA 2 2 255))
           1%positive 1%positive (Wrapped 2%positive) [Int (-1); Int 0; Int 2; Int 2]
           2%positive (Fixtures.gradient RGBA 2 2 255));
    [reflexivity | split; [reflexivity | discriminate] | reflexivity | discriminate].
Defined.

(** C10, as stated, fails when the content is the canvas. Drawing the image
    object that a 4 x 4 canvas wraps onto that canvas, into the box
    [(0, 0, 2, 2)], overwrites the pixels of the box: the pixel at [(1, 1)],
    which was [(1, 1, 0, 255)], is afterwards [(2, 2, 0, 255)] (the
    nearest source pixel, which is also what Pillow's BICUBIC filter
    gives there). Drawing a 2 x 2 canvas (as a [PymeImage]) onto itself
    with a box that sticks out changes its size to 3 x 3. *)
Lemma draw_image_mutates_aliased_content :
  let w := Fixtures.store (Fixtures.gradient RGBA 4 4 255) (Fixtures.gradient RGBA 2 2 255) in
  let drawn_raw := draw_image Fixtures.nearest 1%positive (Raw 1%positive)
                     [Int 0; Int 0; Int 2; Int 2] w in
  let w2 := Fixtures.store (Fixtures.gradient RGBA 2 2 255) (Fixtures.gradient RGBA 2 2 255) in
  let drawn_wrapped := draw_image Fixtures.nearest 1%positive (Wrapped 1%positive)
                         [Int (-1); Int (-1); Int 1; Int 1] w2 in
  Fixtures.pixel_at w 1%positive 1 1 = Some (Px 1 1 0 255)
  /\ drawn_raw.1 = Ok tt
  /\ Fixtures.pixel_at drawn_raw.2 1%positive 1 1 = Some (Px 2 2 0 255)
  /\ Fixtures.observe w2 1%positive 0 0 = Some (RGBA, 2, 2, Px 0 0 0 255)
  /\ drawn_wrapped.1 = Ok tt
  /\ Fixtures.observe drawn_wrapped.2 1%positive 0 0 = Some (RGBA, 3, 3, Px 0 0 0 255).
Proof. vm_compute. repeat split. Qed.

(** ** C7: the validation of the box *)

Lemma draw_image_never_bbox_error (B : Backend) (w : world) (self : ref) (img : content)
      (bbox : list num) :
  length bbox = 4%nat -> (draw_image B self img bbox w).1 <> Raise bbox_error.
Proof.
  intros Hlen.
  pose proof (draw_image_holds B (fun _ => True) (fun e => e <> bbox_error) self
                (fun _ => True) (fun _ => True) (fun _ => True)) as H.
  specialize (H (fun e He => He) (fun _ _ => Logic.I)).
  specialize (H (fun _ _ _ => conj Logic.I Logic.I) (fun _ _ _ _ _ _ _ _ _ _ => Logic.I)).
  specialize (H (fun _ _ _ => conj Logic.I Logic.I) (fun _ _ _ _ _ => Logic.I)).
  specialize (H (fun _ _ _ _ => Logic.I) (fun _ _ _ => Logic.I) (fun _ _ _ _ => Logic.I)).
  specialize (H img bbox (or_introl Hlen) w Logic.I).
  destruct (draw_image B self img bbox w) as [[a|e] w']; cbn; [discriminate|].
  intros [= ->]. destruct H as [_ H]. apply H. reflexivity.
Qed.

Lemma draw_text_never_bbox_error (B : Backend) (w : world) (self : ref) (text : string)
      (bbox : list num) :
  length bbox = 4%nat -> (draw_text B self text bbox w).1 <> Raise bbox_error.
Proof.
  intros Hlen.
  pose proof (draw_text_holds B (fun _ => True) (fun e => e <> bbox_error) self
                (fun _ => True) (fun _ => True) (fun _ => True)) as H.
  specialize (H (fun e He => He) (fun _ _ => Logic.I)).
  specialize (H (fun _ _ _ => conj Logic.I Logic.I) (fun _ _ _ _ _ _ _ _ _ _ => Logic.I)).
  specialize (H (fun _ _ _ => conj Logic.I Logic.I) (fun _ _ _ _ _ => Logic.I)).
  specialize (H (fun _ _ _ _ => Logic.I) (fun _ _ _ => Logic.I) (fun _ _ _ _ => Logic.I)).
  specialize (H text bbox (or_introl Hlen) w Logic.I).
  destruct (draw_text B self text bbox w) as [[a|e] w']; cbn; [discriminate|].
  intros [= ->]. destruct H as [_ H]. apply H. reflexivity.
Qed.

(** C7. For a box whose length is not 4 (3 or 5, say), [draw_image] and
    [draw_text] both raise the library's own error, a [ValueError], and
    leave the store as it was. It is the only validation failure the library
    raises itself: for a box of length 4 neither method raises it, whatever
    else Python or Pillow may raise. *)
Theorem bbox_length_is_validated (B : Backend) (w : world) (self : ref) (img : content)
        (text : string) (bbox : list num) :
  is_ValueError bbox_error = true
  /\ (length bbox <> 4%nat ->
      draw_image B self img bbox w = (Raise bbox_error, w)
      /\ draw_text B self text bbox w = (Raise bbox_error, w))
  /\ (length bbox = 4%nat ->
      (draw_image B self img bbox w).1 <> Raise bbox_error
      /\ (draw_text B self text bbox w).1 <> Raise bbox_error).
Proof.
  split; [reflexivity|]. split.
  - intros Hlen. apply Nat.eqb_neq in Hlen.
    unfold draw_image, draw_text. rewrite Hlen. split; reflexivity.
  - intros Hlen. split.
    + apply draw_image_never_bbox_error, Hlen.
    + apply draw_text_never_bbox_error, Hlen.
Qed.

(** The theorem at work: boxes of length 3, 5 and 4. *)
Lemma bbox_length_is_validated_witness :
  let w := Fixtures.store (Fixtures.gradient RGBA 4 4 255) (Fixtures.gradient RGBA 2 2 255) in
  (draw_image Fixtures.nearest 1%positive (Raw 2%positive) [Int 0; Int 0; Int 2] w
     = (Raise bbox_error, w)
   /\ draw_text Fixtures.nearest 1%positive "top text" [Int 0; Int 0; Int 2] w
     = (Raise bbox_error, w))
  /\ (draw_image Fixtures.nearest 1%positive (Raw 2%positive)
        [Int 0; Int 0; Int 2; Int 2; Int 2] w = (Raise bbox_error, w)
      /\ draw_text Fixtures.nearest 1%positive "top text"
        [Float (S754_zero false); Int 0; Int 2; Int 2; Int 2] w = (Raise bbox_error, w))
  /\ ((draw_image Fixtures.nearest 1%positive (Raw 2%positive) [Int 0; Int 0; Int 2; Int 2] w).1
        <> Raise bbox_error
      /\ (draw_text Fixtures.nearest 1%positive "top text" [Int 0; Int 0; Int 2; Int 2] w).1
        <> Raise bbox_error).
Proof.
  intros w. split; [|split].
  - apply (bbox_length_is_validated Fixtures.nearest w 1%positive (Raw 2%positive) "top text"
             [Int 0; Int 0; Int 2]). cbn. lia.
  - split.
    + apply (bbox_length_is_validated Fixtures.nearest w 1%positive (Raw 2%positive)
               "top text" [Int 0; Int 0; Int 2; Int 2; Int 2]). cbn. lia.
    + apply (bbox_length_is_validated Fixtures.nearest w 1%positive (Raw 2%positive)
               "top text" [Float (S754_zero false); Int 0; Int 2; Int 2; Int 2]). cbn. lia.
  - apply (bbox_length_is_validated Fixtures.nearest w 1%positive (Raw 2%positive) "top text"
             [Int 0; Int 0; Int 2; Int 2]). reflexivity.
Defined.

(** ** [resize]: what it allocates and what it leaves alone *)

(** Pillow's [resize] either raises, leaving the store as it was, or
    allocates one new image object and returns it. *)
Lemma Image_resize_cases (B : Backend) (w : world) (l : ref) (size : num * num) :
  (exists e, Image_resize B l size w = (Raise e, w))
  \/ (exists im', Image_resize B l size w
                  = (Ok (fresh (dom (images w))), with_image w (fresh (dom (images w))) im')).
Proof.
  unfold Image_resize. rewrite bind_run. unfold get_image.
  destruct (images w !! l) as [im|] eqn:El; [|left; eexists; reflexivity].
  case_match.
  - unfold Image.copy. rewrite bind_run. unfold get_image. rewrite El.
    rewrite allocate_run.
    destruct (refused w (width im) (height im)); [left | right]; eexists; reflexivity.
  - destruct size as [[s0|f] [s1|g]]; try (left; eexists; reflexivity).
    destruct (negb (fits_int s0 && fits_int s1)); [left; eexists; reflexivity|].
    destruct ((s0 <? 1) || (s1 <? 1)); [left; eexists; reflexivity|].
    rewrite allocate_run.
    match goal with
    | |- context [ refused w ?a ?b ] => destruct (refused w a b)
    end; [left | right]; eexists; reflexivity.
Qed.

(** The end of [resize]: the new image is asked of Pillow and stored in the
    wrapper. *)
Lemma resize_end (B : Backend) (w : world) (self l : ref) (size : num * num) :
  let out := (l' ← Image_resize B l size; _ ← set_wrapped self l'; mret self) w in
  (forall l0 im, images w !! l0 = Some im -> images out.2 !! l0 = Some im)
  /\ (forall p, p <> self -> wrappers out.2 !! p = wrappers w !! p)
  /\ pastes out.2 = pastes w
  /\ match out.1 with
     | Ok p => p = self
               /\ exists l' im', wrappers out.2 !! self = Some l'
                                 /\ images w !! l' = None
                                 /\ images out.2 !! l' = Some im'
     | Raise _ => out.2 = w
     end.
Proof.
  cbv zeta. rewrite bind_run.
  destruct (Image_resize_cases B w l size) as [[e ->] | [im' ->]].
  - cbn. auto.
  - rewrite bind_run. unfold set_wrapped. rewrite ret_run.
    unfold with_wrapper, with_image. cbn [fst snd images wrappers pastes].
    repeat split.
    + intros l0 im Hl0. rewrite lookup_insert_ne; [exact Hl0|].
      apply (fresh_image_ne w l0 im Hl0).
    + intros p Hp. rewrite lookup_insert_ne by auto. reflexivity.
    + exists (fresh (dom (images w))), im'.
      split; [apply lookup_insert_eq|].
      split; [apply fresh_image_None | apply lookup_insert_eq].
Qed.

(** What [resize] does to the store: it writes to no image object the
    store held, to no other wrapper and not to the record of pastes; when
    it returns, it returns [self], which then wraps a new image object;
    when it raises, the store is as it was. *)
Lemma resize_effect (B : Backend) (w : world) (self : ref) (size : num * num)
        (keep_ratio : bool) :
  let out := resize B self size keep_ratio w in
  (forall l im, images w !! l = Some im -> images out.2 !! l = Some im)
  /\ (forall p, p <> self -> wrappers out.2 !! p = wrappers w !! p)
  /\ pastes out.2 = pastes w
  /\ match out.1 with
     | Ok p => p = self
               /\ exists l' im', wrappers out.2 !! self = Some l'
                                 /\ images w !! l' = None
                                 /\ images out.2 !! l' = Some im'
     | Raise _ => out.2 = w
     end.
Proof.
  cbv zeta.
  set (P := fun out : result ref * world =>
              (forall l im, images w !! l = Some im -> images out.2 !! l = Some im)
              /\ (forall p, p <> self -> wrappers out.2 !! p = wrappers w !! p)
              /\ pastes out.2 = pastes w
              /\ match out.1 with
                 | Ok p => p = self
                           /\ exists l' im', wrappers out.2 !! self = Some l'
                                             /\ images w !! l' = None
                                             /\ images out.2 !! l' = Some im'
                 | Raise _ => out.2 = w
                 end).
  change (P (resize B self size keep_ratio w)).
  assert (forall e, P (Raise e, w)) as Hraise by (intros e; subst P; cbn; auto).
  unfold resize. destruct keep_ratio.
  - rewrite bind_run. unfold attr_width at 1. rewrite bind_run. unfold image at 1.
    destruct (wrappers w !! self) as [l|] eqn:Es; [|apply Hraise].
    rewrite bind_run. unfold get_image at 1.
    destruct (images w !! l) as [im|] eqn:El; [|apply Hraise].
    rewrite ret_run, bind_run, (attr_height_run _ _ _ _ Es El).
    rewrite lift_bind_run.
    destruct (keep_ratio_size size (width im) (height im)) as [[nw nh]|e]; [|apply Hraise].
    rewrite bind_run, (image_run _ _ _ Es).
    exact (resize_end B w self l (Int nw, Int nh)).
  - rewrite bind_run. unfold image at 1.
    destruct (wrappers w !! self) as [l|] eqn:Es; [|apply Hraise].
    exact (resize_end B w self l size).
Qed.

(** ** C8: the paste and its fallback *)

(** Every call of [Image.paste] adds exactly one record. *)
Lemma paste_log (dst src : ref) (box : num * num) (mask : option ref) (w : world) :
  pastes (Image.paste dst src box mask w).2
  = pastes w ++ [PasteCall dst src (bool_decide (is_Some mask))
                           match (Image.paste dst src box mask w).1 with
                           | Ok _ => None
                           | Raise e => Some e
                           end].
Proof.
  unfold Image.paste.
  match goal with
  | |- context [ match ?run w with _ => _ end ] =>
      assert (pastes (run w).2 = pastes w) as Hrun; [|destruct (run w) as [[[]|e] w']]
  end.
  - rewrite bind_run. unfold get_image at 1.
    destruct (images w !! src) as [s|]; [|reflexivity].
    rewrite bind_run. unfold get_image at 1.
    destruct (images w !! dst) as [d|]; [|reflexivity].
    rewrite bind_run.
    assert (forall mk, pastes ((match box with
                                | (Int ox, Int oy) =>
                                    if negb (Image.box_fits s ox oy) then raise OverflowError
                                    else Image.paste_core dst d s ox oy mk
                                | _ => raise TypeError
                                end) w).2 = pastes w) as Hcore.
    { intros mk. destruct box as [[ox|f] [oy|g]]; try reflexivity.
      destruct (Image.box_fits s ox oy); [|reflexivity]. cbn [negb].
      unfold Image.paste_core. repeat case_match; reflexivity. }
    destruct mask as [m|].
    + rewrite bind_run. unfold get_image at 1.
      destruct (images w !! m) as [mk|]; [|reflexivity].
      rewrite ret_run. apply Hcore.
    + rewrite ret_run. apply Hcore.
  - cbn in *. rewrite Hrun. reflexivity.
  - cbn in *. rewrite Hrun. reflexivity.
Qed.

(** The paste with its fallback (lines 130-133): the content is pasted with
    itself as mask. If that paste returns, nothing more is pasted. If it
    raises a [ValueError], the content is pasted again, once, without a
    mask, from the store the failed paste left, and the outcome is the
    outcome of that second paste. Any other exception of the first paste is
    propagated without a retry. The record of calls shows exactly these
    pastes. *)
Lemma paste_content_outcome (canvas im : ref) (xy : num * num) (w : world) :
  let first := Image.paste canvas im xy (Some im) w in
  let second := Image.paste canvas im xy None first.2 in
  let outcome := paste_content canvas im xy w in
  match first.1 with
  | Ok _ =>
      outcome = first
      /\ pastes outcome.2 = pastes w ++ [PasteCall canvas im true None]
  | Raise e =>
      if is_ValueError e
      then outcome = second
           /\ pastes outcome.2
              = pastes w ++ [PasteCall canvas im true (Some e);
                             PasteCall canvas im false match second.1 with
                                                       | Ok _ => None
                                                       | Raise e' => Some e'
                                                       end]
      else outcome = first
           /\ pastes outcome.2 = pastes w ++ [PasteCall canvas im true (Some e)]
  end.
Proof.
  cbv zeta. unfold paste_content, try_except_ValueError.
  pose proof (paste_log canvas im xy (Some im) w) as Hlog1.
  destruct (Image.paste canvas im xy (Some im) w) as [[[]|e] w1] eqn:E1; cbn [fst snd] in *.
  - split; [reflexivity|]. exact Hlog1.
  - destruct (is_ValueError e).
    + split; [reflexivity|].
      rewrite (paste_log canvas im xy None w1), Hlog1, <- app_assoc. reflexivity.
    + split; [reflexivity|]. exact Hlog1.
Qed.

Lemma reads_of_holds {A} (m : M A) :
  (forall w, holds (fun w' => w' = w) (fun _ => True) m (fun _ => True)) -> reads m.
Proof.
  intros H w. specialize (H w w eq_refl).
  destruct (m w) as [[a|e] w']; destruct H as [H _]; exact H.
Qed.

Lemma bind_reads {A C} (m : M A) (k : A -> M C) (w : world) :
  reads m ->
  (m ≫= k) w = match (m w).1 with
               | Ok a => k a w
               | Raise e => (Raise e, w)
               end.
Proof.
  intros H. rewrite bind_run. specialize (H w).
  destruct (m w) as [[a|e] w']; cbn in *; subst w'; reflexivity.
Qed.

Lemma reads_attr_width (p : ref) : reads (attr_width p).
Proof.
  apply reads_of_holds. intros w.
  apply (attr_width_holds (fun w' => w' = w) (fun _ => True) p (fun _ => True)); auto.
Qed.

Lemma reads_attr_height (p : ref) : reads (attr_height p).
Proof.
  apply reads_of_holds. intros w.
  apply (attr_height_holds (fun w' => w' = w) (fun _ => True) p (fun _ => True)); auto.
Qed.

Lemma reads_item (seq : list num) (i : nat) : reads (item seq i).
Proof.
  apply reads_of_holds. intros w. apply (item_holds (fun w' => w' = w) (fun _ => True)); auto.
Qed.

Lemma reads_center_image (B : Backend) (p : ref) (bbox : list num) :
  reads (_center_image B p bbox).
Proof.
  apply reads_of_holds. intros w.
  apply (center_image_holds B (fun w' => w' = w) (fun _ => True) p (fun _ => True)); auto.
Qed.

(** The masked paste of an image with itself as mask raises [ValueError]
    only for an image that is no mask: one of mode RGB. *)
Lemma paste_masked_ValueError (c s : ref) (xy : num * num) (w : world) (e : exn) :
  (Image.paste c s xy (Some s) w).1 = Raise e -> is_ValueError e = true ->
  exists im, images w !! s = Some im /\ mode im = RGB.
Proof.
  unfold Image.paste. rewrite bind_run. unfold get_image at 1.
  destruct (images w !! s) as [src|] eqn:Es.
  2:{ cbn. intros [= <-]. discriminate. }
  rewrite bind_run. unfold get_image at 1.
  destruct (images w !! c) as [dst|] eqn:Ec.
  2:{ cbn. intros [= <-]. discriminate. }
  rewrite !bind_run, (get_image_run _ _ _ Es), ret_run.
  destruct xy as [[ox|f] [oy|g]]; try (cbn; intros [= <-]; discriminate).
  destruct (Image.box_fits src ox oy); cbn [negb].
  2:{ cbn. intros [= <-]. discriminate. }
  unfold Image.paste_core. rewrite !Z.eqb_refl. cbn [andb negb].
  destruct (region_empty dst src ox oy); [cbn; discriminate|].
  destruct (mode src) eqn:Em; try (cbn; discriminate).
  intros _ _. exists src. auto.
Qed.

Section PasteStep.

Context (B : Backend).
Variables (w0 : world) (self : ref) (padding : list paste_call).

(** What is left to show of a call of [draw_image] started in [w0], once
    [padding] is what [add_padding] pasted: the call raises without another
    paste, or it comes to the paste of lines 130-133. *)
Let paste_step (out : result unit * world) : Prop :=
  ((exists e, out.1 = Raise e) /\ pastes out.2 = pastes w0 ++ padding)
  \/ exists w1 canvas resized xy,
       pastes w1 = pastes w0 ++ padding
       /\ wrappers w1 !! self = Some canvas
       /\ images w0 !! resized = None
       /\ is_Some (images w1 !! resized)
       /\ let first := Image.paste canvas resized xy (Some resized) w1 in
          let second := Image.paste canvas resized xy None first.2 in
          match first.1 with
          | Ok _ =>
              out = first
              /\ pastes out.2 = pastes w0 ++ padding ++ [PasteCall canvas resized true None]
          | Raise e =>
              if is_ValueError e
              then out = second
                   /\ (exists im, images w1 !! resized = Some im /\ mode im = RGB)
                   /\ pastes out.2
                      = pastes w0 ++ padding
                        ++ [PasteCall canvas resized true (Some e);
                            PasteCall canvas resized false match second.1 with
                                                           | Ok _ => None
                                                           | Raise e' => Some e'
                                                           end]
              else out = first
                   /\ pastes out.2
                      = pastes w0 ++ padding ++ [PasteCall canvas resized true (Some e)]
          end.

Lemma paste_step_raise (e : exn) (w : world) :
  pastes w = pastes w0 ++ padding -> paste_step (Raise e, w).
Proof. intros H. left. split; [exists e; reflexivity | exact H]. Qed.

(** The placement comes to the paste, or raises before it. *)
Lemma draw_image_place_paste_step (img : content) (b0 b1 b2 b3 : num) (w : world) :
  pastes w = pastes w0 ++ padding ->
  (forall l, images w !! l = None -> images w0 !! l = None) ->
  paste_step (draw_image_place B self img b0 b1 b2 b3 w).
Proof.
  intros Hlog Hold. unfold draw_image_place.
  (* the content *)
  rewrite bind_reads
    by (destruct img as [l|p]; intros w'; [reflexivity | unfold image; case_match; reflexivity]).
  destruct ((match img with
             | Raw l => mret l
             | Wrapped p => image p
             end w).1) as [im|e]; [|apply paste_step_raise, Hlog].
  rewrite lift_bind_run. destruct (sub b2 b0) as [wd|e]; [|apply paste_step_raise, Hlog].
  rewrite lift_bind_run. destruct (sub b3 b1) as [ht|e]; [|apply paste_step_raise, Hlog].
  (* the temporary wrapper and the resize *)
  rewrite bind_run. unfold init at 1.
  set (p1 := fresh (dom (wrappers w))).
  set (w1 := with_wrapper w p1 im).
  rewrite bind_run.
  destruct (resize_effect B w1 p1 (wd, ht) true) as (Himg & _ & Hpastes & Hout).
  destruct (resize B p1 (wd, ht) true w1) as [[p|e] w2]; cbn [fst snd] in *.
  2:{ apply paste_step_raise. rewrite Hpastes. exact Hlog. }
  destruct Hout as (-> & l' & im' & Hw2 & Hnew & Hl').
  rewrite bind_run, (image_run _ _ _ Hw2).
  (* the wrapper that is asked for the centred box *)
  rewrite bind_run. unfold init at 1.
  set (p2 := fresh (dom (wrappers w2))).
  set (w3 := with_wrapper w2 p2 l').
  assert (pastes w3 = pastes w0 ++ padding) as Hlog3 by (cbn; rewrite Hpastes; exact Hlog).
  rewrite (bind_reads _ _ _ (reads_center_image B p2 _)).
  destruct ((_center_image B p2 _ w3).1) as [[[[x y] x'] y']|e]; [|apply paste_step_raise, Hlog3].
  (* the canvas and the paste *)
  rewrite bind_run. unfold image at 1.
  destruct (wrappers w3 !! self) as [canvas|] eqn:Ec; [|apply paste_step_raise, Hlog3].
  right. exists w3, canvas, l', (x, y).
  split; [exact Hlog3|]. split; [exact Ec|].
  split; [apply Hold; exact Hnew|].
  split; [exists im'; exact Hl'|].
  pose proof (paste_content_outcome canvas l' (x, y) w3) as H. cbv zeta in H |- *.
  pose proof (paste_masked_ValueError canvas l' (x, y) w3) as Hrgb.
  destruct ((Image.paste canvas l' (x, y) (Some l') w3).1) as [[]|e].
  - destruct H as [H1 H2]. split; [exact H1|].
    rewrite H2, Hlog3, <- app_assoc. reflexivity.
  - destruct (is_ValueError e) eqn:Ee.
    + destruct H as [H1 H2]. split; [exact H1|]. split; [apply (Hrgb e); auto|].
      rewrite H2, Hlog3, <- app_assoc. reflexivity.
    + destruct H as [H1 H2]. split; [exact H1|].
      rewrite H2, Hlog3, <- app_assoc. reflexivity.
Qed.

End PasteStep.

(** No method removes an image object from the store. *)
Lemma add_padding_keeps_images (self : ref) (left top right bottom : num) (w : world)
      (l : ref) :
  images (add_padding self left top right bottom w).2 !! l = None -> images w !! l = None.
Proof.
  pose proof (add_padding_holds
                (fun w' => forall l, images w' !! l = None -> images w !! l = None)
                (fun _ => True) self (fun _ => True) (fun _ => True)) as H.
  specialize (H (fun _ _ => Logic.I) (fun _ _ => Logic.I)).
  assert (forall (w' : world) (l0 : ref) (im : Image),
             (forall l, images w' !! l = None -> images w !! l = None) ->
             forall l, images (with_image w' l0 im) !! l = None -> images w !! l = None)
    as Hgrow.
  { intros w' l0 im Hw' l1 Hl1. cbn in Hl1. apply lookup_insert_None in Hl1 as [Hl1 _].
    apply Hw', Hl1. }
  specialize (H (fun w' im Hw' => conj (Hgrow w' _ im Hw') Logic.I)).
  specialize (H (fun w' l0 im im' Hw' _ _ _ _ _ => Hgrow w' l0 im' Hw')).
  specialize (H (fun w' l0 Hw' _ => Hw') (fun w' c Hw' => Hw') (fun _ _ _ _ => Logic.I)
                left top right bottom w (fun _ Hl => Hl)).
  destruct (add_padding self left top right bottom w) as [[a|e] w']; destruct H as [H _];
    apply H.
Qed.

(** [Image.new] raises and leaves the store, or allocates one image. *)
Lemma Image_new_cases (m : Mode) (size : num * num) (c : pixel) (w : world) :
  (exists e, Image.new m size c w = (Raise e, w))
  \/ (exists im, Image.new m size c w
                 = (Ok (fresh (dom (images w))), with_image w (fresh (dom (images w))) im)).
Proof.
  unfold Image.new. case_match; [left; eexists; reflexivity|].
  destruct size as [[wd|f] [ht|g]]; try (left; eexists; reflexivity).
  case_match; [left; eexists; reflexivity|].
  rewrite allocate_run. case_match; [left | right]; eexists; reflexivity.
Qed.

(** What [add_padding] pastes: nothing, or the copy of the canvas onto the
    new buffer, with the copy as mask. Both are new image objects. *)
Lemma add_padding_pastes (self : ref) (left top right bottom : num) (w : world) :
  exists padding,
    pastes (add_padding self left top right bottom w).2 = pastes w ++ padding
    /\ (padding = []
        \/ exists buffer copy r,
            padding = [PasteCall buffer copy true r]
            /\ images w !! buffer = None /\ images w !! copy = None).
Proof.
  set (G := fun out : result unit * world =>
              exists padding,
                pastes out.2 = pastes w ++ padding
                /\ (padding = []
                    \/ exists buffer copy r,
                        padding = [PasteCall buffer copy true r]
                        /\ images w !! buffer = None /\ images w !! copy = None)).
  change (G (add_padding self left top right bottom w)).
  assert (forall (r : result unit) (w' : world), pastes w' = pastes w -> G (r, w')) as Hquiet.
  { intros r w' Hw'. exists []. rewrite app_nil_r. auto. }
  unfold add_padding. case_match; [apply Hquiet; reflexivity|].
  rewrite bind_run. unfold image at 1.
  destruct (wrappers w !! self) as [l|]; [|apply Hquiet; reflexivity].
  rewrite bind_run. unfold Image.copy. rewrite bind_run. unfold get_image at 1.
  destruct (images w !! l) as [im|]; [|apply Hquiet; reflexivity].
  rewrite allocate_run.
  destruct (refused w (width im) (height im)); [apply Hquiet; reflexivity|].
  set (copy := fresh (dom (images w))).
  set (w1 := with_image w copy im).
  rewrite bind_run, (get_image_run w1 copy im) by (subst w1; cbn; apply lookup_insert_eq).
  do 2 (rewrite bind_reads
          by (intros ?; repeat (first [rewrite lift_bind_run | case_match]); reflexivity);
        match goal with
        | |- G (match ?r with _ => _ end) =>
            destruct r as [[? ?]|?]; [|apply Hquiet; reflexivity]
        end).
  do 2 (rewrite bind_reads
          by (intros ?; repeat (first [rewrite lift_bind_run | case_match]); reflexivity);
        match goal with
        | |- G (match ?r with _ => _ end) =>
            destruct r as [?|?]; [|apply Hquiet; reflexivity]
        end).
  rewrite bind_run.
  match goal with
  | |- context [ Image.new RGBA ?size white w1 ] =>
      destruct (Image_new_cases RGBA size white w1) as [[e ->] | [blank ->]]
  end; [apply Hquiet; reflexivity|].
  set (buffer := fresh (dom (images w1))).
  set (w2 := with_image w1 buffer blank).
  rewrite bind_run.
  match goal with
  | |- context [ Image.paste buffer copy ?xy (Some copy) w2 ] =>
      pose proof (paste_log buffer copy xy (Some copy) w2) as Hlog;
      destruct (Image.paste buffer copy xy (Some copy) w2) as [[[]|e] w3]
  end; cbn [fst snd] in Hlog.
  - exists [PasteCall buffer copy true None]. split; [exact Hlog|].
    right. exists buffer, copy, None. split; [reflexivity|]. split.
    + destruct (images w !! buffer) as [x|] eqn:E; [|reflexivity].
      exfalso. apply (fresh_image_ne w1 buffer x); [|reflexivity].
      subst w1. cbn. rewrite lookup_insert_ne; [exact E|].
      intros Heq. pose proof (fresh_image_None w) as N. fold copy in N. congruence.
    + apply fresh_image_None.
  - exists [PasteCall buffer copy true (Some e)]. split; [exact Hlog|].
    right. exists buffer, copy, (Some e). split; [reflexivity|]. split.
    + destruct (images w !! buffer) as [x|] eqn:E; [|reflexivity].
      exfalso. apply (fresh_image_ne w1 buffer x); [|reflexivity].
      subst w1. cbn. rewrite lookup_insert_ne; [exact E|].
      intros Heq. pose proof (fresh_image_None w) as N. fold copy in N. congruence.
    + apply fresh_image_None.
Qed.

Lemma reads_ret {A} (a : A) : reads (mret a : M A).
Proof. intros w. reflexivity. Qed.

Lemma reads_lift {A} (r : result A) : reads (lift r).
Proof. intros w. reflexivity. Qed.

Lemma reads_bind {A C} (m : M A) (k : A -> M C) :
  reads m -> (forall a, reads (k a)) -> reads (m ≫= k).
Proof.
  intros Hm Hk w. rewrite (bind_reads _ _ _ Hm).
  destruct ((m w).1); [apply Hk | reflexivity].
Qed.

(** C8. Every call of [draw_image], for every canvas, content and box.
    [padding] is what [add_padding] pasted before the placement: nothing,
    or the copy of the canvas onto the new buffer. Then either the call
    raises before the paste step, and nothing more was pasted; or it comes
    to the paste step with a canvas and a resized content, a new image
    object, and does this: the resized content is pasted onto the canvas
    with itself as mask. When that paste returns, the call returns and
    nothing more is pasted. When it raises a [ValueError], which it does
    only for a content of mode RGB (one without alpha channel), the content
    is pasted once more, onto the same canvas at the same place, without a
    mask, and the outcome of the call is the outcome of this second paste:
    the [ValueError] is not propagated. When it raises another exception,
    that one is propagated and nothing more is pasted. *)
Theorem draw_image_paste_with_fallback (B : Backend) (w : world) (self : ref)
        (img : content) (bbox : list num) :
  let out := draw_image B self img bbox w in
  exists padding,
    (padding = []
     \/ exists buffer copy r,
         padding = [PasteCall buffer copy true r]
         /\ images w !! buffer = None /\ images w !! copy = None)
    /\ (((exists e, out.1 = Raise e) /\ pastes out.2 = pastes w ++ padding)
        \/ exists w1 canvas resized xy,
            pastes w1 = pastes w ++ padding
            /\ wrappers w1 !! self = Some canvas
            /\ images w !! resized = None
            /\ is_Some (images w1 !! resized)
            /\ let first := Image.paste canvas resized xy (Some resized) w1 in
               let second := Image.paste canvas resized xy None first.2 in
               match first.1 with
               | Ok _ =>
                   out = first
                   /\ pastes out.2
                      = pastes w ++ padding ++ [PasteCall canvas resized true None]
               | Raise e =>
                   if is_ValueError e
                   then out = second
                        /\ (exists im, images w1 !! resized = Some im /\ mode im = RGB)
                        /\ pastes out.2
                           = pastes w ++ padding
                             ++ [PasteCall canvas resized true (Some e);
                                 PasteCall canvas resized false match second.1 with
                                                                | Ok _ => None
                                                                | Raise e' => Some e'
                                                                end]
                   else out = first
                        /\ pastes out.2
                           = pastes w ++ padding ++ [PasteCall canvas resized true (Some e)]
               end).
Proof.
  cbv zeta.
  pattern (draw_image B self img bbox w).
  match goal with |- ?P _ => set (G := P) end.
  assert (forall e, G (Raise e, w)) as Hstop.
  { intros e. exists []. split; [left; reflexivity|]. left.
    split; [exists e; reflexivity | cbn; rewrite app_nil_r; reflexivity]. }
  unfold draw_image. case_match; [apply Hstop|].
  rewrite (bind_reads _ _ _ (reads_attr_width self)).
  destruct ((attr_width self w).1) as [width|e]; [|apply Hstop].
  rewrite (bind_reads _ _ _ (reads_attr_height self)).
  destruct ((attr_height self w).1) as [height|e]; [|apply Hstop].
  rewrite (bind_reads _ _ _ (reads_item _ _)).
  destruct ((item bbox 0 w).1) as [b|e]; [|apply Hstop].
  rewrite bind_reads
    by (case_match; [|apply reads_ret];
        repeat (apply reads_bind; [first [apply reads_lift | apply reads_item]|intros ?]);
        apply reads_ret).
  match goal with
  | |- context [ match ?r with _ => _ end ] => destruct r as [box|e]; [|apply Hstop]
  end.
  unfold draw_image_pixels.
  do 4 (rewrite (bind_reads _ _ _ (reads_item _ _));
        match goal with
        | |- context [ match (item ?s ?i w).1 with _ => _ end ] =>
            destruct ((item s i w).1) as [?|?]; [|apply Hstop]
        end).
  rewrite bind_run.
  match goal with
  | |- context [ if ?c then add_padding _ _ _ _ _ else _ ] => destruct c
  end.
  - match goal with
    | |- context [ add_padding self ?a ?b ?c ?d w ] =>
        destruct (add_padding_pastes self a b c d w) as (padding & Hlog & Hshape);
        pose proof (add_padding_keeps_images self a b c d w) as Hkeep;
        destruct (add_padding self a b c d w) as [[[]|e] w1]
    end; cbn [fst snd] in Hlog, Hkeep; exists padding; (split; [exact Hshape|]).
    + exact (draw_image_place_paste_step B w self padding img _ _ _ _ w1 Hlog Hkeep).
    + left. split; [exists e; reflexivity | exact Hlog].
  - rewrite ret_run. exists []. split; [left; reflexivity|].
    exact (draw_image_place_paste_step B w self [] img _ _ _ _ w
             (eq_sym (app_nil_r _)) (fun _ H => H)).
Qed.

(** The paste step at work, on a 100 x 100 canvas: an RGBA content is pasted
    once, with itself as mask; an RGB content is pasted with itself as mask,
    which raises, and then without a mask, and the call returns. *)
Lemma draw_image_paste_log :
  let draw content :=
    draw_image Fixtures.nearest 1%positive (Raw 2%positive) [Int 10; Int 10; Int 50; Int 50]
      (Fixtures.store (Fixtures.gradient RGBA 100 100 255) content) in
  let rgba := draw (Fixtures.gradient RGBA 30 20 255) in
  let rgb := draw (Fixtures.gradient RGB 30 20 255) in
  (rgba.1 = Ok tt
   /\ pastes rgba.2 = [PasteCall 1%positive 3%positive true None])
  /\ (rgb.1 = Ok tt
      /\ pastes rgb.2
         = [PasteCall 1%positive 3%positive true (Some (ValueError "bad transparency mask"));
            PasteCall 1%positive 3%positive false None]).
Proof. vm_compute. repeat split. Qed.

(** ** C5: a box given in fractions *)

(** [int] of a finite float is its value truncated toward zero. *)
Lemma int_of_float_truncates (s : bool) (m : positive) (e : Z) :
  int_of_float (S754_finite s m e)
  = Ok (Z.quot (cond_Zopp s (Zpos m * 2 ^ Z.max 0 e)) (2 ^ Z.max 0 (- e))).
Proof.
  cbn. f_equal.
  destruct (Z.le_gt_cases 0 e) as [He|He].
  - rewrite Z.shiftl_mul_pow2 by lia.
    rewrite (Z.max_r 0 e) by lia. rewrite (Z.max_l 0 (- e)) by lia.
    rewrite Z.quot_1_r. reflexivity.
  - rewrite Z.shiftl_div_pow2 by lia.
    rewrite (Z.max_l 0 e) by lia. rewrite (Z.max_r 0 (- e)) by lia.
    rewrite Z.mul_1_r.
    assert (0 < 2 ^ (- e)) by (apply Z.pow_pos_nonneg; lia).
    destruct s; cbn [cond_Zopp].
    + rewrite Z.quot_opp_l by lia. rewrite Z.quot_div_nonneg by lia. reflexivity.
    + rewrite Z.quot_div_nonneg by lia. reflexivity.
Qed.

(** With an [int] first, the box goes to the placement as it is. *)
Lemma draw_image_int_box (B : Backend) (w : world) (self l : ref) (im : Image)
      (img : content) (z : Z) (b1 b2 b3 : num) :
  wrappers w !! self = Some l -> images w !! l = Some im ->
  draw_image B self img [Int z; b1; b2; b3] w
  = draw_image_pixels B self img (width im) (height im) [Int z; b1; b2; b3] w.
Proof.
  intros Hs Hl. unfold draw_image. cbn [length Nat.eqb negb].
  rewrite bind_run, (attr_width_run _ _ _ _ Hs Hl).
  rewrite bind_run, (attr_height_run _ _ _ _ Hs Hl).
  reflexivity.
Qed.

(** C5. A box of four components whose first component is a [float] is read
    as fractions of the canvas: [draw_image] replaces it by
    [(int(b0 * width), int(b1 * height), int(b2 * width), int(b3 * height))]
    for the width and height the canvas has on entry, and goes on as for
    that box of integers; [int] truncates toward zero. A box whose first
    component is an [int] is used as it is, in pixels. *)
Theorem draw_image_fractions (B : Backend) (w : world) (self l : ref) (im : Image)
        (img : content) (f0 : spec_float) (b1 b2 b3 : num) (x0 x1 x2 x3 : Z) :
  wrappers w !! self = Some l ->
  images w !! l = Some im ->
  to_pixels (Float f0) (width im) = Ok x0 ->
  to_pixels b1 (height im) = Ok x1 ->
  to_pixels b2 (width im) = Ok x2 ->
  to_pixels b3 (height im) = Ok x3 ->
  draw_image B self img [Float f0; b1; b2; b3] w
    = draw_image B self img [Int x0; Int x1; Int x2; Int x3] w
  /\ (forall z c1 c2 c3,
        draw_image B self img [Int z; c1; c2; c3] w
        = draw_image_pixels B self img (width im) (height im) [Int z; c1; c2; c3] w)
  /\ (forall s m e,
        to_int (Float (S754_finite s m e))
        = Ok (Z.quot (cond_Zopp s (Zpos m * 2 ^ Z.max 0 e)) (2 ^ Z.max 0 (- e)))).
Proof.
  intros Hs Hl H0 H1 H2 H3. split; [|split].
  - rewrite (draw_image_int_box B w self l im img x0 _ _ _ Hs Hl).
    unfold draw_image. cbn [length Nat.eqb negb].
    rewrite bind_run, (attr_width_run _ _ _ _ Hs Hl).
    rewrite bind_run, (attr_height_run _ _ _ _ Hs Hl).
    repeat (progress (rewrite ?bind_run, ?ret_run, ?lift_run, ?H0, ?H1, ?H2, ?H3;
                      cbn [item lookup list_lookup is_float])).
    reflexivity.
  - intros z c1 c2 c3. apply (draw_image_int_box B w self l im img z c1 c2 c3 Hs Hl).
  - intros s m e. apply int_of_float_truncates.
Qed.

(** The theorem at work: the right half-height box [(0.0, 0.0, 1.0, 0.5)]
    on a 100 x 100 canvas is the box [(0, 0, 100, 50)]. *)
Lemma draw_image_fractions_witness :
  let w := Fixtures.store (Fixtures.gradient RGBA 100 100 255)
                          (Fixtures.gradient RGBA 30 20 255) in
  draw_image Fixtures.nearest 1%positive (Raw 2%positive)
    [Float (S754_zero false); Float (S754_zero false);
     Float Fixtures.float_one; Float Fixtures.float_half] w
  = draw_image Fixtures.nearest 1%positive (Raw 2%positive)
      [Int 0; Int 0; Int 100; Int 50] w.
Proof.
  intros w.
  refine (proj1 (draw_image_fractions Fixtures.nearest w
                   1%positive 1%positive (Fixtures.gradient RGBA 100 100 255) (Raw 2%positive)
                   (S754_zero false) (Float (S754_zero false)) (Float Fixtures.float_one)
                   (Float Fixtures.float_half) 0 0 100 50 _ _ _ _ _ _));
    vm_compute; reflexivity.
Defined.

(** ** Rounding to binary64

    What [binary_round_aux] answers on a quotient: a significand of 53
    bits within half a unit in the last place of the exact value. *)

Lemma pow2_step (d : Z) : 0 < d -> 2 ^ d = 2 * 2 ^ (d - 1).
Proof. intros H. rewrite <- Z.pow_succ_r by lia. f_equal. lia. Qed.

Lemma digits2_pos_bounds (p : positive) :
  2 ^ (Zpos (digits2_pos p) - 1) <= Zpos p < 2 ^ Zpos (digits2_pos p).
Proof.
  induction p as [p IH | p IH |]; cbn [digits2_pos].
  - rewrite Pos2Z.inj_succ.
    replace (Z.succ (Zpos (digits2_pos p)) - 1) with (Zpos (digits2_pos p)) by lia.
    rewrite Z.pow_succ_r by lia.
    pose proof (pow2_step (Zpos (digits2_pos p)) ltac:(lia)). lia.
  - rewrite Pos2Z.inj_succ.
    replace (Z.succ (Zpos (digits2_pos p)) - 1) with (Zpos (digits2_pos p)) by lia.
    rewrite Z.pow_succ_r by lia.
    pose proof (pow2_step (Zpos (digits2_pos p)) ltac:(lia)). lia.
  - cbn. lia.
Qed.

Lemma shr_1_spec (m : Z) (r s : bool) :
  0 <= m ->
  shr_1 (Build_shr_record m r s) = Build_shr_record (m / 2) (Z.odd m) (r || s).
Proof.
  intros Hm. destruct m as [|[p|p|]|]; try lia; cbn [shr_1 Z.odd]; f_equal.
  - apply (Z.div_unique _ _ _ 1); lia.
  - apply (Z.div_unique _ _ _ 0); lia.
Qed.

Lemma shr_1_rec (N D : Z) : 0 <= N -> 0 < D -> shr_1 (shr_rec N D) = shr_rec N (2 * D).
Proof.
  intros HN HD. unfold shr_rec.
  pose proof (Z.div_mod N D ltac:(lia)) as E1. pose proof (Z.mod_pos_bound N D HD) as B1.
  pose proof (Z.div_mod N (2 * D) ltac:(lia)) as E2.
  pose proof (Z.mod_pos_bound N (2 * D) ltac:(lia)) as B2.
  pose proof (Z.div_pos N D HN HD) as P1.
  rewrite shr_1_spec by exact P1.
  set (q := N / D) in *. set (r := N mod D) in *.
  set (q2 := N / (2 * D)) in *. set (r2 := N mod (2 * D)) in *.
  assert (q = 2 * q2 + (if D <=? r2 then 1 else 0) /\ r = r2 - (if D <=? r2 then D else 0))
    as [Hq Hr].
  { destruct (Z.leb_spec D r2).
    - apply (Z.div_mod_unique D); [lia | lia |]. rewrite <- E1, E2. ring.
    - apply (Z.div_mod_unique D); [lia | lia |]. rewrite <- E1, E2. ring. }
  f_equal.
  - rewrite Hq. destruct (D <=? r2).
    + symmetry. apply (Z.div_unique _ _ _ 1); lia.
    + symmetry. apply (Z.div_unique _ _ _ 0); lia.
  - rewrite Hq. destruct (Z.leb_spec D r2), (Z.leb_spec (2 * D) (2 * r2)); try lia.
    + rewrite Z.add_comm, Z.odd_add_mul_2. reflexivity.
    + rewrite Z.add_0_r, Z.odd_mul. reflexivity.
  - assert ((2 * r2) mod (2 * D) = 2 * r) as ->.
    { rewrite Z.mul_mod_distr_l by lia. f_equal.
      rewrite Hr. destruct (Z.leb_spec D r2).
      - symmetry. apply (Z.mod_unique _ _ 1); lia.
      - symmetry. apply (Z.mod_unique _ _ 0); lia. }
    destruct (Z.eqb_spec (2 * r) 0) as [E0|E0]; cbn [negb].
    + rewrite E0, Z.mod_0_l by lia.
      destruct (Z.leb_spec D 0); [lia | reflexivity].
    + destruct (Z.leb_spec D (2 * r)); cbn [orb]; [reflexivity|].
      rewrite Z.mod_small by lia.
      destruct (Z.eqb_spec (2 * r) 0); [lia | reflexivity].
Qed.

Lemma iter_pos_shr_rec (p : positive) (N D : Z) :
  0 <= N -> 0 < D ->
  SpecFloat.iter_pos shr_1 p (shr_rec N D) = shr_rec N (2 ^ Zpos p * D).
Proof.
  intros HN. revert D. induction p as [p IH | p IH |]; intros D HD;
    cbn [SpecFloat.iter_pos].
  - assert (0 < 2 ^ Z.pos p) as Hp by (apply Z.pow_pos_nonneg; lia).
    rewrite shr_1_rec by lia. rewrite IH by lia. rewrite IH by nia.
    f_equal. change (Z.pos p~1) with (2 * Z.pos p + 1).
    rewrite Z.pow_add_r, Z.pow_mul_r by lia.
    change (2 ^ 2) with (2 * 2). rewrite Z.pow_mul_l. ring.
  - assert (0 < 2 ^ Z.pos p) as Hp by (apply Z.pow_pos_nonneg; lia).
    rewrite IH by lia. rewrite IH by nia.
    f_equal. change (Z.pos p~0) with (2 * Z.pos p).
    rewrite Z.pow_mul_r by lia.
    change (2 ^ 2) with (2 * 2). rewrite Z.pow_mul_l. ring.
  - rewrite shr_1_rec by lia. reflexivity.
Qed.

Lemma shr_rec_of_loc (N D : Z) :
  shr_record_of_loc (shr_m (shr_rec N D)) (loc_of_shr_record (shr_rec N D)) = shr_rec N D.
Proof. unfold shr_rec. cbn. destruct (D <=? _), (negb _); reflexivity. Qed.

Lemma shr_rec_exact (m : Z) : shr_record_of_loc m loc_Exact = shr_rec m 1.
Proof.
  unfold shr_rec. cbn. rewrite Z.div_1_r, Z.mod_1_r. reflexivity.
Qed.

Lemma shr_shr_rec (N D e n : Z) :
  0 <= N -> 0 < D -> 0 <= n ->
  shr (shr_rec N D) e n = (shr_rec N (2 ^ n * D), e + n).
Proof.
  intros HN HD Hn. unfold shr. destruct n as [|p|p]; try lia.
  - rewrite Z.pow_0_r, Z.mul_1_l, Z.add_0_r. reflexivity.
  - rewrite iter_pos_shr_rec by assumption. reflexivity.
Qed.

Lemma Zdigits2_unique (x k : Z) : 0 < k -> 2 ^ (k - 1) <= x < 2 ^ k -> Zdigits2 x = k.
Proof.
  intros Hk Hx.
  assert (0 < 2 ^ (k - 1)) by (apply Z.pow_pos_nonneg; lia).
  destruct x as [|p|p]; try lia. cbn [Zdigits2].
  pose proof (digits2_pos_bounds p) as Hp.
  set (d := Zpos (digits2_pos p)) in *.
  destruct (Z.lt_trichotomy d k) as [Hlt | [Heq | Hgt]]; [| exact Heq |].
  - assert (2 ^ d <= 2 ^ (k - 1)) by (apply Z.pow_le_mono_r; lia). lia.
  - assert (2 ^ k <= 2 ^ (d - 1)) by (apply Z.pow_le_mono_r; lia). lia.
Qed.

Lemma Zdigits2_bounds (x : Z) :
  0 < x -> 0 < Zdigits2 x /\ 2 ^ (Zdigits2 x - 1) <= x < 2 ^ Zdigits2 x.
Proof.
  intros Hx. destruct x as [|p|p]; try lia. cbn [Zdigits2].
  split; [lia | apply digits2_pos_bounds].
Qed.

Lemma round_nearest_even_rec (N D : Z) :
  0 <= N -> 0 < D ->
  let m := round_nearest_even (shr_m (shr_rec N D)) (loc_of_shr_record (shr_rec N D)) in
  N / D <= m <= N / D + 1
  /\ 2 * Z.abs (m * D - N) <= D
  /\ (N mod D = 0 -> m * D = N).
Proof.
  intros HN HD. cbv zeta. unfold shr_rec. cbn [shr_m loc_of_shr_record].
  pose proof (Z.div_mod N D ltac:(lia)) as E1. pose proof (Z.mod_pos_bound N D HD) as B1.
  set (q := N / D) in *. set (r := N mod D) in *.
  destruct (Z.leb_spec D (2 * r)) as [Hr|Hr];
    destruct (Z.eqb_spec ((2 * r) mod D) 0) as [Hs|Hs]; cbn [negb round_nearest_even].
  - assert (2 * r = D) as Hhalf.
    { assert ((2 * r) mod D = 2 * r - D) as E by (symmetry; apply (Z.mod_unique _ _ 1); lia).
      lia. }
    destruct (Z.even q); repeat split; try lia; nia.
  - repeat split; try lia; nia.
  - rewrite Z.mod_small in Hs by lia. repeat split; try lia; nia.
  - repeat split; try lia; nia.
Qed.

Lemma fexp_normal (k : Z) : -1021 <= k -> fexp prec emax k = k - 53.
Proof. intros Hk. unfold fexp, emin, prec, emax. lia. Qed.

(** [binary_round_aux] on a quotient [N / D] that has at least 53 bits, in
    the range of the normal numbers: the result is a normal number
    [m3 * 2 ^ (e + n)], at most half a unit of its last place away from
    [N / D * 2 ^ e], and exact when the bits shifted out are all zero. *)
Lemma binary_round_aux_spec (s : bool) (N D e : Z) :
  0 < D ->
  2 ^ 52 <= N / D ->
  -1021 <= e + Zdigits2 (N / D) <= 1023 ->
  exists (m3 : positive) (n : Z),
    0 <= n <= Zdigits2 (N / D) - 52
    /\ 2 ^ 52 <= Zpos m3 < 2 ^ 53
    /\ binary_round_aux prec emax s (N / D) e (loc_of_shr_record (shr_rec N D))
       = S754_finite s m3 (e + n)
    /\ 2 * Z.abs (Zpos m3 * 2 ^ n * D - N) <= 2 ^ n * D
    /\ (N mod (2 ^ (Zdigits2 (N / D) - 53) * D) = 0 -> Zpos m3 * 2 ^ n * D = N).
Proof.
  intros HD Hm He.
  assert (0 <= N) as HN.
  { destruct (Z.le_gt_cases 0 N) as [|Hneg]; [assumption|].
    assert (N / D < 0) by (apply Z.div_lt_upper_bound; lia). lia. }
  destruct (Zdigits2_bounds (N / D) ltac:(lia)) as [Hd0 Hd].
  set (d := Zdigits2 (N / D)) in *.
  assert (53 <= d) as Hd53.
  { destruct (Z.le_gt_cases 53 d) as [|Hlt]; [assumption|].
    assert (2 ^ d <= 2 ^ 52) by (apply Z.pow_le_mono_r; lia). lia. }
  set (n1 := d - 53).
  assert (0 < 2 ^ n1) as Hn1 by (apply Z.pow_pos_nonneg; lia).
  set (D1 := 2 ^ n1 * D).
  assert (0 < D1) as HD1 by (subst D1; nia).
  assert (2 ^ 52 <= N / D1 < 2 ^ 53) as Hm1.
  { subst D1. rewrite (Z.mul_comm (2 ^ n1) D), <- Z.div_div by lia.
    assert (2 ^ (d - 1) = 2 ^ 52 * 2 ^ n1) as E1.
    { rewrite <- Z.pow_add_r by lia. f_equal. lia. }
    assert (2 ^ d = 2 ^ 53 * 2 ^ n1) as E2.
    { rewrite <- Z.pow_add_r by lia. f_equal. lia. }
    split.
    - apply Z.div_le_lower_bound; lia.
    - apply Z.div_lt_upper_bound; lia. }
  destruct (round_nearest_even_rec N D1 HN HD1) as (Hr1 & Hr2 & Hr3).
  set (m2 := round_nearest_even (shr_m (shr_rec N D1)) (loc_of_shr_record (shr_rec N D1))) in *.
  assert (binary_round_aux prec emax s (N / D) e (loc_of_shr_record (shr_rec N D))
          = let '(mrs, e2) := shr_fexp prec emax m2 (e + n1) loc_Exact in
            match shr_m mrs with
            | Z0 => S754_zero s
            | Zpos m => if e2 <=? emax - prec then S754_finite s m e2 else S754_infinity s
            | Zneg _ => S754_nan
            end) as ->.
  { unfold binary_round_aux, shr_fexp at 1.
    change (N / D) with (shr_m (shr_rec N D)) at 1.
    rewrite shr_rec_of_loc. cbn [shr_m shr_rec].
    fold d. rewrite fexp_normal by lia.
    replace (d + e - 53 - e) with n1 by (subst n1; lia).
    rewrite shr_shr_rec by lia. fold D1. reflexivity. }
  unfold shr_fexp. rewrite shr_rec_exact.
  destruct (Z.eq_dec m2 (2 ^ 53)) as [Hcarry | Hnocarry].
  - (* the mantissa was rounded up to 2^53 *)
    exists (Z.to_pos (2 ^ 52)), (n1 + 1).
    rewrite (Zdigits2_unique m2 54) by (try rewrite Hcarry; cbn; lia).
    rewrite fexp_normal by lia.
    replace (54 + (e + n1) - 53 - (e + n1)) with 1 by lia.
    rewrite shr_shr_rec by lia.
    cbn [shr_m shr_rec]. rewrite Hcarry.
    change (2 ^ 53 / (2 ^ 1 * 1)) with (Zpos (Z.to_pos (2 ^ 52))).
    cbv iota.
    replace (e + n1 + 1 <=? emax - prec) with true
      by (symmetry; apply Z.leb_le; unfold emax, prec; subst n1; lia).
    replace (e + (n1 + 1)) with (e + n1 + 1) by lia.
    assert (Zpos (Z.to_pos (2 ^ 52)) * 2 ^ (n1 + 1) = m2 * 2 ^ n1) as Em2.
    { rewrite Hcarry, Z.pow_add_r by lia. change (2 ^ 1) with 2.
      change (Zpos (Z.to_pos (2 ^ 52))) with (2 ^ 52). change (2 ^ 53) with (2 ^ 52 * 2). ring. }
    split; [subst n1; lia|]. split; [cbn; lia|]. split; [reflexivity|]. split.
    + rewrite Em2. subst D1.
      replace (m2 * 2 ^ n1 * D - N) with (m2 * (2 ^ n1 * D) - N) by ring.
      rewrite Z.pow_add_r by lia. change (2 ^ 1) with 2. nia.
    + intros Hex. rewrite Em2. fold n1 in Hex. fold D1 in Hex.
      rewrite <- (Hr3 Hex). subst D1. ring.
  - (* no carry *)
    assert (2 ^ 52 <= m2 < 2 ^ 53) as Hm2 by lia.
    exists (Z.to_pos m2), n1.
    rewrite (Zdigits2_unique m2 53) by (cbn; lia).
    rewrite fexp_normal by lia.
    replace (53 + (e + n1) - 53 - (e + n1)) with 0 by lia.
    rewrite shr_shr_rec by lia.
    cbn [shr_m shr_rec]. rewrite Z.pow_0_r, Z.mul_1_l, Z.div_1_r, Z.add_0_r.
    assert (Zpos (Z.to_pos m2) = m2) as Epos by (apply Z2Pos.id; lia).
    destruct m2 as [|p2|p2] eqn:Em2; try lia.
    replace (e + n1 <=? emax - prec) with true
      by (symmetry; apply Z.leb_le; unfold emax, prec; subst n1; lia).
    rewrite Epos.
    split; [subst n1; lia|]. split; [lia|]. split; [reflexivity|]. split.
    + subst D1. replace (Z.pos p2 * 2 ^ n1 * D - N) with (Z.pos p2 * (2 ^ n1 * D) - N) by ring.
      exact Hr2.
    + intros Hex. fold n1 in Hex. fold D1 in Hex. rewrite <- (Hr3 Hex). subst D1. ring.
Qed.

Lemma half_ulp_relative (m T D N : Z) :
  0 < D -> 0 < T -> 2 ^ 52 <= m ->
  2 * Z.abs (m * T * D - N) <= T * D ->
  2 ^ 53 * Z.abs (m * T * D - N) <= m * T * D.
Proof.
  intros HD HT Hm H.
  assert (0 < T * D) as HTD by nia.
  replace (m * T * D) with (m * (T * D)) in * by ring.
  change (2 ^ 53) with (2 ^ 52 * 2). change (2 ^ 52) with 4503599627370496 in *.
  set (X := T * D) in *. set (A := Z.abs (m * X - N)) in *. nia.
Qed.

Lemma iter_xO (m d : positive) : Zpos (Pos.iter xO m d) = Zpos m * 2 ^ Zpos d.
Proof.
  induction d as [|d IH] using Pos.peano_ind.
  - cbn. lia.
  - rewrite Pos.iter_succ, Pos2Z.inj_succ, Z.pow_succ_r by lia.
    change (Zpos (Pos.iter xO m d)~0) with (2 * Zpos (Pos.iter xO m d)). rewrite IH. ring.
Qed.

(** A 53-bit mantissa in range is left as it is. *)
Lemma binary_round_aux_exact (s : bool) (m : positive) (e : Z) :
  2 ^ 52 <= Zpos m < 2 ^ 53 -> -1074 <= e <= 970 ->
  binary_round_aux prec emax s (Zpos m) e loc_Exact = S754_finite s m e.
Proof.
  intros Hm He.
  assert (Zdigits2 (Zpos m) = 53) as Hd by (apply Zdigits2_unique; cbn; lia).
  destruct (binary_round_aux_spec s (Zpos m) 1 e) as (m3 & n & Hn & Hm3 & Hr & _ & Hex);
    rewrite ?Z.div_1_r; try lia.
  rewrite Z.div_1_r in *. rewrite Hd in *.
  specialize (Hex ltac:(apply Z.mod_1_r || (cbn; apply Z.mod_1_r))).
  replace (loc_of_shr_record (shr_rec (Zpos m) 1)) with loc_Exact in Hr
    by (unfold shr_rec; rewrite Z.mod_1_r; reflexivity).
  rewrite Hr.
  assert (n = 0) as ->.
  { destruct (Z.eq_dec n 0) as [|Hne]; [assumption|].
    assert (n = 1) as -> by lia. change (2 ^ 1) with 2 in Hex. lia. }
  rewrite Z.pow_0_r in Hex. rewrite Z.add_0_r. f_equal. lia.
Qed.

(** [float(w)] is exact below 2^53. *)
Lemma float_of_int_spec (w : Z) :
  0 < w < 2 ^ 53 ->
  exists (mw : positive) (a : Z),
    float_of_int w = Ok (S754_finite false mw (- a))
    /\ 0 <= a <= 52
    /\ 2 ^ 52 <= Zpos mw < 2 ^ 53
    /\ Zpos mw = w * 2 ^ a.
Proof.
  intros Hw. destruct w as [|p|p]; try lia.
  pose proof (digits2_pos_bounds p) as Hd.
  set (d := Zpos (digits2_pos p)) in *.
  assert (0 < d <= 53) as Hd53.
  { split; [subst d; lia|]. destruct (Z.le_gt_cases d 53) as [|Hgt]; [assumption|].
    assert (2 ^ 53 <= 2 ^ (d - 1)) by (apply Z.pow_le_mono_r; lia). lia. }
  unfold float_of_int, binary_normalize, binary_round.
  fold d. rewrite fexp_normal by lia. unfold shl_align.
  replace (d + 0 - 53 - 0) with (d - 53) by lia.
  destruct (d - 53) as [|q|q] eqn:Eq; try lia.
  - exists p, 0. rewrite binary_round_aux_exact by (replace d with 53 in Hd by lia; cbn in *; lia).
    cbn. replace d with 53 in Hd by lia. repeat split; try lia.
  - assert (Zpos (Pos.iter xO p q) = Zpos p * 2 ^ (53 - d)) as Em.
    { rewrite iter_xO. f_equal. f_equal. lia. }
    assert (2 ^ 52 <= Zpos (Pos.iter xO p q) < 2 ^ 53) as Hm.
    { rewrite Em.
      assert (2 ^ 52 = 2 ^ (d - 1) * 2 ^ (53 - d)) as ->
          by (rewrite <- Z.pow_add_r by lia; f_equal; lia).
      assert (2 ^ 53 = 2 ^ d * 2 ^ (53 - d)) as ->
          by (rewrite <- Z.pow_add_r by lia; f_equal; lia).
      assert (0 < 2 ^ (53 - d)) by (apply Z.pow_pos_nonneg; lia). nia. }
    exists (Pos.iter xO p q), (53 - d).
    replace (d + 0 - 53) with (- (53 - d)) by lia.
    rewrite binary_round_aux_exact by lia.
    repeat split; try lia.
Qed.

Lemma new_location_rec (N D : Z) :
  0 <= N -> 0 < D -> new_location D (N mod D) = loc_of_shr_record (shr_rec N D).
Proof.
  intros HN HD. unfold shr_rec. cbn [loc_of_shr_record].
  pose proof (Z.mod_pos_bound N D HD) as B. set (r := N mod D) in *.
  unfold new_location, new_location_even, new_location_odd.
  change (IntDef.Z.even D) with (Z.even D).
  assert (Z.even D = false -> 2 * r <> D) as Hodd.
  { intros Ev E. rewrite <- E, Z.even_mul in Ev. discriminate. }
  destruct (Z.leb_spec D (2 * r)) as [Hle | Hgt].
  - assert ((2 * r) mod D = 2 * r - D) as ->
        by (symmetry; apply (Z.mod_unique _ _ 1); lia).
    replace (r =? 0) with false by (symmetry; apply Z.eqb_neq; lia).
    destruct (Z.even D) eqn:Ev.
    + replace (r =? 0) with false by (symmetry; apply Z.eqb_neq; lia).
      destruct (Z.compare_spec (2 * r) D) as [Heq | Hlt | Hgt]; try lia.
      * replace (2 * r - D =? 0) with true by (symmetry; apply Z.eqb_eq; lia). reflexivity.
      * replace (2 * r - D =? 0) with false by (symmetry; apply Z.eqb_neq; lia). reflexivity.
    + specialize (Hodd eq_refl).
      replace (r =? 0) with false by (symmetry; apply Z.eqb_neq; lia).
      replace (2 * r - D =? 0) with false by (symmetry; apply Z.eqb_neq; lia).
      destruct (Z.compare_spec (2 * r + 1) D); try lia. reflexivity.
  - rewrite Z.mod_small by lia.
    destruct (Z.eqb_spec r 0) as [E0 | Hr].
    + replace (2 * r =? 0) with true by (symmetry; apply Z.eqb_eq; lia).
      destruct (Z.even D); rewrite E0; reflexivity.
    + replace (2 * r =? 0) with false by (symmetry; apply Z.eqb_neq; lia).
      destruct (Z.even D) eqn:Ev.
      * replace (r =? 0) with false by (symmetry; apply Z.eqb_neq; lia).
        destruct (Z.compare_spec (2 * r) D); try lia. reflexivity.
      * replace (r =? 0) with false by (symmetry; apply Z.eqb_neq; lia).
        destruct (Z.compare_spec (2 * r + 1) D); try lia; reflexivity.
Qed.

(** [a / b] on two positive integers below 2^53: the quotient, rounded. *)
Lemma int_true_div_spec (a b : Z) :
  0 < a < 2 ^ 53 -> 0 < b < 2 ^ 53 ->
  exists (mq : positive) (sft n : Z),
    int_true_div a b = Ok (S754_finite false mq (n - sft))
    /\ 2 ^ 52 <= Zpos mq < 2 ^ 53
    /\ 0 < sft <= 105
    /\ 0 <= n <= 2
    /\ 2 ^ 53 * Z.abs (Zpos mq * 2 ^ n * b - a * 2 ^ sft) <= Zpos mq * 2 ^ n * b.
Proof.
  intros Ha Hb.
  destruct a as [|pa|pa]; try lia. destruct b as [|pb|pb]; try lia.
  destruct (Zdigits2_bounds (Zpos pa) ltac:(lia)) as [Hda0 Hda].
  destruct (Zdigits2_bounds (Zpos pb) ltac:(lia)) as [Hdb0 Hdb].
  set (d1 := Zdigits2 (Zpos pa)) in *. set (d2 := Zdigits2 (Zpos pb)) in *.
  assert (d1 <= 53 /\ d2 <= 53) as [Hd1 Hd2].
  { split.
    - destruct (Z.le_gt_cases d1 53) as [|Hgt]; [assumption|].
      assert (2 ^ 53 <= 2 ^ (d1 - 1)) by (apply Z.pow_le_mono_r; lia). lia.
    - destruct (Z.le_gt_cases d2 53) as [|Hgt]; [assumption|].
      assert (2 ^ 53 <= 2 ^ (d2 - 1)) by (apply Z.pow_le_mono_r; lia). lia. }
  set (sft := 53 + d2 - d1).
  set (N := Zpos pa * 2 ^ sft).
  assert (0 < 2 ^ sft) as Hs by (apply Z.pow_pos_nonneg; subst sft; lia).
  assert (2 ^ 52 * Zpos pb <= N < 2 ^ 54 * Zpos pb) as HN.
  { subst N.
    assert (2 ^ (d1 - 1) * 2 ^ sft = 2 ^ 52 * 2 ^ d2) as E1.
    { rewrite <- !Z.pow_add_r by (subst sft; lia). f_equal. subst sft. lia. }
    assert (2 ^ d1 * 2 ^ sft = 2 ^ 54 * 2 ^ (d2 - 1)) as E2.
    { rewrite <- !Z.pow_add_r by (subst sft; lia). f_equal. subst sft. lia. }
    split; nia. }
  assert (2 ^ 52 <= N / Zpos pb < 2 ^ 54) as Hq.
  { split; [apply Z.div_le_lower_bound | apply Z.div_lt_upper_bound]; lia. }
  assert (53 <= Zdigits2 (N / Zpos pb) <= 54) as Hdq.
  { destruct (Zdigits2_bounds (N / Zpos pb) ltac:(lia)) as [H0 H1].
    set (dq := Zdigits2 (N / Zpos pb)) in *. split.
    - destruct (Z.le_gt_cases 53 dq) as [|Hlt]; [assumption|].
      assert (2 ^ dq <= 2 ^ 52) by (apply Z.pow_le_mono_r; lia). lia.
    - destruct (Z.le_gt_cases dq 54) as [|Hgt]; [assumption|].
      assert (2 ^ 54 <= 2 ^ (dq - 1)) by (apply Z.pow_le_mono_r; lia). lia. }
  destruct (binary_round_aux_spec false N (Zpos pb) (- sft)) as (m3 & n & Hn & Hm3 & Hr & Hb3 & _);
    try (subst sft; lia).
  exists m3, sft, n.
  split; [| split; [exact Hm3 | split; [subst sft; lia | split; [lia |]]]].
  - unfold int_true_div.
    change (Z.pos pb =? 0) with false. change (Z.pos pa =? 0) with false.
    change (Z.pos pa <? 0) with false. change (Z.pos pb <? 0) with false.
    change (Z.to_pos (Z.abs (Z.pos pa))) with pa.
    change (Z.to_pos (Z.abs (Z.pos pb))) with pb.
    unfold fdiv, SFdiv, SFdiv_core_binary. cbv zeta. fold d1 d2.
    rewrite fexp_normal by lia.
    replace (Z.min (d1 + 0 - (d2 + 0) - 53) (0 - 0)) with (- sft) by (subst sft; lia).
    replace (0 - 0 - - sft) with sft by lia.
    destruct sft as [|ps|ps] eqn:Es; try lia.
    rewrite Z.shiftl_mul_pow2 by lia. fold N.
    pose proof (Z_div_mod_full N (Zpos pb) ltac:(lia)) as Hde.
    unfold Z.div, Z.modulo in Hr, Hde |- *.
    pose proof (new_location_rec N (Zpos pb) ltac:(lia) ltac:(lia)) as Hloc.
    unfold Z.modulo in Hloc.
    destruct (Z.div_eucl N (Zpos pb)) as [q r].
    rewrite Hloc. cbn [xorb]. rewrite Hr.
    replace (- Zpos ps + n) with (n - Zpos ps) by lia. reflexivity.
  - apply half_ulp_relative; first [lia | apply Z.pow_pos_nonneg; lia].
Qed.

(** [w * q] for a positive integer below 2^53 and a positive normal float:
    the integer is converted exactly and the product rounded. *)
Lemma mul_int_float_spec (w : Z) (mq : positive) (eq : Z) :
  0 < w < 2 ^ 53 ->
  2 ^ 52 <= Zpos mq < 2 ^ 53 ->
  -500 <= eq <= 500 ->
  exists (mp : positive) (a n : Z),
    mul (Int w) (Float (S754_finite false mq eq))
      = Ok (Float (S754_finite false mp (eq - a + n)))
    /\ 0 <= a <= 52
    /\ 0 <= n <= 54
    /\ 2 ^ 52 <= Zpos mp < 2 ^ 53
    /\ 2 ^ 53 * Z.abs (Zpos mp * 2 ^ n - w * 2 ^ a * Zpos mq) <= Zpos mp * 2 ^ n.
Proof.
  intros Hw Hmq Heq.
  destruct (float_of_int_spec w Hw) as (mw & a & Hfw & Ha & Hmw & Emw).
  set (N := Zpos mw * Zpos mq).
  assert (2 ^ 104 <= N < 2 ^ 106) as HN.
  { subst N. change (2 ^ 104) with (2 ^ 52 * 2 ^ 52). change (2 ^ 106) with (2 ^ 53 * 2 ^ 53).
    nia. }
  assert (105 <= Zdigits2 N <= 106) as Hd.
  { destruct (Zdigits2_bounds N ltac:(lia)) as [H0 H1].
    set (d := Zdigits2 N) in *. split.
    - destruct (Z.le_gt_cases 105 d) as [|Hlt]; [assumption|].
      assert (2 ^ d <= 2 ^ 104) by (apply Z.pow_le_mono_r; lia). lia.
    - destruct (Z.le_gt_cases d 106) as [|Hgt]; [assumption|].
      assert (2 ^ 106 <= 2 ^ (d - 1)) by (apply Z.pow_le_mono_r; lia). lia. }
  assert (2 ^ 52 <= N / 1) as H52.
  { rewrite Z.div_1_r. assert (2 ^ 52 <= 2 ^ 104) by (apply Z.pow_le_mono_r; lia). lia. }
  assert (-1021 <= - a + eq + Zdigits2 (N / 1) <= 1023) as Hrange
      by (rewrite Z.div_1_r; lia).
  destruct (binary_round_aux_spec false N 1 (- a + eq) ltac:(lia) H52 Hrange)
    as (mp & n & Hn & Hmp & Hr & Hb & _).
  rewrite Z.div_1_r in Hn, Hr.
  replace (loc_of_shr_record (shr_rec N 1)) with loc_Exact in Hr
    by (unfold shr_rec; rewrite Z.mod_1_r; reflexivity).
  exists mp, a, n.
  split; [| split; [lia | split; [lia | split; [exact Hmp |]]]].
  - unfold mul, arith, as_float. rewrite Hfw. cbn [mbind result_bind].
    unfold fmul, SFmul. cbn [xorb].
    change (Zpos (mw * mq)) with N. rewrite Hr.
    repeat f_equal. lia.
  - replace (w * 2 ^ a * Zpos mq) with N by (subst N; rewrite Emw; ring).
    pose proof (half_ulp_relative (Zpos mp) (2 ^ n) 1 N) as H.
    rewrite !Z.mul_1_r in H. apply H; first [lia | apply Z.pow_pos_nonneg; lia].
Qed.

(** [int(p)] of a positive float. *)
Lemma int_of_float_pos (m : positive) (e : Z) :
  int_of_float (S754_finite false m e)
  = Ok (if 0 <=? e then Zpos m * 2 ^ e else Zpos m / 2 ^ (- e)).
Proof.
  cbn. f_equal. destruct (Z.leb_spec 0 e).
  - apply Z.shiftl_mul_pow2. lia.
  - apply Z.shiftl_div_pow2. lia.
Qed.

(** ** The value of a float and the error of one operation *)

Lemma Qpow2_pos (e : Z) : (0 < 2 ^ e)%Q.
Proof. apply Qpower_0_lt. reflexivity. Qed.

Lemma Qpow2_inject (n : Z) : 0 <= n -> (inject_Z (2 ^ n) == 2 ^ n)%Q.
Proof. intros Hn. rewrite Zpower_Qpower by exact Hn. reflexivity. Qed.

Lemma Qpow2_add (a b : Z) : (2 ^ (a + b) == 2 ^ a * 2 ^ b)%Q.
Proof. apply Qpower_plus. discriminate. Qed.

Lemma Qpow2_cancel (a : Z) : (2 ^ a * 2 ^ (- a) == 1)%Q.
Proof. rewrite <- Qpow2_add. replace (a + - a) with 0 by lia. reflexivity. Qed.

(** From an error bound on integers to one on rationals: [v] and [x] are
    [F] and [N] up to the common positive scale [S]. *)
Lemma rel_error_Q (F N : Z) (v x S : Q) :
  (0 < S)%Q ->
  (v * S == inject_Z F)%Q ->
  (x * S == inject_Z N)%Q ->
  2 ^ 53 * Z.abs (F - N) <= F ->
  (v * (1 - ulp_half) <= x /\ x <= v * (1 + ulp_half))%Q.
Proof.
  intros HS Hv Hx Hb.
  assert (2 ^ 53 * F <= F + 2 ^ 53 * N /\ 2 ^ 53 * N <= F + 2 ^ 53 * F) as [H1 H2] by lia.
  rewrite Zle_Qle in H1, H2.
  rewrite inject_Z_plus, !inject_Z_mult, <- Hv, <- Hx in H1, H2.
  change (inject_Z (2 ^ 53)) with (9007199254740992 # 1)%Q in H1, H2.
  unfold ulp_half.
  split.
  - apply (Qmult_le_r _ _ S HS). lra.
  - apply (Qmult_le_r _ _ S HS). lra.
Qed.

Lemma normal_pos (f : spec_float) : normal f -> (0 < F2Q f)%Q.
Proof.
  intros (m & e & -> & Hm & He). cbn [F2Q cond_Zopp].
  apply Qmult_lt_0_compat; [|apply Qpow2_pos].
  change 0%Q with (inject_Z 0). rewrite <- Zlt_Qlt. lia.
Qed.

Lemma true_div_Q (a b : Z) :
  0 < a < 2 ^ 53 -> 0 < b < 2 ^ 53 ->
  exists q,
    int_true_div a b = Ok q
    /\ normal q
    /\ (F2Q q * inject_Z b * (1 - ulp_half) <= inject_Z a)%Q
    /\ (inject_Z a <= F2Q q * inject_Z b * (1 + ulp_half))%Q.
Proof.
  intros Ha Hb.
  destruct (int_true_div_spec a b Ha Hb) as (mq & sft & n & Hq & Hmq & Hsft & Hn & Herr).
  exists (S754_finite false mq (n - sft)). split; [exact Hq|]. split.
  - exists mq, (n - sft). repeat split; lia.
  - apply (rel_error_Q (Zpos mq * 2 ^ n * b) (a * 2 ^ sft) _ _ (2 ^ sft)%Q).
    + apply Qpow2_pos.
    + cbn [F2Q cond_Zopp]. rewrite !inject_Z_mult, Qpow2_inject by lia.
      unfold Z.sub. rewrite Qpow2_add.
      transitivity (inject_Z (Zpos mq) * 2 ^ n * inject_Z b * (2 ^ (- sft) * 2 ^ sft))%Q;
        [ring|].
      rewrite (Qmult_comm (2 ^ (- sft))), Qpow2_cancel. ring.
    + rewrite inject_Z_mult, Qpow2_inject by lia. reflexivity.
    + exact Herr.
Qed.

Lemma mul_Q (w : Z) (q : spec_float) :
  0 < w < 2 ^ 53 -> normal q ->
  exists (m : positive) (e : Z),
    mul (Int w) (Float q) = Ok (Float (S754_finite false m e))
    /\ (F2Q (S754_finite false m e) * (1 - ulp_half) <= inject_Z w * F2Q q)%Q
    /\ (inject_Z w * F2Q q <= F2Q (S754_finite false m e) * (1 + ulp_half))%Q.
Proof.
  intros Hw (mq & eq & -> & Hmq & Heq).
  destruct (mul_int_float_spec w mq eq Hw Hmq Heq) as (mp & a & n & Hp & Ha & Hn & Hmp & Herr).
  exists mp, (eq - a + n). split; [exact Hp|].
  apply (rel_error_Q (Zpos mp * 2 ^ n) (w * 2 ^ a * Zpos mq) _ _ (2 ^ (a - eq))%Q).
  - apply Qpow2_pos.
  - cbn [F2Q cond_Zopp]. rewrite inject_Z_mult, Qpow2_inject by lia.
    rewrite <- Qmult_assoc, <- Qpow2_add.
    replace (eq - a + n + (a - eq)) with n by lia. reflexivity.
  - cbn [F2Q cond_Zopp]. rewrite !inject_Z_mult, Qpow2_inject by lia.
    unfold Z.sub at 1. rewrite Qpow2_add.
    transitivity (inject_Z w * 2 ^ a * inject_Z (Zpos mq) * (2 ^ eq * 2 ^ (- eq)))%Q;
      [ring|].
    rewrite Qpow2_cancel. ring.
  - exact Herr.
Qed.

Lemma to_int_Q (m : positive) (e : Z) :
  exists n,
    to_int (Float (S754_finite false m e)) = Ok n
    /\ (inject_Z n <= F2Q (S754_finite false m e))%Q
    /\ (F2Q (S754_finite false m e) < inject_Z n + 1)%Q.
Proof.
  cbn [to_int]. rewrite int_of_float_pos. cbn [F2Q cond_Zopp].
  destruct (Z.leb_spec 0 e) as [He|He].
  - exists (Zpos m * 2 ^ e). split; [reflexivity|].
    rewrite inject_Z_mult, Qpow2_inject by lia. split; lra.
  - exists (Zpos m / 2 ^ (- e)). split; [reflexivity|].
    assert (0 < 2 ^ (- e)) as Hp by (apply Z.pow_pos_nonneg; lia).
    pose proof (Z.div_mod (Zpos m) (2 ^ (- e)) ltac:(lia)) as Hdm.
    pose proof (Z.mod_pos_bound (Zpos m) (2 ^ (- e)) Hp) as Hb.
    set (n := Zpos m / 2 ^ (- e)) in *.
    assert (n * 2 ^ (- e) <= Zpos m < (n + 1) * 2 ^ (- e)) as [H1 H2] by lia.
    rewrite Zle_Qle in H1. rewrite Zlt_Qlt in H2.
    rewrite !inject_Z_mult, Qpow2_inject in H1 by lia.
    rewrite !inject_Z_mult, inject_Z_plus, Qpow2_inject in H2 by lia.
    pose proof (Qpow2_pos e) as Hpe. pose proof (Qpow2_cancel e) as Hc.
    rewrite Qmult_comm in Hc.
    split.
    + apply (Qmult_le_r _ _ (2 ^ (- e))%Q (Qpow2_pos _)).
      rewrite <- Qmult_assoc, (Qmult_comm (2 ^ e)), Hc. lra.
    + apply (Qmult_lt_r _ _ (2 ^ (- e))%Q (Qpow2_pos _)).
      rewrite <- Qmult_assoc, (Qmult_comm (2 ^ e)), Hc.
      change (inject_Z 1) with 1%Q in H2. lra.
Qed.

Lemma normal_exponent_lt (m1 m2 : positive) (e1 e2 : Z) :
  2 ^ 52 <= Zpos m1 < 2 ^ 53 -> 2 ^ 52 <= Zpos m2 < 2 ^ 53 -> e1 < e2 ->
  (F2Q (S754_finite false m1 e1) <= F2Q (S754_finite false m2 e2))%Q.
Proof.
  intros H1 H2 He. cbn [F2Q cond_Zopp].
  replace e2 with (e1 + (e2 - e1)) by lia. rewrite Qpow2_add.
  rewrite <- (Qpow2_inject (e2 - e1) ltac:(lia)).
  assert (2 <= 2 ^ (e2 - e1)) as Hp.
  { change 2 with (2 ^ 1) at 1. apply Z.pow_le_mono_r; lia. }
  assert (Zpos m1 <= Zpos m2 * 2 ^ (e2 - e1)) as Hz.
  { change (2 ^ 53) with (2 ^ 52 * 2) in H1. nia. }
  rewrite Zle_Qle, inject_Z_mult in Hz.
  pose proof (Qpow2_pos e1) as Hpe.
  rewrite (Qmult_comm (2 ^ e1)), Qmult_assoc.
  apply Qmult_le_compat_r; [exact Hz | lra].
Qed.

Lemma SFltb_Q (q1 q2 : spec_float) :
  normal q1 -> normal q2 ->
  if SFltb q1 q2 then (F2Q q1 <= F2Q q2)%Q else (F2Q q2 <= F2Q q1)%Q.
Proof.
  intros (m1 & e1 & -> & Hm1 & He1) (m2 & e2 & -> & Hm2 & He2).
  unfold SFltb, SFcompare.
  destruct (Z.compare_spec e1 e2) as [-> | Hlt | Hgt].
  - rewrite Pos.compare_cont_spec. cbn [Pos.switch_Eq].
    pose proof (Qpow2_pos e2) as Hpe.
    destruct (Pos.compare_spec m1 m2) as [-> | Hlt | Hgt];
      cbn [Pos.switch_Eq]; cbv beta iota; cbn [F2Q cond_Zopp].
    + apply Qle_refl.
    + apply Qmult_le_compat_r; [| lra]. rewrite <- Zle_Qle. lia.
    + apply Qmult_le_compat_r; [| lra]. rewrite <- Zle_Qle. lia.
  - cbv beta iota. apply normal_exponent_lt; assumption.
  - cbv beta iota. apply normal_exponent_lt; assumption.
Qed.

(** [int(x * q)] for a positive integer and a positive normal float: [x * q]
    rounded down, up to the rounding of the product. *)
Lemma scale_Q (x : Z) (q : spec_float) :
  0 < x < 2 ^ 53 -> normal q ->
  exists n,
    (p ← mul (Int x) (Float q); to_int p) = Ok n
    /\ 0 <= n
    /\ (inject_Z n * (1 - ulp_half) <= inject_Z x * F2Q q)%Q
    /\ (inject_Z x * F2Q q < (inject_Z n + 1) * (1 + ulp_half))%Q.
Proof.
  intros Hx Hq.
  destruct (mul_Q x q Hx Hq) as (m & e & Hp & Hlo & Hhi).
  destruct (to_int_Q m e) as (n & Hn & Hfl & Hce).
  exists n. rewrite Hp. cbn [mbind result_bind]. split; [exact Hn|].
  pose proof (normal_pos q Hq) as Hqpos.
  assert (0 < inject_Z x)%Q as Hxpos.
  { change 0%Q with (inject_Z 0). rewrite <- Zlt_Qlt. lia. }
  assert (0 < inject_Z x * F2Q q)%Q as Hprod by (apply Qmult_lt_0_compat; assumption).
  set (P := F2Q (S754_finite false m e)) in *. set (Y := (inject_Z x * F2Q q)%Q) in *.
  unfold ulp_half in *.
  split; [| split]; try lra.
  assert (-1 < n) as Hz; [| lia].
  rewrite Zlt_Qlt. change (inject_Z (-1)) with (-1)%Q. lra.
Qed.

Lemma inject_Z_bounds (x b : Z) : 0 < x < b -> (0 < inject_Z x /\ inject_Z x <= inject_Z b - 1)%Q.
Proof.
  intros H. split.
  - change 0%Q with (inject_Z 0). rewrite <- Zlt_Qlt. lia.
  - change 1%Q with (inject_Z 1). unfold Qminus. rewrite <- inject_Z_opp, <- inject_Z_plus.
    rewrite <- Zle_Qle. lia.
Qed.

(** From the rational bounds back to the integers. *)
Lemma fits_below (n s : Z) (Y : Q) :
  0 < s < 2 ^ 31 ->
  (inject_Z n * (1 - ulp_half) <= Y)%Q ->
  (Y * (1 - ulp_half) <= inject_Z s)%Q ->
  n <= s.
Proof.
  intros Hs H1 H2.
  destruct (Z.le_gt_cases n s) as [|Hgt]; [assumption|exfalso].
  assert (s + 1 <= n) as Hn by lia. rewrite Zle_Qle, inject_Z_plus in Hn.
  change (inject_Z 1) with 1%Q in Hn.
  destruct (inject_Z_bounds s (2 ^ 31) Hs) as [Hs0 Hs1].
  change (inject_Z (2 ^ 31)) with 2147483648%Q in Hs1.
  unfold ulp_half in *. nra.
Qed.

Lemma within_one (n s : Z) (Y : Q) :
  0 < s < 2 ^ 31 ->
  (Y < (inject_Z n + 1) * (1 + ulp_half))%Q ->
  (inject_Z s <= Y * (1 + ulp_half))%Q ->
  s - 1 <= n.
Proof.
  intros Hs H1 H2.
  destruct (Z.le_gt_cases (s - 1) n) as [|Hgt]; [assumption|exfalso].
  assert (n + 2 <= s) as Hn by lia.
  rewrite Zle_Qle, inject_Z_plus in Hn.
  change (inject_Z 2) with 2%Q in Hn.
  destruct (inject_Z_bounds s (2 ^ 31) Hs) as [Hs0 Hs1].
  change (inject_Z (2 ^ 31)) with 2147483648%Q in Hs1.
  unfold ulp_half in *. nra.
Qed.

(** ** C3: resizing with the ratio kept *)

(** What one branch of [keep_ratio_size] computes from the quotient [q] it
    picked: both sides scaled by [q] and truncated. *)
Lemma scaled_pair (w h s0 s1 : Z) (q : spec_float) :
  0 < w < 2 ^ 31 -> 0 < h < 2 ^ 31 -> 0 < s0 < 2 ^ 31 -> 0 < s1 < 2 ^ 31 ->
  normal q ->
  (F2Q q * inject_Z w * (1 - ulp_half) <= inject_Z s0)%Q ->
  (F2Q q * inject_Z h * (1 - ulp_half) <= inject_Z s1)%Q ->
  (inject_Z s0 <= F2Q q * inject_Z w * (1 + ulp_half)
   \/ inject_Z s1 <= F2Q q * inject_Z h * (1 + ulp_half))%Q ->
  exists nw nh,
    (p ← mul (Int w) (Float q); to_int p) = Ok nw
    /\ (p ← mul (Int h) (Float q); to_int p) = Ok nh
    /\ 0 <= nw <= s0 /\ 0 <= nh <= s1
    /\ (s0 - 1 <= nw \/ s1 - 1 <= nh)
    /\ 9007199254740991 * (nw * h) < 9007199254740993 * ((nh + 1) * w)
    /\ 9007199254740991 * (nh * w) < 9007199254740993 * ((nw + 1) * h).
Proof.
  intros Hw Hh Hs0 Hs1 Hq Hfit0 Hfit1 Hone.
  destruct (scale_Q w q ltac:(lia) Hq) as (nw & Enw & Hnw0 & Hnwlo & Hnwhi).
  destruct (scale_Q h q ltac:(lia) Hq) as (nh & Enh & Hnh0 & Hnhlo & Hnhhi).
  exists nw, nh. split; [exact Enw|]. split; [exact Enh|].
  pose proof (normal_pos q Hq) as Hqpos.
  destruct (inject_Z_bounds w (2 ^ 31) Hw) as [Hw0 _].
  destruct (inject_Z_bounds h (2 ^ 31) Hh) as [Hh0 _].
  assert (F2Q q * inject_Z w == inject_Z w * F2Q q)%Q as Ew by ring.
  assert (F2Q q * inject_Z h == inject_Z h * F2Q q)%Q as Eh by ring.
  rewrite Ew in Hfit0. rewrite Eh in Hfit1. rewrite Ew, Eh in Hone.
  split; [split; [exact Hnw0|]|].
  { eapply (fits_below nw s0); eauto. }
  split; [split; [exact Hnh0|]|].
  { eapply (fits_below nh s1); eauto. }
  split.
  { destruct Hone as [H|H]; [left|right].
    - eapply (within_one nw s0); eauto.
    - eapply (within_one nh s1); eauto. }
  assert (0 <= inject_Z nw)%Q as Hnwq.
  { change 0%Q with (inject_Z 0). rewrite <- Zle_Qle. exact Hnw0. }
  assert (0 <= inject_Z nh)%Q as Hnhq.
  { change 0%Q with (inject_Z 0). rewrite <- Zle_Qle. exact Hnh0. }
  split.
  - rewrite Zlt_Qlt, !inject_Z_mult, !inject_Z_plus.
    change (inject_Z 9007199254740991) with 9007199254740991%Q.
    change (inject_Z 9007199254740993) with 9007199254740993%Q.
    change (inject_Z 1) with 1%Q.
    assert (inject_Z nw * (1 - ulp_half) * inject_Z h
            <= inject_Z w * F2Q q * inject_Z h)%Q as A
      by (apply Qmult_le_compat_r; [exact Hnwlo | apply Qlt_le_weak, Hh0]).
    assert (inject_Z h * F2Q q * inject_Z w
            < (inject_Z nh + 1) * (1 + ulp_half) * inject_Z w)%Q as C
      by (apply Qmult_lt_compat_r; [exact Hw0 | exact Hnhhi]).
    assert (inject_Z w * F2Q q * inject_Z h == inject_Z h * F2Q q * inject_Z w)%Q as E by ring.
    rewrite E in A. unfold ulp_half in *.
    set (X := (inject_Z h * F2Q q * inject_Z w)%Q) in *.
    set (U := (inject_Z nw * inject_Z h)%Q).
    set (V := ((inject_Z nh + 1) * inject_Z w)%Q).
    assert (inject_Z nw * (1 - (1 # 9007199254740992)) * inject_Z h
            == U * (1 - (1 # 9007199254740992)))%Q as E1 by (unfold U; ring).
    assert ((inject_Z nh + 1) * (1 + (1 # 9007199254740992)) * inject_Z w
            == V * (1 + (1 # 9007199254740992)))%Q as E2 by (unfold V; ring).
    rewrite E1 in A. rewrite E2 in C. lra.
  - rewrite Zlt_Qlt, !inject_Z_mult, !inject_Z_plus.
    change (inject_Z 9007199254740991) with 9007199254740991%Q.
    change (inject_Z 9007199254740993) with 9007199254740993%Q.
    change (inject_Z 1) with 1%Q.
    assert (inject_Z nh * (1 - ulp_half) * inject_Z w
            <= inject_Z h * F2Q q * inject_Z w)%Q as A
      by (apply Qmult_le_compat_r; [exact Hnhlo | apply Qlt_le_weak, Hw0]).
    assert (inject_Z w * F2Q q * inject_Z h
            < (inject_Z nw + 1) * (1 + ulp_half) * inject_Z h)%Q as C
      by (apply Qmult_lt_compat_r; [exact Hh0 | exact Hnwhi]).
    assert (inject_Z h * F2Q q * inject_Z w == inject_Z w * F2Q q * inject_Z h)%Q as E by ring.
    rewrite E in A. unfold ulp_half in *.
    set (X := (inject_Z w * F2Q q * inject_Z h)%Q) in *.
    set (U := (inject_Z nh * inject_Z w)%Q).
    set (V := ((inject_Z nw + 1) * inject_Z h)%Q).
    assert (inject_Z nh * (1 - (1 # 9007199254740992)) * inject_Z w
            == U * (1 - (1 # 9007199254740992)))%Q as E1 by (unfold U; ring).
    assert ((inject_Z nw + 1) * (1 + (1 # 9007199254740992)) * inject_Z h
            == V * (1 + (1 # 9007199254740992)))%Q as E2 by (unfold V; ring).
    rewrite E1 in A. rewrite E2 in C. lra.
Qed.

(** The size [resize] asks of Pillow when the ratio is kept. *)
Lemma keep_ratio_size_bounds (s0 s1 w h : Z) :
  0 < w < 2 ^ 31 -> 0 < h < 2 ^ 31 -> 0 < s0 < 2 ^ 31 -> 0 < s1 < 2 ^ 31 ->
  exists nw nh,
    keep_ratio_size (Int s0, Int s1) w h = Ok (nw, nh)
    /\ 0 <= nw <= s0 /\ 0 <= nh <= s1
    /\ (s0 - 1 <= nw \/ s1 - 1 <= nh)
    /\ 9007199254740991 * (nw * h) < 9007199254740993 * ((nh + 1) * w)
    /\ 9007199254740991 * (nh * w) < 9007199254740993 * ((nw + 1) * h).
Proof.
  intros Hw Hh Hs0 Hs1.
  destruct (true_div_Q s0 w ltac:(lia) ltac:(lia)) as (wq & Ewq & Nwq & Wlo & Whi).
  destruct (true_div_Q s1 h ltac:(lia) ltac:(lia)) as (hq & Ehq & Nhq & Hlo & Hhi).
  pose proof (SFltb_Q wq hq Nwq Nhq) as Hcmp.
  pose proof (normal_pos wq Nwq) as Hwqpos. pose proof (normal_pos hq Nhq) as Hhqpos.
  destruct (inject_Z_bounds w (2 ^ 31) Hw) as [Hw0 _].
  destruct (inject_Z_bounds h (2 ^ 31) Hh) as [Hh0 _].
  unfold keep_ratio_size. cbn [fst snd truediv]. rewrite Ewq, Ehq. cbn [mbind result_bind].
  destruct (SFltb wq hq).
  - destruct (scaled_pair w h s0 s1 wq Hw Hh Hs0 Hs1 Nwq)
      as (nw & nh & Enw & Enh & Hrest).
    + exact Wlo.
    + apply Qle_trans with (F2Q hq * inject_Z h * (1 - ulp_half))%Q; [|exact Hlo].
      apply Qmult_le_compat_r; [|unfold ulp_half; lra].
      apply Qmult_le_compat_r; [exact Hcmp | apply Qlt_le_weak, Hh0].
    + left. exact Whi.
    + exists nw, nh. rewrite Enw. cbn [mbind result_bind]. rewrite Enh. cbn [mbind result_bind].
      split; [reflexivity | exact Hrest].
  - destruct (scaled_pair w h s0 s1 hq Hw Hh Hs0 Hs1 Nhq)
      as (nw & nh & Enw & Enh & Hrest).
    + apply Qle_trans with (F2Q wq * inject_Z w * (1 - ulp_half))%Q; [|exact Wlo].
      apply Qmult_le_compat_r; [|unfold ulp_half; lra].
      apply Qmult_le_compat_r; [exact Hcmp | apply Qlt_le_weak, Hw0].
    + exact Hlo.
    + right. exact Hhi.
    + exists nw, nh. rewrite Enw. cbn [mbind result_bind]. rewrite Enh. cbn [mbind result_bind].
      split; [reflexivity | exact Hrest].
Qed.

(** [resize] with [keep_ratio=True], once the size asked of Pillow is known. *)
Lemma resize_keep_ratio_run (B : Backend) (w : world) (self l : ref) (im : Image)
      (size : num * num) (nw nh : Z) :
  wrappers w !! self = Some l -> images w !! l = Some im ->
  keep_ratio_size size (width im) (height im) = Ok (nw, nh) ->
  resize B self size true w
  = let l' := fresh (dom (images w)) in
    if (nw =? width im) && (nh =? height im)
    then if refused w (width im) (height im)
         then (Raise MemoryError, w)
         else (Ok self, with_wrapper (with_image w l' im) self l')
    else if negb (fits_int nw && fits_int nh)
         then (Raise OverflowError, w)
         else if (nw <? 1) || (nh <? 1)
         then (Raise (ValueError "height and width must be > 0"), w)
         else if refused w nw nh
         then (Raise MemoryError, w)
         else (Ok self,
               with_wrapper
                 (with_image w l' {| mode := mode im; width := nw; height := nh;
                                     pix := resample B im nw nh |}) self l').
Proof.
  intros Hs Hl Hk. unfold resize.
  rewrite bind_run, (attr_width_run _ _ _ _ Hs Hl).
  rewrite bind_run, (attr_height_run _ _ _ _ Hs Hl).
  rewrite lift_bind_run, Hk.
  rewrite bind_run, (image_run _ _ _ Hs).
  unfold Image_resize.
  rewrite !bind_run, (get_image_run _ _ _ Hl).
  cbn [fst snd PyNum.eq].
  destruct ((nw =? width im) && (nh =? height im)) eqn:Esame.
  - unfold Image.copy. rewrite bind_run, (get_image_run _ _ _ Hl).
    unfold allocate. destruct (refused w (width im) (height im)); reflexivity.
  - destruct (negb (fits_int nw && fits_int nh)); [reflexivity|].
    destruct ((nw <? 1) || (nh <? 1)); [reflexivity|].
    unfold allocate. cbn [width height].
    destruct (refused w nw nh); reflexivity.
Qed.

(** A size below [2 ^ 31] fits a C [int]. *)
Lemma fits_int_below (z : Z) : 0 <= z < 2 ^ 31 -> fits_int z = true.
Proof.
  intros H. unfold fits_int, INT_MAX.
  apply andb_true_iff. rewrite !Z.leb_le. lia.
Qed.




(** ** C1: the padding [draw_image] asks for *)

(** A box of integers with an edge outside the canvas: the canvas is padded
    by [add_padding(abs(left), abs(top), right, bottom)], then the content
    is placed. *)
Lemma draw_image_pads_first (B : Backend) (w : world) (self l : ref) (im : Image)
      (img : content) (b0 b1 b2 b3 : Z) :
  wrappers w !! self = Some l -> images w !! l = Some im ->
  b0 < 0 \/ b1 < 0 \/ width im < b2 \/ height im < b3 ->
  draw_image B self img [Int b0; Int b1; Int b2; Int b3] w
  = (_ ← add_padding self (Int (Z.abs b0)) (Int (Z.abs b1)) (Int b2) (Int b3);
     draw_image_place B self img (Int b0) (Int b1) (Int b2) (Int b3)) w.
Proof.
  intros Hs Hl Hout.
  rewrite (draw_image_int_box B w self l im img b0 _ _ _ Hs Hl).
  unfold draw_image_pixels.
  cbn [item lookup list_lookup].
  repeat (rewrite bind_run, ret_run). cbn [PyNum.lt PyNum.gt PyNum.abs].
  replace ((b0 <? 0) || (b1 <? 0) || (width im <? b2) || (height im <? b3)) with true.
  - reflexivity.
  - symmetry. rewrite !orb_true_iff, !Z.ltb_lt. tauto.
Qed.

(** The size of the buffer the padding of [draw_image] asks for. *)
Lemma draw_image_padding_size (wd l r : Z) :
  wd + (if 0 <? Z.abs l then Z.abs l else 0) + (if wd <? r then r - wd else 0)
  = Z.abs l + Z.max wd r.
Proof.
  destruct (Z.ltb_spec 0 (Z.abs l)), (Z.ltb_spec wd r); lia.
Qed.

(** On an RGB canvas that padding raises, once Pillow has made the copy of
    the canvas and the new buffer: the copy cannot serve as its own mask,
    and [add_padding] has no second paste as [draw_image] has. The canvas
    is left as it was. *)
Lemma draw_image_rgb_canvas_raises (B : Backend) (w : world) (self l : ref) (im : Image)
      (img : content) (b0 b1 b2 b3 : Z) :
  wrappers w !! self = Some l -> images w !! l = Some im ->
  mode im = RGB -> 0 < width im -> 0 < height im ->
  b0 < 0 \/ b1 < 0 \/ width im < b2 \/ height im < b3 ->
  refused w (width im) (height im) = false ->
  fits_int (Z.abs b0 + Z.max (width im) b2) = true ->
  fits_int (Z.abs b1 + Z.max (height im) b3) = true ->
  refused w (Z.abs b0 + Z.max (width im) b2) (Z.abs b1 + Z.max (height im) b3) = false ->
  exists w',
    draw_image B self img [Int b0; Int b1; Int b2; Int b3] w
    = (Raise (ValueError "bad transparency mask"), w')
    /\ canvas_of w' self = Some im.
Proof.
  intros Hs Hl Hmode Hw Hh Hout Hcopy Hfw Hfh Hbuf.
  rewrite (draw_image_pads_first B w self l im img b0 b1 b2 b3 Hs Hl Hout), bind_run.
  assert (existsb truthy [Int (Z.abs b0); Int (Z.abs b1); Int b2; Int b3] = true) as Hany.
  { cbn. rewrite !orb_true_iff, !negb_true_iff, !Z.eqb_neq. lia. }
  pose proof (add_padding_canvas w self l im (Z.abs b0) (Z.abs b1) b2 b3 Hs Hl
                ltac:(lia) ltac:(lia) Hany) as H.
  cbv zeta in H. cbn [width height] in H.
  rewrite !draw_image_padding_size in H.
  rewrite Hcopy, Hfw, Hfh, Hbuf in H. cbn [andb negb] in H.
  replace ((width im <=? 0) || (height im <=? 0)) with false in H
    by (symmetry; rewrite orb_false_iff, !Z.leb_gt; lia).
  rewrite Hmode in H. destruct H as [H1 H2].
  destruct (add_padding self _ _ _ _ w) as [r w']. cbn in H1, H2. subst r.
  exists w'. split; [reflexivity | exact H2].
Qed.

(** C1. The call the specification gives as its example,
    [draw_image(image, (-10, -10, 50, 50))] on a 100 x 100 canvas, run on
    an opaque RGB canvas: it raises [ValueError] out of [add_padding] and
    leaves the canvas 100 x 100, where the claim has it padded to at least
    110 x 110. On an RGBA canvas the same call pads the canvas to
    110 x 110. The last line shows what [abs] does to a left edge that lies
    inside the canvas: the box [(20, -10, 50, 50)] pads the canvas by 20
    columns on the left, to 120 x 110. *)
Theorem draw_image_padding_fails_on_rgb_canvas :
  let content := Fixtures.gradient RGBA 30 20 255 in
  let draw canvas box :=
    draw_image Fixtures.nearest 1%positive (Raw 2%positive) box
      (Fixtures.store canvas content) in
  let rgb := draw (Fixtures.gradient RGB 100 100 255) [Int (-10); Int (-10); Int 50; Int 50] in
  let rgba := draw (Fixtures.gradient RGBA 100 100 255) [Int (-10); Int (-10); Int 50; Int 50] in
  let inside := draw (Fixtures.gradient RGBA 100 100 255) [Int 20; Int (-10); Int 50; Int 50] in
  (rgb.1 = Raise (ValueError "bad transparency mask")
   /\ Fixtures.observe rgb.2 1%positive 0 0 = Some (RGB, 100, 100, Px 0 0 0 255))
  /\ (rgba.1 = Ok tt
      /\ Fixtures.observe rgba.2 1%positive 0 0 = Some (RGBA, 110, 110, white))
  /\ (inside.1 = Ok tt
      /\ Fixtures.observe inside.2 1%positive 0 0 = Some (RGBA, 120, 110, white)).
Proof.
  cbv zeta. split; [|split; split; vm_compute; reflexivity].
  destruct (draw_image_rgb_canvas_raises Fixtures.nearest
              (Fixtures.store (Fixtures.gradient RGB 100 100 255)
                              (Fixtures.gradient RGBA 30 20 255))
              1%positive 1%positive (Fixtures.gradient RGB 100 100 255) (Raw 2%positive)
              (-10) (-10) 50 50) as (w' & E & Hc);
    try first [reflexivity | cbn; lia].
  rewrite E. cbn [fst snd]. split; [reflexivity|].
  unfold Fixtures.observe. rewrite Hc. reflexivity.
Qed.

(** * Further properties of the methods *)

(** ** [resize] *)

(** X1. [resize], with or without [keep_ratio] and for every size, never
    writes to an image object the store held, to another wrapper or to the
    record of pastes. When it returns, it returns [self] (for chaining) and
    [self] wraps a new image object: one at a reference the store did not
    hold before. When it raises, the store is as it was, and [self] wraps
    what it wrapped. *)
Theorem resize_allocates (B : Backend) (w : world) (self : ref) (size : num * num)
        (keep_ratio : bool) :
  let out := resize B self size keep_ratio w in
  (forall l im, images w !! l = Some im -> images out.2 !! l = Some im)
  /\ (forall p, p <> self -> wrappers out.2 !! p = wrappers w !! p)
  /\ pastes out.2 = pastes w
  /\ match out.1 with
     | Ok p => p = self
               /\ exists l' im', wrappers out.2 !! self = Some l'
                                 /\ images w !! l' = None
                                 /\ images out.2 !! l' = Some im'
     | Raise _ => out.2 = w
     end.
Proof. exact (resize_effect B w self size keep_ratio). Qed.



(** ** [add_padding]: the image wrapped before is left alone *)

(** X4. [add_padding] on integer arguments never writes to an image object
    the store held, the one the canvas wrapped before included, nor to
    another wrapper. When the arguments are not all 0 and the call returns,
    [self] wraps a new image object: one at a reference the store did not
    hold before. When the arguments are all 0 the store is as it was, and
    when the call raises [self] wraps the image object it wrapped. *)
Theorem add_padding_rebinds (w : world) (self l : ref) (im : Image)
        (left top right bottom : Z) :
  wrappers w !! self = Some l -> images w !! l = Some im ->
  0 <= width im -> 0 <= height im ->
  let out := add_padding self (Int left) (Int top) (Int right) (Int bottom) w in
  (forall l0 im0, images w !! l0 = Some im0 -> images out.2 !! l0 = Some im0)
  /\ (forall p, p <> self -> wrappers out.2 !! p = wrappers w !! p)
  /\ match out.1 with
     | Ok _ =>
         if (left =? 0) && (top =? 0) && (right =? 0) && (bottom =? 0)
         then out.2 = w
         else exists l' im', wrappers out.2 !! self = Some l'
                             /\ images w !! l' = None
                             /\ images out.2 !! l' = Some im'
     | Raise _ => wrappers out.2 !! self = Some l
     end.
Proof.
  intros Hs Hl Hw Hh. cbv zeta.
  destruct (all_zero_or_not left top right bottom) as [(-> & -> & -> & -> & _) | Hany].
  { cbn. auto. }
  assert ((left =? 0) && (top =? 0) && (right =? 0) && (bottom =? 0) = false) as ->.
  { cbn in Hany. rewrite !orb_false_r in Hany.
    destruct (left =? 0), (top =? 0), (right =? 0), (bottom =? 0);
      cbn in Hany |- *; congruence. }
  rewrite (add_padding_effect w self l im left top right bottom Hs Hl Hw Hh Hany).
  destruct (padding_refs w l im Hl) as (H1 & H2 & H3).
  assert (forall l0 im0, images w !! l0 = Some im0 ->
            l0 <> fresh (dom (images w))
            /\ l0 <> fresh (dom (images (with_image w (fresh (dom (images w))) im)))) as Hne.
  { intros l0 im0 Hl0.
    assert (l0 <> fresh (dom (images w))) as N1.
    { intros E. pose proof (fresh_image_None w) as N. rewrite <- E in N. congruence. }
    split; [exact N1|].
    intros E.
    pose proof (fresh_image_None (with_image w (fresh (dom (images w))) im)) as N.
    rewrite <- E in N. cbn in N. rewrite lookup_insert_ne in N by auto. congruence. }
  assert (images w !! fresh (dom (images (with_image w (fresh (dom (images w))) im))) = None)
    as Hnew.
  { destruct (images w !! fresh (dom (images (with_image w (fresh (dom (images w))) im))))
      as [im0|] eqn:E; [|reflexivity].
    destruct (Hne _ im0 E) as [_ N]. congruence. }
  destruct (refused w (width im) (height im)); [cbn; auto|].
  match goal with
  | |- context [ fits_int ?a && fits_int ?b ] => destruct (fits_int a && fits_int b)
  end; cbn [negb].
  2:{ cbn. split; [|split; [auto | exact Hs]].
      intros l0 im0 Hl0. destruct (Hne l0 im0 Hl0) as [N1 N2].
      rewrite lookup_insert_ne by auto. exact Hl0. }
  match goal with
  | |- context [ refused w ?a ?b ] => destruct (refused w a b)
  end.
  { cbn. split; [|split; [auto | exact Hs]].
    intros l0 im0 Hl0. destruct (Hne l0 im0 Hl0) as [N1 N2].
    rewrite lookup_insert_ne by auto. exact Hl0. }
  destruct ((width im <=? 0) || (height im <=? 0)); [|destruct (mode im)]; cbn;
    (split; [intros l0 im0 Hl0; destruct (Hne l0 im0 Hl0) as [N1 N2];
             rewrite ?lookup_insert_ne by auto; exact Hl0|]);
    (split; [intros p Hp; rewrite ?lookup_insert_ne by auto; reflexivity|]);
    try exact Hs;
    eexists _, _; (split; [apply lookup_insert_eq|]); (split; [exact Hnew|]);
    apply lookup_insert_eq.
Qed.

(** The theorem at work. *)
Lemma add_padding_rebinds_witness :
  let w := Fixtures.store (Fixtures.gradient RGBA 4 4 255) (Fixtures.gradient RGBA 2 2 255) in
  let out := add_padding 1%positive (Int 1) (Int 0) (Int 6) (Int 0) w in
  (forall l0 im0, images w !! l0 = Some im0 -> images out.2 !! l0 = Some im0)
  /\ (forall p, p <> 1%positive -> wrappers out.2 !! p = wrappers w !! p)
  /\ match out.1 with
     | Ok _ =>
         if (1 =? 0) && (0 =? 0) && (6 =? 0) && (0 =? 0)
         then out.2 = w
         else exists l' im', wrappers out.2 !! 1%positive = Some l'
                             /\ images w !! l' = None
                             /\ images out.2 !! l' = Some im'
     | Raise _ => wrappers out.2 !! 1%positive = Some 1%positive
     end.
Proof.
  intros w.
  refine (add_padding_rebinds w 1%positive 1%positive (Fixtures.gradient RGBA 4 4 255)
            1 0 6 0 _ _ _ _); first [reflexivity | cbn; lia].
Defined.

(** ** [draw_image]: the canvas object, its size, and what lies outside the box *)

Section KeepsCanvas.

Variables (self c : ref) (m : Mode) (wd ht : Z).

(** [self] wraps [c], and [c] is an image of mode [m] and size [wd] x [ht]. *)
Let I (w : world) : Prop :=
  wrappers w !! self = Some c
  /\ exists im, images w !! c = Some im /\ mode im = m /\ width im = wd /\ height im = ht.

Lemma keeps_canvas_alloc w im :
  I w -> I (with_image w (fresh (dom (images w))) im) /\ fresh (dom (images w)) <> c.
Proof.
  intros (Hs & cim & Hc & Hd).
  pose proof (fresh_image_ne w c cim Hc) as Hne.
  split; [|exact Hne]. split; [exact Hs|].
  exists cim. cbn. rewrite lookup_insert_ne by exact Hne. auto.
Qed.

Lemma keeps_canvas_write w l im im' :
  I w -> images w !! l = Some im ->
  mode im' = mode im -> width im' = width im -> height im' = height im ->
  I (with_image w l im').
Proof.
  intros (Hs & cim & Hc & Hm & Hw & Hh) Hl E1 E2 E3.
  split; [exact Hs|]. cbn. destruct (decide (l = c)) as [->|Hne].
  - exists im'. rewrite lookup_insert_eq. rewrite Hc in Hl. injection Hl as <-.
    repeat split; congruence.
  - exists cim. rewrite lookup_insert_ne by exact Hne. auto.
Qed.

Lemma keeps_canvas_init w l :
  I w -> I (with_wrapper w (fresh (dom (wrappers w))) l) /\ fresh (dom (wrappers w)) <> self.
Proof.
  intros (Hs & Hc). pose proof (fresh_wrapper_ne w self c Hs) as Hne.
  split; [|exact Hne]. split; [|exact Hc].
  cbn. rewrite lookup_insert_ne by exact Hne. exact Hs.
Qed.

Lemma keeps_canvas_set w p l : I w -> p <> self -> I (with_wrapper w p l).
Proof.
  intros (Hs & Hc) Hne. split; [|exact Hc].
  cbn. rewrite lookup_insert_ne by exact Hne. exact Hs.
Qed.

(** The placement never rebinds the canvas and never changes its size or
    mode, whatever the box and the content are and however it ends. *)
Lemma draw_image_place_keeps_canvas (B : Backend) (img : content) (b0 b1 b2 b3 : num)
      (w : world) :
  I w -> I (draw_image_place B self img b0 b1 b2 b3 w).2.
Proof.
  intros Hw.
  pose proof (draw_image_place_holds B I (fun _ => True) self (fun l => l <> c)
                (fun p => p <> self) (fun _ => True)) as H.
  specialize (H (fun _ _ => Logic.I) keeps_canvas_alloc).
  specialize (H (fun w l im im' Hw _ => keeps_canvas_write w l im im' Hw)).
  specialize (H keeps_canvas_init keeps_canvas_set (fun w c Hw => Hw)
                (fun _ _ _ _ => Logic.I) img b0 b1 b2 b3 w Hw).
  destruct (draw_image_place B self img b0 b1 b2 b3 w) as [[a|e] w']; apply H.
Qed.

End KeepsCanvas.

(** A box of integers inside the canvas: no padding. *)
Lemma draw_image_no_padding (B : Backend) (w : world) (self l : ref) (im : Image)
      (img : content) (b0 b1 b2 b3 : Z) :
  wrappers w !! self = Some l -> images w !! l = Some im ->
  (b0 <? 0) || (b1 <? 0) || (width im <? b2) || (height im <? b3) = false ->
  draw_image B self img [Int b0; Int b1; Int b2; Int b3] w
  = draw_image_place B self img (Int b0) (Int b1) (Int b2) (Int b3) w.
Proof.
  intros Hs Hl Hin.
  rewrite (draw_image_int_box B w self l im img b0 _ _ _ Hs Hl).
  unfold draw_image_pixels.
  cbn [item lookup list_lookup].
  repeat (rewrite bind_run, ret_run). cbn [PyNum.lt PyNum.gt PyNum.abs].
  rewrite Hin. reflexivity.
Qed.

(** X5. For a box of four integers on an RGBA or L canvas of positive
    size, the canvas after [draw_image], whether the call returns or
    raises. When no edge of the box is outside, it is the same image
    object, with the size and mode it had. When an edge is outside, the
    canvas is first padded to width
    [width + abs(left) + max(0, right - width)] and height
    [height + abs(top) + max(0, bottom - height)]: when Pillow cannot make
    the copy of the canvas or a buffer of that size (memory runs out, or
    the buffer is wider than Pillow makes them), the call raises
    [MemoryError], when that size does not fit a C [int] it raises
    [OverflowError], and in both cases the canvas is the image it was;
    otherwise the canvas is an RGBA image of that size. *)
Theorem draw_image_canvas_size (B : Backend) (w : world) (self l : ref) (im : Image)
        (img : content) (b0 b1 b2 b3 : Z) :
  wrappers w !! self = Some l -> images w !! l = Some im ->
  mode im = RGBA \/ mode im = L -> 0 < width im -> 0 < height im ->
  let out := draw_image B self img [Int b0; Int b1; Int b2; Int b3] w in
  let outside := (b0 <? 0) || (b1 <? 0) || (width im <? b2) || (height im <? b3) in
  let new_width := width im + Z.abs b0 + Z.max 0 (b2 - width im) in
  let new_height := height im + Z.abs b1 + Z.max 0 (b3 - height im) in
  if outside
  then if refused w (width im) (height im)
       then out = (Raise MemoryError, w)
       else if negb (fits_int new_width && fits_int new_height)
       then out.1 = Raise OverflowError /\ canvas_of out.2 self = Some im
       else if refused w new_width new_height
       then out.1 = Raise MemoryError /\ canvas_of out.2 self = Some im
       else exists im',
              canvas_of out.2 self = Some im'
              /\ mode im' = RGBA /\ width im' = new_width /\ height im' = new_height
  else exists im',
         wrappers out.2 !! self = Some l /\ images out.2 !! l = Some im'
         /\ mode im' = mode im /\ width im' = width im /\ height im' = height im.
Proof.
  intros Hs Hl Hmode Hw Hh. cbv zeta.
  destruct ((b0 <? 0) || (b1 <? 0) || (width im <? b2) || (height im <? b3)) eqn:Hout.
  - assert (b0 < 0 \/ b1 < 0 \/ width im < b2 \/ height im < b3) as Hout'.
    { rewrite !orb_true_iff, !Z.ltb_lt in Hout. tauto. }
    rewrite (draw_image_pads_first B w self l im img b0 b1 b2 b3 Hs Hl Hout'), bind_run.
    assert (existsb truthy [Int (Z.abs b0); Int (Z.abs b1); Int b2; Int b3] = true) as Hany.
    { cbn. rewrite !orb_true_iff, !negb_true_iff, !Z.eqb_neq. lia. }
    pose proof (add_padding_canvas w self l im (Z.abs b0) (Z.abs b1) b2 b3 Hs Hl
                  ltac:(lia) ltac:(lia) Hany) as H.
    cbv zeta in H. cbn [width height] in H.
    rewrite !draw_image_padding_size in H.
    replace (width im + Z.abs b0 + Z.max 0 (b2 - width im))
      with (Z.abs b0 + Z.max (width im) b2) by lia.
    replace (height im + Z.abs b1 + Z.max 0 (b3 - height im))
      with (Z.abs b1 + Z.max (height im) b3) by lia.
    destruct (refused w (width im) (height im)); [rewrite H; reflexivity|].
    destruct (negb (fits_int (Z.abs b0 + Z.max (width im) b2)
                    && fits_int (Z.abs b1 + Z.max (height im) b3))).
    { destruct H as [H1 H2].
      destruct (add_padding self _ _ _ _ w) as [r w1]. cbn in H1, H2. subst r.
      split; [reflexivity | exact H2]. }
    destruct (refused w (Z.abs b0 + Z.max (width im) b2) (Z.abs b1 + Z.max (height im) b3)).
    { destruct H as [H1 H2].
      destruct (add_padding self _ _ _ _ w) as [r w1]. cbn in H1, H2. subst r.
      split; [reflexivity | exact H2]. }
    replace ((width im <=? 0) || (height im <=? 0)) with false in H
      by (symmetry; rewrite orb_false_iff, !Z.leb_gt; lia).
    assert (exists padded,
               (add_padding self (Int (Z.abs b0)) (Int (Z.abs b1)) (Int b2) (Int b3) w).1 = Ok tt
               /\ canvas_of (add_padding self (Int (Z.abs b0)) (Int (Z.abs b1))
                               (Int b2) (Int b3) w).2 self = Some padded
               /\ mode padded = RGBA
               /\ width padded = Z.abs b0 + Z.max (width im) b2
               /\ height padded = Z.abs b1 + Z.max (height im) b3)
      as (padded & E1 & E2 & Pm & Pw & Ph).
    { destruct Hmode as [Em | Em]; rewrite Em in H;
        destruct H as [H1 H2]; eexists; (split; [exact H1|]); (split; [exact H2|]);
        cbn; auto. }
    destruct (add_padding self _ _ _ _ w) as [r w1]. cbn in E1, E2. subst r.
    unfold canvas_of in E2.
    destruct (wrappers w1 !! self) as [c|] eqn:Ec; [|discriminate]. cbn in E2.
    destruct (draw_image_place_keeps_canvas self c RGBA (width padded) (height padded)
                B img (Int b0) (Int b1) (Int b2) (Int b3) w1)
      as (Hs' & im' & Hc' & M' & W' & H').
    { split; [exact Ec|]. exists padded. auto. }
    exists im'. unfold canvas_of. rewrite Hs'. cbn. rewrite Hc'.
    repeat split; congruence.
  - rewrite (draw_image_no_padding B w self l im img b0 b1 b2 b3 Hs Hl Hout).
    destruct (draw_image_place_keeps_canvas self l (mode im) (width im) (height im)
                B img (Int b0) (Int b1) (Int b2) (Int b3) w)
      as (Hs' & im' & Hc' & M' & W' & H').
    { split; [exact Hs|]. exists im. auto. }
    exists im'. repeat split; auto.
Qed.

(** The theorem at work: the box [(-10, -10, 50, 50)] on a 100 x 100 canvas. *)
Lemma draw_image_canvas_size_witness :
  let im := Fixtures.gradient RGBA 100 100 255 in
  let w := Fixtures.store im (Fixtures.gradient RGBA 30 20 255) in
  let out := draw_image Fixtures.nearest 1%positive (Raw 2%positive)
               [Int (-10); Int (-10); Int 50; Int 50] w in
  exists im',
    canvas_of out.2 1%positive = Some im'
    /\ mode im' = RGBA /\ width im' = 110 /\ height im' = 110.
Proof.
  intros im w.
  refine (draw_image_canvas_size Fixtures.nearest w 1%positive 1%positive im (Raw 2%positive)
            (-10) (-10) 50 50 _ _ _ _ _); first [reflexivity | left; reflexivity | cbn; lia].
Defined.

(** [_center_image] on a box of integers. *)
Lemma center_image_run (B : Backend) (w : world) (p l : ref) (im : Image) (b0 b1 b2 b3 : Z) :
  wrappers w !! p = Some l -> images w !! l = Some im ->
  _center_image B p [Int b0; Int b1; Int b2; Int b3] w
  = (Ok (Int (b0 + (b2 - b0 - width im) `div` 2), Int (b1 + (b3 - b1 - height im) `div` 2),
         Int (b0 + (b2 - b0 + width im) `div` 2), Int (b1 + (b3 - b1 + height im) `div` 2)), w).
Proof.
  intros Hs Hl. unfold _center_image. mrun.
  rewrite (attr_width_run _ _ _ _ Hs Hl). mrun.
  rewrite (attr_height_run _ _ _ _ Hs Hl). mrun.
  reflexivity.
Qed.

(** A paste writes nothing outside the rectangle the pasted image covers. *)
Lemma pasted_outside (dst src : Image) (ox oy : Z) (level : option (Z -> Z -> Z)) (x y : Z) :
  ~ (ox <= x < ox + width src /\ oy <= y < oy + height src) ->
  pasted dst src ox oy level x y = pix dst x y.
Proof.
  intros Hout. unfold pasted.
  destruct (in_image dst x y); [|reflexivity].
  destruct (in_image src (x - ox) (y - oy)) eqn:Ein; [|reflexivity].
  exfalso. apply Hout. unfold in_image in Ein.
  rewrite !andb_true_iff, !Z.leb_le, !Z.ltb_lt in Ein. lia.
Qed.

(** The paste of [draw_image], with its fallback, on integer coordinates:
    it returns, and it writes to the canvas only, inside the rectangle that
    the content covers. *)
Lemma paste_content_run (w : world) (c sl : ref) (cim src : Image) (ox oy : Z) :
  images w !! sl = Some src -> images w !! c = Some cim ->
  Image.box_fits src ox oy = true ->
  exists w',
    paste_content c sl (Int ox, Int oy) w = (Ok tt, w')
    /\ wrappers w' = wrappers w
    /\ (forall l0, l0 <> c -> images w' !! l0 = images w !! l0)
    /\ exists cim',
        images w' !! c = Some cim'
        /\ mode cim' = mode cim /\ width cim' = width cim /\ height cim' = height cim
        /\ forall x y, ~ (ox <= x < ox + width src /\ oy <= y < oy + height src) ->
                       pix cim' x y = pix cim x y.
Proof.
  intros Hs Hc Hfit. unfold paste_content, try_except_ValueError.
  rewrite (paste_masked_run w c sl cim src ox oy Hs Hc Hfit).
  destruct (region_empty cim src ox oy) eqn:Eempty.
  { eexists. split; [reflexivity|]. cbn. repeat split.
    exists cim. repeat split; auto. }
  assert (forall lv, exists cim',
             (<[c := {| mode := mode cim; width := width cim; height := height cim;
                        pix := pasted cim src ox oy lv |}]> (images w)) !! c = Some cim'
             /\ mode cim' = mode cim /\ width cim' = width cim /\ height cim' = height cim
             /\ forall x y, ~ (ox <= x < ox + width src /\ oy <= y < oy + height src) ->
                            pix cim' x y = pix cim x y) as Hwritten.
  { intros lv. eexists. split; [apply lookup_insert_eq|]. cbn. repeat split.
    intros x y Hout. apply pasted_outside, Hout. }
  destruct (mode src) eqn:Em.
  - eexists. split; [reflexivity|]. cbn. split; [reflexivity|]. split.
    + intros l0 Hne. rewrite lookup_insert_ne by auto. reflexivity.
    + apply Hwritten.
  - cbn [is_ValueError].
    rewrite (paste_unmasked_run _ c sl cim src ox oy) by (cbn; assumption).
    rewrite Eempty.
    eexists. split; [reflexivity|]. cbn. split; [reflexivity|]. split.
    + intros l0 Hne. rewrite lookup_insert_ne by auto. reflexivity.
    + apply Hwritten.
  - eexists. split; [reflexivity|]. cbn. split; [reflexivity|]. split.
    + intros l0 Hne. rewrite lookup_insert_ne by auto. reflexivity.
    + apply Hwritten.
Qed.

(** [resize] with the ratio kept, for positive sizes: it raises Pillow's
    [ValueError] or, for want of room for the new image, [MemoryError],
    and leaves the store; or it binds the wrapper to a new image that is
    not larger than the size asked for. *)
Lemma resize_keep_ratio_cases (B : Backend) (w : world) (p l : ref) (im : Image) (s0 s1 : Z) :
  wrappers w !! p = Some l -> images w !! l = Some im ->
  0 < width im < 2 ^ 31 -> 0 < height im < 2 ^ 31 ->
  0 < s0 < 2 ^ 31 -> 0 < s1 < 2 ^ 31 ->
  resize B p (Int s0, Int s1) true w
  = (Raise (ValueError "height and width must be > 0"), w)
  \/ (resize B p (Int s0, Int s1) true w = (Raise MemoryError, w)
      /\ exists nw nh, 1 <= nw <= s0 /\ 1 <= nh <= s1 /\ refused w nw nh = true)
  \/ exists im2,
      resize B p (Int s0, Int s1) true w
      = (Ok p, with_wrapper (with_image w (fresh (dom (images w))) im2)
                 p (fresh (dom (images w))))
      /\ 1 <= width im2 <= s0 /\ 1 <= height im2 <= s1.
Proof.
  intros Hs Hl Hw Hh Hs0 Hs1.
  destruct (keep_ratio_size_bounds s0 s1 (width im) (height im) Hw Hh Hs0 Hs1)
    as (nw & nh & Hk & Hnw & Hnh & _).
  rewrite (resize_keep_ratio_run B w p l im _ nw nh Hs Hl Hk). cbv zeta.
  rewrite (fits_int_below nw), (fits_int_below nh) by lia. cbn [andb negb].
  destruct ((nw =? width im) && (nh =? height im)) eqn:Esame.
  - apply andb_true_iff in Esame as [E1 E2]. apply Z.eqb_eq in E1, E2.
    destruct (refused w (width im) (height im)) eqn:Eref.
    + right; left. split; [reflexivity|]. exists nw, nh. rewrite E1, E2.
      split; [lia|]. split; [lia | exact Eref].
    + right; right. exists im. split; [reflexivity|]. lia.
  - destruct ((nw <? 1) || (nh <? 1)) eqn:Esmall; [left; reflexivity|].
    apply orb_false_iff in Esmall as [E1 E2]. apply Z.ltb_ge in E1, E2.
    destruct (refused w nw nh) eqn:Eref.
    + right; left. split; [reflexivity|]. exists nw, nh.
      split; [lia|]. split; [lia | exact Eref].
    + right; right. eexists. split; [reflexivity|]. cbn. lia.
Qed.

(** The placement, for a box of integers with a positive extent and its
    upper left corner not negative: the content lands inside the box. *)
Lemma draw_image_place_within (B : Backend) (w : world) (self c : ref) (cim : Image)
      (img : content) (l : ref) (im : Image) (b0 b1 b2 b3 : Z) :
  wrappers w !! self = Some c -> images w !! c = Some cim ->
  match img with
  | Raw l' => l' = l
  | Wrapped p => wrappers w !! p = Some l
  end ->
  images w !! l = Some im ->
  0 < width im < 2 ^ 31 -> 0 < height im < 2 ^ 31 ->
  0 <= b0 < b2 -> b2 < 2 ^ 31 -> 0 <= b1 < b3 -> b3 < 2 ^ 31 ->
  let out := draw_image_place B self img (Int b0) (Int b1) (Int b2) (Int b3) w in
  (out.1 = Ok tt \/ out.1 = Raise (ValueError "height and width must be > 0")
   \/ (out.1 = Raise MemoryError
       /\ exists nw nh, 1 <= nw <= b2 - b0 /\ 1 <= nh <= b3 - b1 /\ refused w nw nh = true))
  /\ wrappers out.2 !! self = Some c
  /\ exists cim',
      images out.2 !! c = Some cim'
      /\ mode cim' = mode cim /\ width cim' = width cim /\ height cim' = height cim
      /\ forall x y, ~ (b0 <= x < b2 /\ b1 <= y < b3) -> pix cim' x y = pix cim x y.
Proof.
  intros Hs Hc Himg Hl Hw Hh H0 H2 H1 H3. cbv zeta.
  assert (0 < b2 - b0 < 2 ^ 31) as Hbw by lia.
  assert (0 < b3 - b1 < 2 ^ 31) as Hbh by lia.
  set (P := fun out : result unit * world =>
              (out.1 = Ok tt \/ out.1 = Raise (ValueError "height and width must be > 0")
               \/ (out.1 = Raise MemoryError
                   /\ exists nw nh, 1 <= nw <= b2 - b0 /\ 1 <= nh <= b3 - b1
                                    /\ refused w nw nh = true))
              /\ wrappers out.2 !! self = Some c
              /\ exists cim',
                  images out.2 !! c = Some cim'
                  /\ mode cim' = mode cim /\ width cim' = width cim
                  /\ height cim' = height cim
                  /\ forall x y, ~ (b0 <= x < b2 /\ b1 <= y < b3) ->
                                 pix cim' x y = pix cim x y).
  change (P (draw_image_place B self img (Int b0) (Int b1) (Int b2) (Int b3) w)).
  unfold draw_image_place.
  (* the content *)
  assert ((match img with
           | Raw l0 => mret l0
           | Wrapped p => image p
           end) w = (Ok l, w)) as Econtent.
  { destruct img as [l'|p]; [subst l'; reflexivity | apply image_run, Himg]. }
  rewrite bind_run, Econtent. cbn [sub arith].
  rewrite !lift_bind_run.
  (* the temporary wrapper and the resize *)
  rewrite bind_run. unfold init at 1.
  set (p1 := fresh (dom (wrappers w))).
  set (w1 := with_wrapper w p1 l).
  assert (p1 <> self) as Hp1 by (apply (fresh_wrapper_ne w self c Hs)).
  assert (wrappers w1 !! p1 = Some l) as Hw1p by (subst w1; cbn; apply lookup_insert_eq).
  assert (wrappers w1 !! self = Some c) as Hw1s
      by (subst w1; cbn; rewrite lookup_insert_ne by exact Hp1; exact Hs).
  assert (images w1 !! l = Some im) as Hw1l by exact Hl.
  assert (images w1 !! c = Some cim) as Hw1c by exact Hc.
  rewrite bind_run.
  destruct (resize_keep_ratio_cases B w1 p1 l im (b2 - b0) (b3 - b1) Hw1p Hw1l Hw Hh Hbw Hbh)
    as [-> | [(-> & Href) | (im2 & -> & Hnw & Hnh)]].
  { subst P. cbn [fst snd]. split; [right; left; reflexivity|]. split; [exact Hw1s|].
    exists cim. repeat split; auto. }
  { subst P. cbn [fst snd]. split; [right; right; split; [reflexivity | exact Href]|].
    split; [exact Hw1s|]. exists cim. repeat split; auto. }
  set (l2 := fresh (dom (images w1))).
  set (w2 := with_wrapper (with_image w1 l2 im2) p1 l2).
  assert (l2 <> c) as Hl2 by (apply (fresh_image_ne w1 c cim Hw1c)).
  assert (wrappers w2 !! p1 = Some l2) as Hw2p by (subst w2; cbn; apply lookup_insert_eq).
  assert (wrappers w2 !! self = Some c) as Hw2s
      by (subst w2; cbn; rewrite lookup_insert_ne by exact Hp1; exact Hw1s).
  rewrite bind_run, (image_run _ _ _ Hw2p).
  (* the wrapper that is asked for the centred box *)
  rewrite bind_run. unfold init at 1.
  set (p2 := fresh (dom (wrappers w2))).
  set (w3 := with_wrapper w2 p2 l2).
  assert (p2 <> self) as Hp2 by (apply (fresh_wrapper_ne w2 self c Hw2s)).
  assert (wrappers w3 !! p2 = Some l2) as Hw3p by (subst w3; cbn; apply lookup_insert_eq).
  assert (wrappers w3 !! self = Some c) as Hw3s
      by (subst w3; cbn; rewrite lookup_insert_ne by exact Hp2; exact Hw2s).
  assert (images w3 !! l2 = Some im2) as Hw3l by (subst w3 w2; cbn; apply lookup_insert_eq).
  assert (images w3 !! c = Some cim) as Hw3c
      by (subst w3 w2; cbn; rewrite lookup_insert_ne by exact Hl2; exact Hw1c).
  assert ((if gt (Int b0) (Int 0) then Int b0 else Int 0) = Int b0) as ->.
  { cbn. destruct (Z.ltb_spec 0 b0); [reflexivity | f_equal; lia]. }
  assert ((if gt (Int b1) (Int 0) then Int b1 else Int 0) = Int b1) as ->.
  { cbn. destruct (Z.ltb_spec 0 b1); [reflexivity | f_equal; lia]. }
  rewrite bind_run, (center_image_run B w3 p2 l2 im2 b0 b1 b2 b3 Hw3p Hw3l).
  rewrite bind_run, (image_run _ _ _ Hw3s).
  (* the paste *)
  set (ox := b0 + (b2 - b0 - width im2) `div` 2).
  set (oy := b1 + (b3 - b1 - height im2) `div` 2).
  assert (0 <= (b2 - b0 - width im2) `div` 2 /\ (b2 - b0 - width im2) `div` 2 <= b2 - b0 - width im2)
    as Hdx.
  { split; [apply Z.div_pos; lia|]. apply Z.div_le_upper_bound; lia. }
  assert (0 <= (b3 - b1 - height im2) `div` 2 /\ (b3 - b1 - height im2) `div` 2 <= b3 - b1 - height im2)
    as Hdy.
  { split; [apply Z.div_pos; lia|]. apply Z.div_le_upper_bound; lia. }
  assert (Image.box_fits im2 ox oy = true) as Hfit.
  { unfold Image.box_fits. subst ox oy.
    rewrite !fits_int_below by lia. reflexivity. }
  destruct (paste_content_run w3 c l2 cim im2 ox oy Hw3l Hw3c Hfit)
    as (w4 & -> & Hwr & _ & cim' & Hc' & Em & Ew & Eh & Hpix).
  subst P. cbn [fst snd]. split; [left; reflexivity|]. split; [rewrite Hwr; exact Hw3s|].
  exists cim'. repeat split; auto.
  intros x y Hout. apply Hpix. intros [Hx Hy]. apply Hout.
  subst ox oy. lia.
Qed.

(** X6. For a box of integers that lies inside the canvas and has a positive
    extent, and a content of positive size, [draw_image] returns, or
    raises Pillow's [ValueError] when the resized content would have no
    width or height, or raises [MemoryError] when Pillow cannot make the
    resized content (some size that fits the box is one Pillow has no room
    for); either way the canvas is the same image object, of the same size
    and mode, and every pixel outside the box is as it was: the content,
    resized and centred, is pasted inside the box. The content may be an
    image or a [PymeImage], of any mode (an RGB content goes through the
    unmasked paste). *)
Theorem draw_image_writes_inside_box (B : Backend) (w : world) (self c : ref) (cim : Image)
        (img : content) (l : ref) (im : Image) (b0 b1 b2 b3 : Z) :
  wrappers w !! self = Some c -> images w !! c = Some cim ->
  match img with
  | Raw l' => l' = l
  | Wrapped p => wrappers w !! p = Some l
  end ->
  images w !! l = Some im ->
  0 < width im < 2 ^ 31 -> 0 < height im < 2 ^ 31 ->
  0 <= b0 < b2 -> b2 <= width cim < 2 ^ 31 ->
  0 <= b1 < b3 -> b3 <= height cim < 2 ^ 31 ->
  let out := draw_image B self img [Int b0; Int b1; Int b2; Int b3] w in
  (out.1 = Ok tt \/ out.1 = Raise (ValueError "height and width must be > 0")
   \/ (out.1 = Raise MemoryError
       /\ exists nw nh, 1 <= nw <= b2 - b0 /\ 1 <= nh <= b3 - b1 /\ refused w nw nh = true))
  /\ wrappers out.2 !! self = Some c
  /\ exists cim',
      images out.2 !! c = Some cim'
      /\ mode cim' = mode cim /\ width cim' = width cim /\ height cim' = height cim
      /\ forall x y, ~ (b0 <= x < b2 /\ b1 <= y < b3) -> pix cim' x y = pix cim x y.
Proof.
  intros Hs Hc Himg Hl Hw Hh Hx Hx' Hy Hy'. cbv zeta.
  rewrite (draw_image_no_padding B w self c cim img b0 b1 b2 b3 Hs Hc).
  - apply (draw_image_place_within B w self c cim img l im b0 b1 b2 b3); auto; lia.
  - rewrite !orb_false_iff, !Z.ltb_ge. lia.
Qed.

(** The theorem at work: an RGB content, wrapped, drawn into [(10, 10, 50, 50)]. *)
Lemma draw_image_writes_inside_box_witness :
  let cim := Fixtures.gradient RGBA 100 100 255 in
  let w := Fixtures.store cim (Fixtures.gradient RGB 30 20 255) in
  let out := draw_image Fixtures.nearest 1%positive (Wrapped 2%positive)
               [Int 10; Int 10; Int 50; Int 50] w in
  (out.1 = Ok tt \/ out.1 = Raise (ValueError "height and width must be > 0")
   \/ (out.1 = Raise MemoryError
       /\ exists nw nh, 1 <= nw <= 50 - 10 /\ 1 <= nh <= 50 - 10 /\ refused w nw nh = true))
  /\ wrappers out.2 !! 1%positive = Some 1%positive
  /\ exists cim',
      images out.2 !! 1%positive = Some cim'
      /\ mode cim' = mode cim /\ width cim' = width cim /\ height cim' = height cim
      /\ forall x y, ~ (10 <= x < 50 /\ 10 <= y < 50) -> pix cim' x y = pix cim x y.
Proof.
  intros cim w.
  refine (draw_image_writes_inside_box Fixtures.nearest w 1%positive 1%positive cim
            (Wrapped 2%positive) 2%positive (Fixtures.gradient RGB 30 20 255)
            10 10 50 50 _ _ _ _ _ _ _ _ _ _); first [reflexivity | cbn; lia].
Defined.

(** ** [draw_text] *)

(** X9. [draw_text] leaves every image object but the one the canvas wraps,
    and every [PymeImage] but the canvas, as they were; this for every text
    and box and every outcome of the call. *)
Theorem draw_text_leaves_the_rest (B : Backend) (w : world) (self c : ref) (text : string)
        (bbox : list num) :
  wrappers w !! self = Some c ->
  let w' := (draw_text B self text bbox w).2 in
  (forall l im, images w !! l = Some im -> l <> c -> images w' !! l = Some im)
  /\ (forall p l, wrappers w !! p = Some l -> p <> self -> wrappers w' !! p = Some l).
Proof.
  intros Hs. cbv zeta.
  pose proof (draw_text_holds B (untouched w c self) (fun _ => True) self
                (fun l => images w !! l = None) (fun p => wrappers w !! p = None)
                (fun l => l = c \/ images w !! l = None)) as H.
  specialize (H (fun _ _ => Logic.I) (fun l Hl => or_intror Hl)).
  specialize (H (fun w1 im Hw =>
                   conj (untouched_write w c self w1 _ im Hw
                           (or_intror (fresh_is_new_image w c self w1 Hw)))
                        (fresh_is_new_image w c self w1 Hw))).
  specialize (H (fun w1 l im im' Hw Hl _ _ _ _ => untouched_write w c self w1 l im' Hw Hl)).
  specialize (H (fun w1 l Hw =>
                   conj (untouched_set_new w c self Hs w1 _ l Hw
                           (fresh_is_new_wrapper w c self w1 Hw))
                        (fresh_is_new_wrapper w c self w1 Hw))).
  specialize (H (untouched_set_new w c self Hs) (untouched_set_self w c self Hs)).
  specialize (H (fun w1 pc Hw => Hw) (untouched_canvas w c self) text bbox
                (or_intror Logic.I) w (untouched_start w c self Hs)).
  assert (untouched w c self (draw_text B self text bbox w).2) as (H1 & _ & H3 & _).
  { destruct (draw_text B self text bbox w) as [[a|e] w']; apply H. }
  split; auto.
Qed.

(** The theorem at work. *)
Lemma draw_text_leaves_the_rest_witness :
  let w := Fixtures.store (Fixtures.gradient RGBA 100 100 255)
                          (Fixtures.gradient RGBA 30 20 255) in
  let w' := (draw_text Fixtures.nearest 1%positive "top text"
               [Int (-10); Int 0; Int 100; Int 40] w).2 in
  (forall l im, images w !! l = Some im -> l <> 1%positive -> images w' !! l = Some im)
  /\ (forall p l, wrappers w !! p = Some l -> p <> 1%positive -> wrappers w' !! p = Some l).
Proof.
  intros w.
  refine (draw_text_leaves_the_rest Fixtures.nearest w 1%positive 1%positive "top text"
            [Int (-10); Int 0; Int 100; Int 40] _).
  reflexivity.
Defined.



(** ** A [PymeImage] as content *)

Section Unwraps.

Context (B : Backend).
Variables (self p l : ref).
Hypothesis Hne : p <> self.

(** The wrapper [p] holds [l]. *)
Let I (w : world) : Prop := wrappers w !! p = Some l.
Let E (e : exn) : Prop := True.

(** Two computations that start alike and agree afterwards agree. *)
Lemma bind_agree {A C} (m : M A) (k1 k2 : A -> M C) :
  holds I E m (fun _ => True) ->
  (forall a w, I w -> k1 a w = k2 a w) ->
  forall w, I w -> (m ≫= k1) w = (m ≫= k2) w.
Proof.
  intros Hm Hk w Hw. rewrite !bind_run. specialize (Hm w Hw).
  destruct (m w) as [[a|e] w']; [|reflexivity]. apply Hk, Hm.
Qed.

Lemma unwraps_alloc w im :
  I w -> I (with_image w (fresh (dom (images w))) im) /\ True.
Proof. intros Hw. split; [exact Hw | exact Logic.I]. Qed.

Lemma unwraps_set_self w l' : I w -> True -> I (with_wrapper w self l').
Proof.
  intros Hw _. unfold I. cbn. rewrite lookup_insert_ne by auto. exact Hw.
Qed.

Lemma draw_image_place_unwraps (b0 b1 b2 b3 : num) (w : world) :
  I w ->
  draw_image_place B self (Wrapped p) b0 b1 b2 b3 w
  = draw_image_place B self (Raw l) b0 b1 b2 b3 w.
Proof.
  intros Hw. unfold draw_image_place.
  rewrite !bind_run, (image_run _ _ _ Hw), ret_run. reflexivity.
Qed.

Lemma draw_image_unwraps_under (bbox : list num) (w : world) :
  I w -> draw_image B self (Wrapped p) bbox w = draw_image B self (Raw l) bbox w.
Proof.
  unfold draw_image. destruct (negb (length bbox =? 4)%nat); [reflexivity|].
  revert w.
  assert (forall e : exn, e <> bbox_error -> E e) as HE by (intros; exact Logic.I).
  assert (forall (w : world) (c : ref), I w -> wrappers w !! self = Some c -> True) as Hcv
      by (intros; exact Logic.I).
  apply bind_agree; [apply (attr_width_holds I E self (fun _ => True) HE Hcv)|].
  intros width. apply bind_agree; [apply (attr_height_holds I E self (fun _ => True) HE Hcv)|].
  intros height. apply bind_agree; [apply (item_holds I E HE)|].
  intros b0. apply bind_agree.
  { case_match; [|apply holds_ret; auto].
    eapply holds_bind; [apply holds_lift, (scaled_yields E HE)|]. intros x0 _.
    eapply holds_bind; [apply (item_holds I E HE)|]. intros b1 _.
    eapply holds_bind; [apply holds_lift, (scaled_yields E HE)|]. intros x1 _.
    eapply holds_bind; [apply (item_holds I E HE)|]. intros b2 _.
    eapply holds_bind; [apply holds_lift, (scaled_yields E HE)|]. intros x2 _.
    eapply holds_bind; [apply (item_holds I E HE)|]. intros b3 _.
    eapply holds_bind; [apply holds_lift, (scaled_yields E HE)|]. intros x3 _.
    apply holds_ret; auto. }
  intros bbox'. unfold draw_image_pixels.
  do 4 (apply bind_agree; [apply (item_holds I E HE)|]; intros ?).
  apply bind_agree; [|intros _; apply draw_image_place_unwraps].
  case_match; [|apply holds_ret; auto].
  apply (add_padding_holds I E self (fun _ => True) (fun _ => True) HE
           (fun _ _ => Logic.I) unwraps_alloc).
  - intros w1 l1 im im' Hw1 _ _ _ _ _. exact Hw1.
  - exact unwraps_set_self.
  - intros w1 pc Hw1. exact Hw1.
  - exact Hcv.
Qed.

End Unwraps.

(** X7. A [PymeImage] given as content stands for the image it wraps:
    [draw_image(p, bbox)] does what [draw_image(p.image, bbox)] does, to the
    result and to the store, for every box, provided [p] is not the canvas
    itself. *)
Theorem draw_image_unwraps (B : Backend) (w : world) (self p l : ref) (bbox : list num) :
  wrappers w !! p = Some l -> p <> self ->
  draw_image B self (Wrapped p) bbox w = draw_image B self (Raw l) bbox w.
Proof.
  intros Hp Hne. apply (draw_image_unwraps_under B self p l Hne bbox w Hp).
Qed.

(** The theorem at work. *)
Lemma draw_image_unwraps_witness :
  let w := Fixtures.store (Fixtures.gradient RGBA 100 100 255)
                          (Fixtures.gradient RGBA 30 20 255) in
  draw_image Fixtures.nearest 1%positive (Wrapped 2%positive)
    [Int (-10); Int 0; Int 50; Int 50] w
  = draw_image Fixtures.nearest 1%positive (Raw 2%positive)
      [Int (-10); Int 0; Int 50; Int 50] w.
Proof.
  intros w.
  refine (draw_image_unwraps Fixtures.nearest w 1%positive 2%positive 2%positive
            [Int (-10); Int 0; Int 50; Int 50] _ _); [reflexivity | discriminate].
Defined.

(** ** [resize] with the ratio kept, on an image without width or height *)

(** X3. [resize(size, keep_ratio=True)] on an image of width 0 raises
    [ZeroDivisionError] and leaves the store as it was; so it does on an
    image of height 0 (and positive width) for a positive target width. *)
Theorem resize_keep_ratio_empty_image (B : Backend) (w : world) (self l : ref) (im : Image)
        (s0 s1 : Z) :
  wrappers w !! self = Some l -> images w !! l = Some im ->
  width im = 0 \/ (height im = 0 /\ 0 < width im < 2 ^ 53 /\ 0 < s0 < 2 ^ 53) ->
  resize B self (Int s0, Int s1) true w = (Raise ZeroDivisionError, w).
Proof.
  intros Hs Hl Hzero. unfold resize.
  rewrite bind_run, (attr_width_run _ _ _ _ Hs Hl).
  rewrite bind_run, (attr_height_run _ _ _ _ Hs Hl).
  rewrite lift_bind_run.
  assert (keep_ratio_size (Int s0, Int s1) (width im) (height im) = Raise ZeroDivisionError)
    as ->; [|reflexivity].
  unfold keep_ratio_size. cbn [fst snd truediv].
  destruct Hzero as [-> | (-> & Hw & Hs0)].
  - reflexivity.
  - destruct (int_true_div_spec s0 (width im) Hs0 Hw) as (mq & sft & n & -> & _).
    reflexivity.
Qed.

(** The theorem at work: an image 5 wide and 0 high. *)
Lemma resize_keep_ratio_empty_image_witness :
  resize Fixtures.nearest 1%positive (Int 10, Int 10) true
    (Fixtures.store (Fixtures.gradient RGBA 5 0 255) (Fixtures.gradient RGBA 2 2 255))
  = (Raise ZeroDivisionError,
     Fixtures.store (Fixtures.gradient RGBA 5 0 255) (Fixtures.gradient RGBA 2 2 255)).
Proof.
  refine (resize_keep_ratio_empty_image Fixtures.nearest _ 1%positive 1%positive
            (Fixtures.gradient RGBA 5 0 255) 10 10 _ _ _);
    [reflexivity | reflexivity | right; cbn; lia].
Defined.

(** ** A box of fractions *)

Lemma fmul_comm (f g : spec_float) : fmul f g = fmul g f.
Proof.
  unfold fmul, SFmul.
  destruct f as [s| s| |s m e], g as [s'| s'| |s' m' e']; cbn;
    rewrite ?(xorb_comm s s'), ?(Pos.mul_comm m m'), ?(Z.add_comm e e'); reflexivity.
Qed.

(** [int(f * extent)] for a fraction [f] between 0 and 1 lies between 0 and
    [extent]. *)
Lemma to_pixels_fraction (f : spec_float) (extent : Z) :
  (exists s, f = S754_zero s) \/ (normal f /\ (F2Q f <= 1)%Q) ->
  0 < extent < 2 ^ 52 ->
  exists x, to_pixels (Float f) extent = Ok x /\ 0 <= x <= extent.
Proof.
  intros Hf Hext. unfold to_pixels.
  destruct (float_of_int_spec extent ltac:(lia)) as (mw & a & Ew & Ha & Hmw & Emw).
  destruct Hf as [[s ->] | [Hn Hle]].
  - exists 0. cbn [mul arith as_float]. rewrite Ew. cbn. split; [reflexivity | lia].
  - assert (mul (Float f) (Int extent) = mul (Int extent) (Float f)) as ->.
    { cbn [mul arith as_float]. rewrite Ew. cbn. rewrite fmul_comm. reflexivity. }
    destruct (scale_Q extent f ltac:(lia) Hn) as (n & En & Hn0 & Hlo & Hhi).
    exists n. split; [exact En|]. split; [exact Hn0|].
    destruct (Z.le_gt_cases n extent) as [|Hgt]; [assumption|exfalso].
    assert (extent + 1 <= n) as Hn1 by lia.
    rewrite Zle_Qle, inject_Z_plus in Hn1. change (inject_Z 1) with 1%Q in Hn1.
    destruct (inject_Z_bounds extent (2 ^ 52) Hext) as [He0 He1].
    change (inject_Z (2 ^ 52)) with 4503599627370496%Q in He1.
    pose proof (normal_pos f Hn) as Hfpos.
    assert (inject_Z extent * F2Q f <= inject_Z extent)%Q as Hprod.
    { rewrite <- (Qmult_1_r (inject_Z extent)) at 2.
      apply Qmult_le_l; assumption. }
    unfold ulp_half in *. nra.
Qed.

(** X8. A box of four [float]s, each 0 or a number [f] with
    [2 ^ -448 <= f <= 1], is converted to pixel positions between 0 and the width
    (or height) of the canvas, so that [draw_image] never pads for it: the
    call is the placement at these positions, and the canvas afterwards is
    the same image object, of the same size and mode. *)
Theorem draw_image_fraction_box_fits (B : Backend) (w : world) (self l : ref) (im : Image)
        (img : content) (f0 f1 f2 f3 : spec_float) :
  wrappers w !! self = Some l -> images w !! l = Some im ->
  0 < width im < 2 ^ 52 -> 0 < height im < 2 ^ 52 ->
  fraction f0 -> fraction f1 -> fraction f2 -> fraction f3 ->
  exists x0 x1 x2 x3,
    (0 <= x0 <= width im /\ 0 <= x1 <= height im
     /\ 0 <= x2 <= width im /\ 0 <= x3 <= height im)
    /\ draw_image B self img [Float f0; Float f1; Float f2; Float f3] w
       = draw_image_place B self img (Int x0) (Int x1) (Int x2) (Int x3) w
    /\ let out := draw_image B self img [Float f0; Float f1; Float f2; Float f3] w in
       wrappers out.2 !! self = Some l
       /\ exists im', images out.2 !! l = Some im'
                      /\ mode im' = mode im /\ width im' = width im
                      /\ height im' = height im.
Proof.
  intros Hs Hl Hw Hh F0 F1 F2 F3.
  destruct (to_pixels_fraction f0 (width im) F0 Hw) as (x0 & E0 & B0).
  destruct (to_pixels_fraction f1 (height im) F1 Hh) as (x1 & E1 & B1).
  destruct (to_pixels_fraction f2 (width im) F2 Hw) as (x2 & E2 & B2).
  destruct (to_pixels_fraction f3 (height im) F3 Hh) as (x3 & E3 & B3).
  exists x0, x1, x2, x3. split; [auto|].
  assert (draw_image B self img [Float f0; Float f1; Float f2; Float f3] w
          = draw_image_place B self img (Int x0) (Int x1) (Int x2) (Int x3) w) as Hrun.
  { rewrite <- (draw_image_no_padding B w self l im img x0 x1 x2 x3 Hs Hl)
      by (rewrite !orb_false_iff, !Z.ltb_ge; lia).
    rewrite (draw_image_int_box B w self l im img x0 _ _ _ Hs Hl).
    unfold draw_image. cbn [length Nat.eqb negb].
    rewrite bind_run, (attr_width_run _ _ _ _ Hs Hl).
    rewrite bind_run, (attr_height_run _ _ _ _ Hs Hl).
    repeat (progress (rewrite ?bind_run, ?ret_run, ?lift_run, ?E0, ?E1, ?E2, ?E3;
                      cbn [item lookup list_lookup is_float])).
    reflexivity. }
  split; [exact Hrun|]. cbv zeta. rewrite Hrun.
  apply (draw_image_place_keeps_canvas self l (mode im) (width im) (height im)).
  split; [exact Hs|]. exists im. auto.
Qed.

(** The theorem at work: the box [(0.0, 0.0, 1.0, 0.5)]. *)
Lemma draw_image_fraction_box_fits_witness :
  let im := Fixtures.gradient RGBA 100 100 255 in
  let w := Fixtures.store im (Fixtures.gradient RGBA 30 20 255) in
  exists x0 x1 x2 x3,
    (0 <= x0 <= width im /\ 0 <= x1 <= height im
     /\ 0 <= x2 <= width im /\ 0 <= x3 <= height im)
    /\ draw_image Fixtures.nearest 1%positive (Raw 2%positive)
         [Float (S754_zero false); Float (S754_zero false);
          Float Fixtures.float_one; Float Fixtures.float_half] w
       = draw_image_place Fixtures.nearest 1%positive (Raw 2%positive)
           (Int x0) (Int x1) (Int x2) (Int x3) w
    /\ let out := draw_image Fixtures.nearest 1%positive (Raw 2%positive)
                    [Float (S754_zero false); Float (S754_zero false);
                     Float Fixtures.float_one; Float Fixtures.float_half] w in
       wrappers out.2 !! 1%positive = Some 1%positive
       /\ exists im', images out.2 !! 1%positive = Some im'
                      /\ mode im' = mode im /\ width im' = width im
                      /\ height im' = height im.
Proof.
  intros im w.
  refine (draw_image_fraction_box_fits Fixtures.nearest w 1%positive 1%positive im
            (Raw 2%positive) (S754_zero false) (S754_zero false)
            Fixtures.float_one Fixtures.float_half _ _ _ _ _ _ _ _);
    first [ reflexivity | cbn; lia | left; eexists; reflexivity
          | right; split;
            [ eexists _, _; repeat split; first [reflexivity | lia | discriminate]
            | vm_compute; discriminate ] ].
Defined.

(** ** Scaling by a whole factor is exact *)

(** A normal significand and its exponent are determined by the value. *)
Lemma normal_unique (m1 m2 : Z) (a b : Z) :
  2 ^ 52 <= m1 < 2 ^ 53 -> 2 ^ 52 <= m2 < 2 ^ 53 -> 0 <= a -> 0 <= b ->
  m1 * 2 ^ a = m2 * 2 ^ b -> m1 = m2 /\ a = b.
Proof.
  intros H1 H2 Ha Hb E.
  assert (forall x y c d, 2 ^ 52 <= x < 2 ^ 53 -> 2 ^ 52 <= y < 2 ^ 53 -> 0 <= c < d ->
                          x * 2 ^ c = y * 2 ^ d -> False) as Hlt.
  { intros x y c d Hx Hy Hcd Exy.
    replace d with (c + (d - c)) in Exy by lia.
    rewrite Z.pow_add_r in Exy by lia.
    assert (0 < 2 ^ c) by (apply Z.pow_pos_nonneg; lia).
    assert (x = y * 2 ^ (d - c)) as Ex by nia.
    assert (2 ^ 1 <= 2 ^ (d - c)) by (apply Z.pow_le_mono_r; lia).
    change (2 ^ 1) with 2 in *. nia. }
  destruct (Z.lt_trichotomy a b) as [Hab | [Hab | Hab]].
  - exfalso. apply (Hlt m1 m2 a b); auto; lia.
  - subst b. split; [|reflexivity].
    assert (0 < 2 ^ a) by (apply Z.pow_pos_nonneg; lia). nia.
  - exfalso. apply (Hlt m2 m1 b a); auto; lia.
Qed.

(** The number of bits of a number shifted to the left. *)
Lemma Zdigits2_shift (x j : Z) : 0 < x -> 0 <= j -> Zdigits2 (x * 2 ^ j) = Zdigits2 x + j.
Proof.
  intros Hx Hj. destruct (Zdigits2_bounds x Hx) as [Hd0 Hd].
  apply Zdigits2_unique; [lia|].
  replace (Zdigits2 x + j - 1) with (Zdigits2 x - 1 + j) by lia.
  rewrite !Z.pow_add_r by lia.
  assert (0 < 2 ^ j) by (apply Z.pow_pos_nonneg; lia). nia.
Qed.

Lemma Zdigits2_small (x : Z) : 0 < x < 2 ^ 53 -> 0 < Zdigits2 x <= 53.
Proof.
  intros Hx. destruct (Zdigits2_bounds x ltac:(lia)) as [Hd0 Hd]. split; [exact Hd0|].
  destruct (Z.le_gt_cases (Zdigits2 x) 53) as [|Hgt]; [assumption|].
  assert (2 ^ 53 <= 2 ^ (Zdigits2 x - 1)) by (apply Z.pow_le_mono_r; lia). lia.
Qed.

(** [(k * b) / b] is the float of [k]. *)
Lemma int_true_div_exact (k b : Z) :
  0 < k -> 0 < b -> k * b < 2 ^ 53 ->
  int_true_div (k * b) b = float_of_int k.
Proof.
  intros Hk Hb Hkb.
  assert (0 < k * b) as Ha by nia.
  assert (k < 2 ^ 53 /\ b < 2 ^ 53) as [Hk53 Hb53] by (split; nia).
  destruct (float_of_int_spec k ltac:(lia)) as (mk & ak & -> & Hak & Hmk & Emk).
  remember (k * b) as a eqn:Ea.
  destruct a as [|pa|pa]; try lia. destruct b as [|pb|pb]; try lia.
  destruct (Zdigits2_small (Zpos pa) ltac:(lia)) as [Hda0 Hd1].
  destruct (Zdigits2_small (Zpos pb) ltac:(lia)) as [Hdb0 Hd2].
  destruct (Zdigits2_bounds (Zpos pa) ltac:(lia)) as [_ Hda].
  destruct (Zdigits2_bounds (Zpos pb) ltac:(lia)) as [_ Hdb].
  set (d1 := Zdigits2 (Zpos pa)) in *. set (d2 := Zdigits2 (Zpos pb)) in *.
  set (sft := 53 + d2 - d1).
  set (N := Zpos pa * 2 ^ sft).
  assert (0 < sft) as Hsft by (subst sft; lia).
  assert (0 < 2 ^ sft) as Hs by (apply Z.pow_pos_nonneg; lia).
  assert (2 ^ 52 * Zpos pb <= N < 2 ^ 54 * Zpos pb) as HN.
  { subst N.
    assert (2 ^ (d1 - 1) * 2 ^ sft = 2 ^ 52 * 2 ^ d2) as E1.
    { rewrite <- !Z.pow_add_r by (subst sft; lia). f_equal. subst sft. lia. }
    assert (2 ^ d1 * 2 ^ sft = 2 ^ 54 * 2 ^ (d2 - 1)) as E2.
    { rewrite <- !Z.pow_add_r by (subst sft; lia). f_equal. subst sft. lia. }
    split; nia. }
  assert (N / Zpos pb = k * 2 ^ sft) as Equot.
  { subst N. rewrite Ea. replace (k * Zpos pb * 2 ^ sft) with (k * 2 ^ sft * Zpos pb) by ring.
    apply Z.div_mul. lia. }
  assert (2 ^ 52 <= N / Zpos pb < 2 ^ 54) as Hq.
  { split; [apply Z.div_le_lower_bound | apply Z.div_lt_upper_bound]; lia. }
  assert (53 <= Zdigits2 (N / Zpos pb) <= 54) as Hdq.
  { destruct (Zdigits2_bounds (N / Zpos pb) ltac:(lia)) as [H0 H1].
    set (dq := Zdigits2 (N / Zpos pb)) in *. split.
    - destruct (Z.le_gt_cases 53 dq) as [|Hlt]; [assumption|].
      assert (2 ^ dq <= 2 ^ 52) by (apply Z.pow_le_mono_r; lia). lia.
    - destruct (Z.le_gt_cases dq 54) as [|Hgt]; [assumption|].
      assert (2 ^ 54 <= 2 ^ (dq - 1)) by (apply Z.pow_le_mono_r; lia). lia. }
  destruct (binary_round_aux_spec false N (Zpos pb) (- sft))
    as (m3 & n & Hn & Hm3 & Hr & _ & Hexact); try lia.
  assert (Zpos m3 * 2 ^ n * Zpos pb = N) as Eexact.
  { apply Hexact.
    set (j := Zdigits2 (N / Zpos pb) - 53) in *.
    assert (0 <= j <= 1) as Hj by (subst j; lia).
    subst N. rewrite Ea.
    replace (k * Zpos pb * 2 ^ sft) with (k * 2 ^ (sft - j) * (2 ^ j * Zpos pb)).
    - apply Z.mod_mul. assert (0 < 2 ^ j) by (apply Z.pow_pos_nonneg; lia). lia.
    - replace sft with ((sft - j) + j) at 2 by lia.
      rewrite Z.pow_add_r by lia. ring. }
  assert (Zpos m3 = Zpos mk /\ n + ak = sft) as [Em En].
  { apply normal_unique; try lia.
    assert (Zpos m3 * 2 ^ n = k * 2 ^ sft) as E3.
    { subst N. rewrite Ea in Eexact. nia. }
    rewrite Z.pow_add_r by lia. rewrite Emk. rewrite Z.mul_assoc, E3. ring. }
  unfold int_true_div.
  change (Z.pos pb =? 0) with false. change (Z.pos pa =? 0) with false.
  change (Z.pos pa <? 0) with false. change (Z.pos pb <? 0) with false.
  change (Z.to_pos (Z.abs (Z.pos pa))) with pa.
  change (Z.to_pos (Z.abs (Z.pos pb))) with pb.
  unfold fdiv, SFdiv, SFdiv_core_binary. cbv zeta. fold d1 d2.
  rewrite fexp_normal by lia.
  replace (Z.min (d1 + 0 - (d2 + 0) - 53) (0 - 0)) with (- sft) by (subst sft; lia).
  replace (0 - 0 - - sft) with sft by lia.
  destruct sft as [|ps|ps] eqn:Es; try lia.
  rewrite Z.shiftl_mul_pow2 by lia. fold N.
  pose proof (Z_div_mod_full N (Zpos pb) ltac:(lia)) as Hde.
  unfold Z.div, Z.modulo in Hr, Hde |- *.
  pose proof (new_location_rec N (Zpos pb) ltac:(lia) ltac:(lia)) as Hloc.
  unfold Z.modulo in Hloc.
  destruct (Z.div_eucl N (Zpos pb)) as [q r].
  rewrite Hloc. cbn [xorb]. rewrite Hr.
  injection Em as ->. repeat f_equal. lia.
Qed.

(** [w * float(k)] is the float of [w * k]. *)
Lemma mul_int_float_exact (w k : Z) (fk : spec_float) :
  0 < w -> 0 < k -> w * k < 2 ^ 53 ->
  float_of_int k = Ok fk ->
  exists fwk, float_of_int (w * k) = Ok fwk /\ mul (Int w) (Float fk) = Ok (Float fwk).
Proof.
  intros Hw Hk Hwk Efk.
  assert (w < 2 ^ 53 /\ k < 2 ^ 53) as [Hw53 Hk53] by (split; nia).
  destruct (float_of_int_spec k ltac:(lia)) as (mk & ak & Efk' & Hak & Hmk & Emk).
  rewrite Efk in Efk'. injection Efk' as ->.
  destruct (float_of_int_spec w ltac:(lia)) as (mw & aw & Efw & Haw & Hmw & Emw).
  destruct (float_of_int_spec (w * k) ltac:(nia)) as (mwk & awk & Efwk & Hawk & Hmwk & Emwk).
  eexists. split; [exact Efwk|].
  set (N := Zpos mw * Zpos mk).
  assert (N = w * k * 2 ^ (aw + ak)) as EN.
  { subst N. rewrite Emw, Emk, Z.pow_add_r by lia. ring. }
  assert (2 ^ 104 <= N < 2 ^ 106) as HN.
  { subst N. change (2 ^ 104) with (2 ^ 52 * 2 ^ 52). change (2 ^ 106) with (2 ^ 53 * 2 ^ 53).
    nia. }
  assert (105 <= Zdigits2 N <= 106) as Hd.
  { destruct (Zdigits2_bounds N ltac:(lia)) as [H0 H1].
    set (d := Zdigits2 N) in *. split.
    - destruct (Z.le_gt_cases 105 d) as [|Hlt]; [assumption|].
      assert (2 ^ d <= 2 ^ 104) by (apply Z.pow_le_mono_r; lia). lia.
    - destruct (Z.le_gt_cases d 106) as [|Hgt]; [assumption|].
      assert (2 ^ 106 <= 2 ^ (d - 1)) by (apply Z.pow_le_mono_r; lia). lia. }
  assert (2 ^ 52 <= N / 1) as H52.
  { rewrite Z.div_1_r. assert (2 ^ 52 <= 2 ^ 104) by (apply Z.pow_le_mono_r; lia). lia. }
  assert (-1021 <= - aw + - ak + Zdigits2 (N / 1) <= 1023) as Hrange
      by (rewrite Z.div_1_r; lia).
  destruct (binary_round_aux_spec false N 1 (- aw + - ak) ltac:(lia) H52 Hrange)
    as (mp & n & Hn & Hmp & Hr & _ & Hexact).
  rewrite Z.div_1_r in Hn, Hr, Hexact.
  replace (loc_of_shr_record (shr_rec N 1)) with loc_Exact in Hr
    by (unfold shr_rec; rewrite Z.mod_1_r; reflexivity).
  assert (Zpos mp * 2 ^ n = N) as Eexact.
  { rewrite <- (Z.mul_1_r (Zpos mp * 2 ^ n)). apply Hexact.
    rewrite Z.mul_1_r.
    destruct (Zdigits2_small (w * k) ltac:(nia)) as [Hdwk0 Hdwk].
    assert (Zdigits2 N = Zdigits2 (w * k) + (aw + ak)) as Edig
        by (rewrite EN; apply Zdigits2_shift; nia).
    set (j := Zdigits2 N - 53) in *.
    assert (0 <= j <= aw + ak) as Hj by (subst j; lia).
    rewrite EN. replace (aw + ak) with ((aw + ak - j) + j) by lia.
    rewrite Z.pow_add_r by lia. rewrite Z.mul_assoc. apply Z.mod_mul.
    assert (0 < 2 ^ j) by (apply Z.pow_pos_nonneg; lia). lia. }
  assert (Zpos mp = Zpos mwk /\ n + awk = aw + ak) as [Em En].
  { apply normal_unique; try lia.
    rewrite Z.pow_add_r by lia. rewrite Z.mul_assoc, Eexact, EN, Emwk. ring. }
  unfold mul, arith, as_float. rewrite Efw. cbn [mbind result_bind].
  unfold fmul, SFmul. cbn [xorb].
  change (Zpos (mw * mk)) with N. rewrite Hr.
  injection Em as ->. repeat f_equal. lia.
Qed.

(** [int(float(n))] is [n]. *)
Lemma to_int_float_of_int (n : Z) (f : spec_float) :
  0 < n < 2 ^ 53 -> float_of_int n = Ok f -> to_int (Float f) = Ok n.
Proof.
  intros Hn Ef.
  destruct (float_of_int_spec n Hn) as (m & a & Ef' & Ha & Hm & Em).
  rewrite Ef in Ef'. injection Ef' as ->.
  cbn [to_int]. rewrite int_of_float_pos. f_equal.
  destruct (Z.leb_spec 0 (- a)).
  - replace a with 0 in * by lia. cbn. rewrite Em. cbn. lia.
  - rewrite Z.opp_involutive, Em. apply Z.div_mul.
    assert (0 < 2 ^ a) by (apply Z.pow_pos_nonneg; lia). lia.
Qed.

Lemma SFltb_irrefl (f : spec_float) : SFltb f f = false.
Proof.
  unfold SFltb, SFcompare. destruct f as [s|s| |s m e]; try destruct s; try reflexivity.
  - rewrite Z.compare_refl, Pos.compare_cont_refl. reflexivity.
  - rewrite Z.compare_refl, Pos.compare_cont_refl. reflexivity.
Qed.

(** The size [resize] asks of Pillow for a whole multiple of the size. *)
Lemma keep_ratio_size_exact (k w h : Z) :
  0 < k -> 0 < w -> 0 < h -> k * w < 2 ^ 53 -> k * h < 2 ^ 53 ->
  keep_ratio_size (Int (k * w), Int (k * h)) w h = Ok (k * w, k * h).
Proof.
  intros Hk Hw Hh Hkw Hkh.
  unfold keep_ratio_size. cbn [fst snd truediv].
  rewrite (int_true_div_exact k w Hk Hw Hkw), (int_true_div_exact k h Hk Hh Hkh).
  destruct (float_of_int_spec k ltac:(nia)) as (mk & ak & Efk & _).
  rewrite Efk. cbn [mbind result_bind]. rewrite SFltb_irrefl.
  destruct (mul_int_float_exact w k _ Hw Hk ltac:(lia) Efk) as (fw & Efw & ->).
  destruct (mul_int_float_exact h k _ Hh Hk ltac:(lia) Efk) as (fh & Efh & ->).
  cbn [mbind result_bind].
  rewrite (to_int_float_of_int (w * k) fw ltac:(nia) Efw).
  rewrite (to_int_float_of_int (h * k) fh ltac:(nia) Efh).
  cbn [mbind result_bind]. rewrite (Z.mul_comm w k), (Z.mul_comm h k). reflexivity.
Qed.

(** X11. Enlarging by a whole factor is exact: for a canvas of positive size
    and an integer [k >= 1], [resize((k * width, k * height),
    keep_ratio=True)] asks Pillow for exactly [k * width] by [k * height]:
    the two quotients are the float of [k], and the products with it are
    not rounded. When one of the two does not fit a C [int] the call
    raises [OverflowError], and when Pillow cannot make an image of that
    size (it is wider than Pillow makes them, or memory runs out) it raises
    [MemoryError]; the store is then as it was. Otherwise the call returns
    [self] and the canvas afterwards is exactly [k * width] by
    [k * height], of the same mode. *)
Theorem resize_keep_ratio_whole_factor (B : Backend) (w : world) (self l : ref) (im : Image)
        (k : Z) :
  wrappers w !! self = Some l -> images w !! l = Some im ->
  0 < k -> 0 < width im <= INT_MAX -> 0 < height im <= INT_MAX ->
  k * width im < 2 ^ 53 -> k * height im < 2 ^ 53 ->
  let out := resize B self (Int (k * width im), Int (k * height im)) true w in
  if negb (fits_int (k * width im) && fits_int (k * height im))
  then out = (Raise OverflowError, w)
  else if refused w (k * width im) (k * height im)
  then out = (Raise MemoryError, w)
  else out.1 = Ok self
       /\ exists im', canvas_of out.2 self = Some im'
                      /\ mode im' = mode im
                      /\ width im' = k * width im /\ height im' = k * height im.
Proof.
  intros Hs Hl Hk Hw Hh Hkw Hkh. cbv zeta.
  rewrite (resize_keep_ratio_run B w self l im _ _ _ Hs Hl
             (keep_ratio_size_exact k (width im) (height im) Hk ltac:(lia) ltac:(lia) Hkw Hkh)).
  cbv zeta.
  assert (forall im0, canvas_of (with_wrapper (with_image w (fresh (dom (images w))) im0)
                                   self (fresh (dom (images w)))) self = Some im0) as Hc.
  { intros im0. unfold canvas_of. cbn. rewrite lookup_insert_eq. cbn.
    apply lookup_insert_eq. }
  destruct ((k * width im =? width im) && (k * height im =? height im)) eqn:Esame.
  - apply andb_true_iff in Esame as [E1 E2]. apply Z.eqb_eq in E1, E2.
    rewrite E1, E2.
    rewrite (fits_int_below (width im)), (fits_int_below (height im))
      by (unfold INT_MAX in Hw, Hh; lia).
    cbn [andb negb].
    destruct (refused w (width im) (height im)); [reflexivity|].
    split; [reflexivity|]. exists im. split; [apply Hc|]. repeat split; congruence.
  - destruct (negb (fits_int (k * width im) && fits_int (k * height im))); [reflexivity|].
    replace ((k * width im <? 1) || (k * height im <? 1)) with false
      by (symmetry; rewrite orb_false_iff, !Z.ltb_ge; nia).
    destruct (refused w (k * width im) (k * height im)); [reflexivity|].
    split; [reflexivity|]. eexists. split; [apply Hc|]. repeat split.
Qed.

(** The theorem at work: a 98 x 49 canvas, three times as large. *)
Lemma resize_keep_ratio_whole_factor_witness :
  let im := Fixtures.gradient RGBA 98 49 255 in
  let w := Fixtures.store im (Fixtures.gradient RGBA 2 2 255) in
  let out := resize Fixtures.nearest 1%positive (Int (3 * width im), Int (3 * height im)) true w in
  out.1 = Ok 1%positive
  /\ exists im', canvas_of out.2 1%positive = Some im'
                 /\ mode im' = mode im
                 /\ width im' = 3 * width im /\ height im' = 3 * height im.
Proof.
  intros im w.
  refine (resize_keep_ratio_whole_factor Fixtures.nearest w 1%positive 1%positive im 3
            _ _ _ _ _ _ _); first [reflexivity | cbn; unfold INT_MAX; lia].
Defined.

(** ** What [draw_image] draws *)

(** The paste of [draw_image] on integer coordinates, when the content
    meets the canvas: the canvas gets the content, through the content's
    own alpha, or as it is when the content is RGB (the first paste then
    raises and the second one is made). *)
Lemma paste_content_effect (w : world) (c sl : ref) (cim src : Image) (ox oy : Z) :
  images w !! sl = Some src -> images w !! c = Some cim ->
  Image.box_fits src ox oy = true ->
  region_empty cim src ox oy = false ->
  exists w',
    paste_content c sl (Int ox, Int oy) w = (Ok tt, w')
    /\ wrappers w' = wrappers w
    /\ images w'
       = <[c := {| mode := mode cim; width := width cim; height := height cim;
                   pix := pasted cim src ox oy
                            (match mode src with
                             | RGB => None
                             | _ => Some (fun x y =>
                                            default 0 (mask_level (mode src) (pix src x y)))
                             end) |}]> (images w).
Proof.
  intros Hs Hc Hfit Hne. unfold paste_content, try_except_ValueError.
  rewrite (paste_masked_run w c sl cim src ox oy Hs Hc Hfit), Hne.
  destruct (mode src) eqn:Em.
  - eexists. split; [reflexivity|]. cbn. split; reflexivity.
  - cbn [is_ValueError].
    rewrite (paste_unmasked_run _ c sl cim src ox oy) by (cbn; assumption).
    rewrite Hne. eexists. split; [reflexivity|]. cbn. split; reflexivity.
  - eexists. split; [reflexivity|]. cbn. split; reflexivity.
Qed.

(** X12. What [draw_image] draws, for a box of integers inside the canvas
    and a content of positive size. The content is resized to the size
    [keep_ratio_size] computes for the extent of the box (a copy when that
    is its own size); when that size has no width or height, Pillow's
    [ValueError] is raised, when Pillow cannot make an image of that size
    (it has no room for it) [MemoryError] is raised, and in both cases the
    canvas is as it was. Otherwise the call returns and the canvas is the
    old canvas with the resized content pasted at
    [(left + (box width - w) // 2, top + (box height - h) // 2)]: through
    the content's own alpha (or grey level) as mask, or without a mask
    when the content is RGB. *)
Theorem draw_image_draws_content (B : Backend) (w : world) (self c : ref) (cim : Image)
        (img : content) (l : ref) (im : Image) (b0 b1 b2 b3 : Z) :
  wrappers w !! self = Some c -> images w !! c = Some cim ->
  match img with
  | Raw l' => l' = l
  | Wrapped p => wrappers w !! p = Some l
  end ->
  images w !! l = Some im ->
  0 < width im < 2 ^ 31 -> 0 < height im < 2 ^ 31 ->
  0 <= b0 < b2 -> b2 <= width cim < 2 ^ 31 ->
  0 <= b1 < b3 -> b3 <= height cim < 2 ^ 31 ->
  let out := draw_image B self img [Int b0; Int b1; Int b2; Int b3] w in
  exists nw nh,
    keep_ratio_size (Int (b2 - b0), Int (b3 - b1)) (width im) (height im) = Ok (nw, nh)
    /\ 0 <= nw <= b2 - b0 /\ 0 <= nh <= b3 - b1
    /\ if (nw <? 1) || (nh <? 1)
       then out.1 = Raise (ValueError "height and width must be > 0")
            /\ images out.2 !! c = Some cim
       else if refused w nw nh
       then out.1 = Raise MemoryError
            /\ images out.2 !! c = Some cim
       else
         let src := if (nw =? width im) && (nh =? height im) then im
                    else {| mode := mode im; width := nw; height := nh;
                            pix := resample B im nw nh |} in
         let ox := b0 + (b2 - b0 - nw) `div` 2 in
         let oy := b1 + (b3 - b1 - nh) `div` 2 in
         let level := match mode im with
                      | RGB => None
                      | _ => Some (fun x y => default 0 (mask_level (mode im) (pix src x y)))
                      end in
         out.1 = Ok tt
         /\ images out.2 !! c
            = Some {| mode := mode cim; width := width cim; height := height cim;
                      pix := pasted cim src ox oy level |}.
Proof.
  intros Hs Hc Himg Hl Hw Hh Hx Hx' Hy Hy'. cbv zeta.
  rewrite (draw_image_no_padding B w self c cim img b0 b1 b2 b3 Hs Hc)
    by (rewrite !orb_false_iff, !Z.ltb_ge; lia).
  destruct (keep_ratio_size_bounds (b2 - b0) (b3 - b1) (width im) (height im)
              Hw Hh ltac:(lia) ltac:(lia)) as (nw & nh & Hk & Hnw & Hnh & _).
  exists nw, nh. split; [exact Hk|]. split; [exact Hnw|]. split; [exact Hnh|].
  set (src := if (nw =? width im) && (nh =? height im) then im
              else {| mode := mode im; width := nw; height := nh;
                      pix := resample B im nw nh |}).
  set (P := fun out : result unit * world =>
              if (nw <? 1) || (nh <? 1)
              then out.1 = Raise (ValueError "height and width must be > 0")
                   /\ images out.2 !! c = Some cim
              else if refused w nw nh
              then out.1 = Raise MemoryError
                   /\ images out.2 !! c = Some cim
              else
                out.1 = Ok tt
                /\ images out.2 !! c
                   = Some {| mode := mode cim; width := width cim; height := height cim;
                             pix := pasted cim src
                                      (b0 + (b2 - b0 - nw) `div` 2)
                                      (b1 + (b3 - b1 - nh) `div` 2)
                                      (match mode im with
                                       | RGB => None
                                       | _ => Some (fun x y =>
                                                default 0
                                                  (mask_level (mode im) (pix src x y)))
                                       end) |}).
  change (P (draw_image_place B self img (Int b0) (Int b1) (Int b2) (Int b3) w)).
  unfold draw_image_place.
  assert ((match img with
           | Raw l0 => mret l0
           | Wrapped p => image p
           end) w = (Ok l, w)) as Econtent.
  { destruct img as [l'|p]; [subst l'; reflexivity | apply image_run, Himg]. }
  rewrite bind_run, Econtent. cbn [sub arith].
  rewrite !lift_bind_run.
  rewrite bind_run. unfold init at 1.
  set (p1 := fresh (dom (wrappers w))).
  set (w1 := with_wrapper w p1 l).
  assert (p1 <> self) as Hp1 by (apply (fresh_wrapper_ne w self c Hs)).
  assert (wrappers w1 !! p1 = Some l) as Hw1p by (subst w1; cbn; apply lookup_insert_eq).
  assert (wrappers w1 !! self = Some c) as Hw1s
      by (subst w1; cbn; rewrite lookup_insert_ne by exact Hp1; exact Hs).
  assert (images w1 !! l = Some im) as Hw1l by exact Hl.
  assert (images w1 !! c = Some cim) as Hw1c by exact Hc.
  set (l2 := fresh (dom (images w1))).
  assert (resize B p1 (Int (b2 - b0), Int (b3 - b1)) true w1
          = if (nw <? 1) || (nh <? 1)
            then (Raise (ValueError "height and width must be > 0"), w1)
            else if refused w nw nh
            then (Raise MemoryError, w1)
            else (Ok p1, with_wrapper (with_image w1 l2 src) p1 l2)) as Hresize.
  { rewrite (resize_keep_ratio_run B w1 p1 l im _ nw nh Hw1p Hw1l Hk). cbv zeta.
    rewrite (fits_int_below nw), (fits_int_below nh) by lia. cbn [andb negb].
    change (refused w1) with (refused w). subst src l2.
    destruct ((nw =? width im) && (nh =? height im)) eqn:Esame.
    - apply andb_true_iff in Esame as [Ea Eb]. apply Z.eqb_eq in Ea, Eb.
      rewrite <- Ea, <- Eb.
      destruct (Z.ltb_spec nw 1), (Z.ltb_spec nh 1); try lia. reflexivity.
    - reflexivity. }
  rewrite bind_run, Hresize. clear Hresize.
  destruct ((nw <? 1) || (nh <? 1)) eqn:Esmall.
  { subst P. cbn [fst snd]. auto. }
  destruct (refused w nw nh) eqn:Eref.
  { subst P. cbn [fst snd]. auto. }
  apply orb_false_iff in Esmall as [E1 E2]. apply Z.ltb_ge in E1, E2.
  assert (mode src = mode im /\ width src = nw /\ height src = nh) as (Sm & Sw & Sh).
  { subst src. destruct ((nw =? width im) && (nh =? height im)) eqn:Esame; [|auto].
    apply andb_true_iff in Esame as [Ea Eb]. apply Z.eqb_eq in Ea, Eb. auto. }
  set (w2 := with_wrapper (with_image w1 l2 src) p1 l2).
  assert (l2 <> c) as Hl2 by (apply (fresh_image_ne w1 c cim Hw1c)).
  assert (wrappers w2 !! p1 = Some l2) as Hw2p by (subst w2; cbn; apply lookup_insert_eq).
  assert (wrappers w2 !! self = Some c) as Hw2s
      by (subst w2; cbn; rewrite lookup_insert_ne by exact Hp1; exact Hw1s).
  rewrite bind_run, (image_run _ _ _ Hw2p).
  rewrite bind_run. unfold init at 1.
  set (p2 := fresh (dom (wrappers w2))).
  set (w3 := with_wrapper w2 p2 l2).
  assert (p2 <> self) as Hp2 by (apply (fresh_wrapper_ne w2 self c Hw2s)).
  assert (wrappers w3 !! p2 = Some l2) as Hw3p by (subst w3; cbn; apply lookup_insert_eq).
  assert (wrappers w3 !! self = Some c) as Hw3s
      by (subst w3; cbn; rewrite lookup_insert_ne by exact Hp2; exact Hw2s).
  assert (images w3 !! l2 = Some src) as Hw3l by (subst w3 w2; cbn; apply lookup_insert_eq).
  assert (images w3 !! c = Some cim) as Hw3c
      by (subst w3 w2; cbn; rewrite lookup_insert_ne by exact Hl2; exact Hw1c).
  assert ((if gt (Int b0) (Int 0) then Int b0 else Int 0) = Int b0) as ->.
  { cbn. destruct (Z.ltb_spec 0 b0); [reflexivity | f_equal; lia]. }
  assert ((if gt (Int b1) (Int 0) then Int b1 else Int 0) = Int b1) as ->.
  { cbn. destruct (Z.ltb_spec 0 b1); [reflexivity | f_equal; lia]. }
  rewrite bind_run, (center_image_run B w3 p2 l2 src b0 b1 b2 b3 Hw3p Hw3l).
  rewrite bind_run, (image_run _ _ _ Hw3s). rewrite Sw, Sh.
  set (ox := b0 + (b2 - b0 - nw) `div` 2) in *.
  set (oy := b1 + (b3 - b1 - nh) `div` 2) in *.
  assert (b0 <= ox /\ ox + nw <= b2 /\ b1 <= oy /\ oy + nh <= b3) as Hin.
  { assert (0 <= (b2 - b0 - nw) `div` 2 /\ (b2 - b0 - nw) `div` 2 <= b2 - b0 - nw).
    { split; [apply Z.div_pos; lia|]. apply Z.div_le_upper_bound; lia. }
    assert (0 <= (b3 - b1 - nh) `div` 2 /\ (b3 - b1 - nh) `div` 2 <= b3 - b1 - nh).
    { split; [apply Z.div_pos; lia|]. apply Z.div_le_upper_bound; lia. }
    subst ox oy. lia. }
  assert (region_empty cim src ox oy = false) as Hregion.
  { unfold region_empty. rewrite Sw, Sh. rewrite orb_false_iff, !Z.leb_gt. lia. }
  assert (Image.box_fits src ox oy = true) as Hfit.
  { unfold Image.box_fits. rewrite Sw, Sh. rewrite !fits_int_below by lia. reflexivity. }
  destruct (paste_content_effect w3 c l2 cim src ox oy Hw3l Hw3c Hfit Hregion)
    as (w4 & -> & _ & Eimg).
  subst P. cbn [fst snd]. split; [reflexivity|].
  rewrite Eimg, lookup_insert_eq, Sm. reflexivity.
Qed.

(** The theorem at work: an RGB content of 30 x 20 in the box [(10, 10, 50, 50)]. *)
Lemma draw_image_draws_content_witness :
  let cim := Fixtures.gradient RGBA 100 100 255 in
  let im := Fixtures.gradient RGB 30 20 255 in
  let w := Fixtures.store cim im in
  let out := draw_image Fixtures.nearest 1%positive (Raw 2%positive)
               [Int 10; Int 10; Int 50; Int 50] w in
  exists nw nh,
    keep_ratio_size (Int (50 - 10), Int (50 - 10)) (width im) (height im) = Ok (nw, nh)
    /\ 0 <= nw <= 50 - 10 /\ 0 <= nh <= 50 - 10
    /\ if (nw <? 1) || (nh <? 1)
       then out.1 = Raise (ValueError "height and width must be > 0")
            /\ images out.2 !! 1%positive = Some cim
       else if refused w nw nh
       then out.1 = Raise MemoryError
            /\ images out.2 !! 1%positive = Some cim
       else
         let src := if (nw =? width im) && (nh =? height im) then im
                    else {| mode := mode im; width := nw; height := nh;
                            pix := resample Fixtures.nearest im nw nh |} in
         let ox := 10 + (50 - 10 - nw) `div` 2 in
         let oy := 10 + (50 - 10 - nh) `div` 2 in
         let level := match mode im with
                      | RGB => None
                      | _ => Some (fun x y => default 0 (mask_level (mode im) (pix src x y)))
                      end in
         out.1 = Ok tt
         /\ images out.2 !! 1%positive
            = Some {| mode := mode cim; width := width cim; height := height cim;
                      pix := pasted cim src ox oy level |}.
Proof.
  intros cim im w.
  refine (draw_image_draws_content Fixtures.nearest w 1%positive 1%positive cim
            (Raw 2%positive) 2%positive im 10 10 50 50 _ _ _ _ _ _ _ _ _ _);
    first [reflexivity | cbn; lia].
Defined.
